(** * Check-broken-Link: a model of [check_broken_links.py]

    The development follows the Python source top-down:

    - [Str]: the [str] methods the program and [urllib.parse] use;
    - [Urllib]: [urllib.parse] (CPython 3.11) as far as [urljoin],
      [urldefrag] and [urlparse(...).netloc] need it;
    - [normalize_url], [is_internal];
    - the shared crawl state and [fetch_and_extract], first as the
      sequential function, then cut into its atomic blocks (one per
      [with lock:] section or HTTP request) for the thread pool;
    - [crawl_concurrent] as a transition system over interleavings;
    - [export_errors_to_csv].

    Python [str] values are modelled by [string]: code points below 256.
    Python [int] values are [Z]. *)

From Stdlib Require Import ZArith Ascii String List.
From stdpp Require Import base tactics option list gmap strings relations.

Open Scope Z_scope.

(** ** Python values and exceptions *)

(** A value that is an [int] or a [str]: the [error] field of a broken-link
    tuple, a key of [stats], a CSV cell. *)
Inductive value :=
| Int (z : Z)
| Str (s : string).

#[global] Instance value_eq_dec : EqDecision value.
Proof. solve_decision. Defined.

#[global] Instance value_countable : Countable value.
Proof.
  refine (inj_countable'
            (λ v, match v with Int z => inl z | Str s => inr s end)
            (λ x, match x with inl z => Int z | inr s => Str s end) _).
  by intros [].
Defined.

(** The exceptions that escape the modelled code: the [ValueError] of
    [urllib.parse] and of [ThreadPoolExecutor], and whatever else a library
    call raises, kept with the name of its class and its [str]. *)
Inductive exn :=
| ValueError (msg : string)
| Exception (class msg : string).

Inductive outcome (A : Type) :=
| Returned (a : A)
| Raised (e : exn).
Arguments Returned {A} a.
Arguments Raised {A} e.

#[global] Instance outcome_ret : MRet outcome := λ A a, Returned a.
#[global] Instance outcome_bind : MBind outcome := λ A B k m,
  match m with
  | Returned a => k a
  | Raised e => Raised e
  end.

(** ** [str] methods *)
Module Str.

Definition chr (n : nat) : ascii := ascii_of_nat n.
Definition ord (c : ascii) : nat := nat_of_ascii c.

(** [c in chars] *)
Definition mem (c : ascii) (chars : string) : bool :=
  existsb (Ascii.eqb c) (list_ascii_of_string chars).

(** [c in s] for a one-character [c] *)
Fixpoint contains (c : ascii) (s : string) : bool :=
  match s with
  | EmptyString => false
  | String d s' => Ascii.eqb c d || contains c s'
  end.

(** [str.isspace] on one code point below 256: TAB..CR, FS..US, SPACE,
    NEL (0x85) and NBSP (0xA0). *)
Definition isspace (c : ascii) : bool :=
  let n := ord c in
  ((9 <=? n) && (n <=? 13) || (28 <=? n) && (n <=? 32)
   || (n =? 133) || (n =? 160))%nat.

Definition isupper (c : ascii) : bool :=
  let n := ord c in ((65 <=? n) && (n <=? 90))%nat.
Definition islower (c : ascii) : bool :=
  let n := ord c in ((97 <=? n) && (n <=? 122))%nat.
Definition isdigit (c : ascii) : bool :=
  let n := ord c in ((48 <=? n) && (n <=? 57))%nat.
(** [c.isascii() and c.isalpha()] *)
Definition isascii_alpha (c : ascii) : bool := isupper c || islower c.

Definition lower_char (c : ascii) : ascii :=
  if isupper c then chr (ord c + 32) else c.

(** [s.lower()] on ASCII letters *)
Fixpoint lower (s : string) : string :=
  match s with
  | EmptyString => EmptyString
  | String c s' => String (lower_char c) (lower s')
  end.

Fixpoint all (p : ascii → bool) (s : string) : bool :=
  match s with
  | EmptyString => true
  | String c s' => p c && all p s'
  end.

(** [s.lstrip(chars)], the set of characters given as a predicate *)
Fixpoint lstrip (p : ascii → bool) (s : string) : string :=
  match s with
  | EmptyString => EmptyString
  | String c s' => if p c then lstrip p s' else s
  end.

(** [s.rstrip(chars)] *)
Fixpoint rstrip (p : ascii → bool) (s : string) : string :=
  match s with
  | EmptyString => EmptyString
  | String c s' =>
      match rstrip p s' with
      | EmptyString => if p c then EmptyString else String c EmptyString
      | r => String c r
      end
  end.

(** [s.strip(chars)] *)
Definition strip (p : ascii → bool) (s : string) : string :=
  rstrip p (lstrip p s).

(** [s.replace(c, "")], for every [c] satisfying [p] *)
Fixpoint remove (p : ascii → bool) (s : string) : string :=
  match s with
  | EmptyString => EmptyString
  | String c s' => if p c then remove p s' else String c (remove p s')
  end.

(** [s.partition(c)]: the text before and after the first [c], or [None]
    when [c] does not occur. The same pair is [s[:i], s[i+1:]] for
    [i = s.find(c)], and [s.split(c, 1)]. *)
Fixpoint partition (c : ascii) (s : string) : option (string * string) :=
  match s with
  | EmptyString => None
  | String d s' =>
      if Ascii.eqb c d then Some (EmptyString, s')
      else match partition c s' with
           | Some (a, b) => Some (String d a, b)
           | None => None
           end
  end.

(** [s.rpartition(c)]: the text before and after the last [c]. *)
Fixpoint rpartition (c : ascii) (s : string) : option (string * string) :=
  match s with
  | EmptyString => None
  | String d s' =>
      match rpartition c s' with
      | Some (a, b) => Some (String d a, b)
      | None => if Ascii.eqb c d then Some (EmptyString, s') else None
      end
  end.

(** The longest prefix whose characters all satisfy [p], and the rest. *)
Fixpoint span (p : ascii → bool) (s : string) : string * string :=
  match s with
  | EmptyString => (EmptyString, EmptyString)
  | String c s' =>
      if p c then let '(a, b) := span p s' in (String c a, b)
      else (EmptyString, s)
  end.

(** [s.split(c)]: never the empty list. *)
Fixpoint split (c : ascii) (s : string) : list string :=
  match s with
  | EmptyString => [EmptyString]
  | String d s' =>
      if Ascii.eqb c d then EmptyString :: split c s'
      else match split c s' with
           | seg :: segs => String d seg :: segs
           | [] => [String d EmptyString]
           end
  end.

(** [sep.join(parts)] *)
Fixpoint join (sep : string) (parts : list string) : string :=
  match parts with
  | [] => EmptyString
  | [x] => x
  | x :: rest => x +:+ sep +:+ join sep rest
  end.

(** [s[-1]], when there is one *)
Fixpoint last_char (s : string) : option ascii :=
  match s with
  | EmptyString => None
  | String c s' =>
      match last_char s' with
      | Some d => Some d
      | None => Some c
      end
  end.

(** [s.startswith(prefix)], also [s[:len(prefix)] == prefix] *)
Fixpoint startswith (s pre : string) {struct pre} : bool :=
  match pre, s with
  | EmptyString, _ => true
  | String c pre', String d s' => Ascii.eqb c d && startswith s' pre'
  | String _ _, EmptyString => false
  end.

(** [s[n:]] *)
Fixpoint drop (n : nat) (s : string) : string :=
  match n, s with
  | O, _ => s
  | S n', String _ s' => drop n' s'
  | S _, EmptyString => EmptyString
  end.

(** [bool(s)] *)
Definition nonempty (s : string) : bool :=
  match s with EmptyString => false | _ => true end.

(** [s in l] for a list of strings *)
Definition in_list (s : string) (l : list string) : bool :=
  existsb (String.eqb s) l.

End Str.

(** ** [urllib.parse] (CPython 3.11), on [str] arguments *)

(** [_check_bracketed_host(hostname)] validates the text between the
    brackets of a network location with [ipaddress.ip_address] and a regular
    expression; both are outside the model. The collaborator either returns
    or raises [ValueError]. *)
Class Ipaddress := _check_bracketed_host : string → outcome unit.

Module Urllib.
Section urllib.
Context `{Ipaddress}.

Definition uses_relative : list string :=
  [""; "ftp"; "http"; "gopher"; "nntp"; "imap";
   "wais"; "file"; "https"; "shttp"; "mms";
   "prospero"; "rtsp"; "rtspu"; "sftp";
   "svn"; "svn+ssh"; "ws"; "wss"].

Definition uses_netloc : list string :=
  [""; "ftp"; "http"; "gopher"; "nntp"; "telnet";
   "imap"; "wais"; "file"; "mms"; "https"; "shttp";
   "snews"; "prospero"; "rtsp"; "rtspu"; "rsync";
   "svn"; "svn+ssh"; "sftp"; "nfs"; "git"; "git+ssh";
   "ws"; "wss"].

Definition uses_params : list string :=
  [""; "ftp"; "hdl"; "prospero"; "http"; "imap";
   "https"; "shttp"; "rtsp"; "rtspu"; "sip"; "sips";
   "mms"; "sftp"; "tel"].

Definition scheme_chars : string :=
  "abcdefghijklmnopqrstuvwxyzABCDEFGHIJKLMNOPQRSTUVWXYZ0123456789+-.".

Definition is_scheme_char (c : ascii) : bool := Str.mem c scheme_chars.

(** [_WHATWG_C0_CONTROL_OR_SPACE]: the code points 0x00 .. 0x20 *)
Definition is_c0_control_or_space (c : ascii) : bool :=
  (Str.ord c <=? 32)%nat.

(** [_UNSAFE_URL_BYTES_TO_REMOVE = ['\t', '\r', '\n']] *)
Definition is_unsafe (c : ascii) : bool :=
  let n := Str.ord c in ((n =? 9) || (n =? 13) || (n =? 10))%nat.

(** The characters that end a network location: ['/?#']. *)
Definition is_netloc_char (c : ascii) : bool := negb (Str.mem c "/?#").

(** [_splitnetloc(url, start)]: the network location runs from [start] up
    to the earliest of ['/'], ['?'], ['#']; returns it and the rest. *)
Definition _splitnetloc (url : string) (start : nat) : string * string :=
  Str.span is_netloc_char (Str.drop start url).

Definition _check_bracketed_netloc (netloc : string) : outcome unit :=
  let hostname_and_port :=
    match Str.rpartition "@" netloc with
    | Some (_, after) => after
    | None => netloc
    end in
  hostname ←
    match Str.partition "[" hostname_and_port with
    | Some (before_bracket, bracketed) =>
        if Str.nonempty before_bracket
        then Raised (ValueError "Invalid IPv6 URL")
        else
          let '(hostname, port) :=
            match Str.partition "]" bracketed with
            | Some hp => hp
            | None => (bracketed, "")
            end in
          if Str.nonempty port && negb (Str.startswith port ":")
          then Raised (ValueError "Invalid IPv6 URL")
          else Returned hostname
    | None =>
        Returned match Str.partition ":" hostname_and_port with
                 | Some (hostname, _) => hostname
                 | None => hostname_and_port
                 end
    end;
  _check_bracketed_host hostname.

(** [_checknetloc(netloc)] raises only when the NFKC normal form of a
    non-ASCII network location contains one of ['/?#@:']. No code point
    below 256 normalises to such a character, so on the strings of this
    model the check always passes and is left out of [urlsplit]. *)

(** [i = url.find(':')] and what follows: a scheme is split off when the
    text before the first colon starts with an ASCII letter and consists of
    scheme characters; otherwise the default [scheme] stays. *)
Definition split_scheme (url scheme : string) : string * string :=
  match Str.partition ":" url with
  | Some (String c0 _ as pre, post) =>
      if Str.isascii_alpha c0 && Str.all is_scheme_char pre
      then (Str.lower pre, post)
      else (scheme, url)
  | _ => (scheme, url)
  end.

(** [if url[:2] == '//': ...]: the network location and its checks. *)
Definition split_netloc (url : string) : outcome (string * string) :=
  if Str.startswith url "//"
  then
    let '(netloc, url) := _splitnetloc url 2 in
    let lb := Str.contains "[" netloc in
    let rb := Str.contains "]" netloc in
    if lb && negb rb || rb && negb lb
    then Raised (ValueError "Invalid IPv6 URL")
    else if lb && rb
         then _ ← _check_bracketed_netloc netloc; Returned (netloc, url)
         else Returned (netloc, url)
  else Returned ("", url).

(** [if c in url: url, rest = url.split(c, 1)], with [rest = ''] otherwise *)
Definition split_once (c : ascii) (url : string) : string * string :=
  match Str.partition c url with
  | Some (u, rest) => (u, rest)
  | None => (url, "")
  end.

(** [urlsplit(url, scheme)]:
    [(scheme, netloc, path, query, fragment)] *)
Definition urlsplit (url scheme : string)
  : outcome (string * string * string * string * string) :=
  let url := Str.lstrip is_c0_control_or_space url in
  let scheme := Str.strip is_c0_control_or_space scheme in
  let url := Str.remove is_unsafe url in
  let scheme := Str.remove is_unsafe scheme in
  let '(scheme, url) := split_scheme url scheme in
  '(netloc, url) ← split_netloc url;
  let '(url, fragment) := split_once "#" url in
  let '(url, query) := split_once "?" url in
  Returned (scheme, netloc, url, query, fragment).

(** [_splitparams(url)], called when [';' in url] *)
Definition _splitparams (url : string) : string * string :=
  match Str.rpartition "/" url with
  | Some (head, tail) =>
      match Str.partition ";" tail with
      | Some (t, params) => (head +:+ "/" +:+ t, params)
      | None => (url, "")
      end
  | None =>
      match Str.partition ";" url with
      | Some (u, params) => (u, params)
      | None => (url, "")
      end
  end.

Record ParseResult := mkParseResult {
  scheme : string;
  netloc : string;
  path : string;
  params : string;
  query : string;
  fragment : string;
}.

(** [urlparse(url, scheme)] *)
Definition urlparse (url scheme : string) : outcome ParseResult :=
  '(scheme, netloc, url, query, fragment) ← urlsplit url scheme;
  let '(url, params) :=
    if Str.in_list scheme uses_params && Str.contains ";" url
    then _splitparams url
    else (url, "") in
  Returned (mkParseResult scheme netloc url params query fragment).

(** [urlunsplit((scheme, netloc, url, query, fragment))] *)
Definition urlunsplit (scheme netloc url query fragment : string) : string :=
  let url :=
    if Str.nonempty netloc
       || (Str.nonempty scheme && Str.in_list scheme uses_netloc
           && negb (Str.startswith url "//"))
    then
      let url :=
        if Str.nonempty url && negb (Str.startswith url "/")
        then "/" +:+ url else url in
      "//" +:+ netloc +:+ url
    else url in
  let url := if Str.nonempty scheme then scheme +:+ ":" +:+ url else url in
  let url := if Str.nonempty query then url +:+ "?" +:+ query else url in
  let url := if Str.nonempty fragment then url +:+ "#" +:+ fragment else url in
  url.

(** [urlunparse((scheme, netloc, url, params, query, fragment))] *)
Definition urlunparse (r : ParseResult) : string :=
  let url :=
    if Str.nonempty (params r) then path r +:+ ";" +:+ params r
    else path r in
  urlunsplit (scheme r) (netloc r) url (query r) (fragment r).

(** The loop of [urljoin] over [segments]: [resolved_path] after it. *)
Definition resolve_segments (segments : list string) : list string :=
  foldl (λ resolved_path seg,
           if String.eqb seg ".." then removelast resolved_path
           else if String.eqb seg "." then resolved_path
           else (resolved_path ++ [seg]))
        [] segments.

(** [segments[1:-1] = filter(None, segments[1:-1])] *)
Definition filter_inner (segments : list string) : list string :=
  match segments with
  | first :: (_ :: _) as rest =>
      (first :: List.filter Str.nonempty (removelast rest)
         ++ [List.last rest ""])
  | _ => segments
  end.

(** [urljoin(base, url)] *)
Definition urljoin (base url : string) : outcome string :=
  if negb (Str.nonempty base) then Returned url
  else if negb (Str.nonempty url) then Returned base
  else
    b ← urlparse base "";
    u ← urlparse url (scheme b);
    if negb (String.eqb (scheme u) (scheme b))
       || negb (Str.in_list (scheme u) uses_relative)
    then Returned url
    else if Str.in_list (scheme u) uses_netloc && Str.nonempty (netloc u)
    then Returned (urlunparse u)
    else
      let netloc' :=
        if Str.in_list (scheme u) uses_netloc then netloc b else netloc u in
      if negb (Str.nonempty (path u)) && negb (Str.nonempty (params u))
      then
        let query' := if Str.nonempty (query u) then query u else query b in
        Returned (urlunparse (mkParseResult (scheme u) netloc' (path b)
                                (params b) query' (fragment u)))
      else
        let base_parts := Str.split "/" (path b) in
        let base_parts :=
          if negb (String.eqb (List.last base_parts "") "")
          then removelast base_parts else base_parts in
        let segments :=
          if Str.startswith (path u) "/" then Str.split "/" (path u)
          else filter_inner (base_parts ++ Str.split "/" (path u)) in
        let resolved_path := resolve_segments segments in
        let resolved_path :=
          if Str.in_list (List.last segments "") ["."; ".."]
          then (resolved_path ++ [""]) else resolved_path in
        let joined := Str.join "/" resolved_path in
        Returned (urlunparse (mkParseResult (scheme u) netloc'
                                (if Str.nonempty joined then joined else "/")
                                (params u) (query u) (fragment u))).

(** [urldefrag(url)]: the first component of the result, the URL without
    its fragment. *)
Definition urldefrag (url : string) : outcome string :=
  if Str.contains "#" url
  then
    r ← urlparse url "";
    Returned (urlunparse (mkParseResult (scheme r) (netloc r) (path r)
                            (params r) (query r) ""))
  else Returned url.

End urllib.
End Urllib.

(** ** URL normalizer and scope filter *)

Section normalizer.
Context `{Ipaddress}.

Definition normalize_url (base link : string) : outcome string :=
  joined ← Urllib.urljoin base link;
  clean ← Urllib.urldefrag joined;
  Returned (Str.rstrip (Ascii.eqb "/") (Str.strip Str.isspace clean)).

Definition is_internal (base_url url : string) : outcome bool :=
  u ← Urllib.urlparse url "";
  b ← Urllib.urlparse base_url "";
  Returned (String.eqb (Urllib.netloc u) (Urllib.netloc b)).

End normalizer.

(** ** External collaborators of the crawler *)

(** What [requests.get(url, timeout=10)] does: it returns a response with a
    status code and a body, or raises a [requests.RequestException] (whose
    [str] is kept), or raises an exception of another class, which the
    [except requests.RequestException] clause does not catch. *)
Inductive response :=
| Response (status_code : Z) (text : string)
| RequestException (e : string)
| OtherException (x : exn).

(** The HTTP client and the HTML parser:
    [find_all_href text] is the list of [tag['href']] for [tag] in
    [BeautifulSoup(text, "html.parser").find_all("a", href=True)]. *)
Class Web := {
  requests_get : string → response;
  find_all_href : string → list string;
}.

(** ** Shared state *)

(** A frontier entry [(url, depth, source)]. *)
Definition entry : Type := string * Z * string.
Definition entry_url (e : entry) : string := e.1.1.
Definition entry_depth (e : entry) : Z := e.1.2.
Definition entry_source (e : entry) : string := e.2.

(** The module-level variables. [realtime_export_file] is [None] or the rows
    written to the open file so far. Two traces are kept beside them:
    [requests_log], the URLs passed to [requests.get], and [frontier_log], the
    entries ever put in the initial queue or in a [result_links] list, both
    oldest first. *)
Record state := mkState {
  visited : gset string;
  discovered : gset string;
  broken : list (string * value * string);
  stats : gmap value nat;
  realtime_export_file : option (list (list value));
  requests_log : list string;
  frontier_log : list entry;
}.

Definition set_visited (f : gset string → gset string) (st : state) : state :=
  mkState (f (visited st)) (discovered st) (broken st) (stats st)
          (realtime_export_file st) (requests_log st) (frontier_log st).
Definition set_discovered (f : gset string → gset string) (st : state) : state :=
  mkState (visited st) (f (discovered st)) (broken st) (stats st)
          (realtime_export_file st) (requests_log st) (frontier_log st).
Definition set_broken
    (f : list (string * value * string) → list (string * value * string))
    (st : state) : state :=
  mkState (visited st) (discovered st) (f (broken st)) (stats st)
          (realtime_export_file st) (requests_log st) (frontier_log st).
Definition set_stats (f : gmap value nat → gmap value nat) (st : state) : state :=
  mkState (visited st) (discovered st) (broken st) (f (stats st))
          (realtime_export_file st) (requests_log st) (frontier_log st).
Definition set_realtime_export_file
    (f : option (list (list value)) → option (list (list value)))
    (st : state) : state :=
  mkState (visited st) (discovered st) (broken st) (stats st)
          (f (realtime_export_file st)) (requests_log st) (frontier_log st).
Definition set_requests_log (f : list string → list string) (st : state) : state :=
  mkState (visited st) (discovered st) (broken st) (stats st)
          (realtime_export_file st) (f (requests_log st)) (frontier_log st).
Definition set_frontier_log (f : list entry → list entry) (st : state) : state :=
  mkState (visited st) (discovered st) (broken st) (stats st)
          (realtime_export_file st) (requests_log st) (f (frontier_log st)).

(** [stats[key]] on the [defaultdict(int)] *)
Definition stats_get (key : value) (m : gmap value nat) : nat :=
  default 0%nat (m !! key).

(** [stats[key] += 1] *)
Definition stats_incr (key : value) (st : state) : state :=
  set_stats (λ m, <[key := S (stats_get key m)]> m) st.

(** Reading [stats[key]] creates a missing entry with count 0. *)
Definition stats_touch (key : value) (m : gmap value nat) : gmap value nat :=
  match m !! key with
  | Some _ => m
  | None => <[key := 0%nat]> m
  end.

(** [build_table()]: the table itself is presentation; what stays in the
    shared state is the five histogram entries it reads. *)
Definition build_table (st : state) : state :=
  set_stats (λ m, foldl (λ m key, stats_touch key m) m
                    [Int 200; Int 400; Int 404; Int 500; Str "error"]) st.

Definition csv_header : list value := [Str "Error"; Str "URL"; Str "Source"].

Definition export_row_realtime (error : value) (target_url source_url : string)
    (st : state) : state :=
  set_realtime_export_file
    (λ file, match file with
             | None => None
             | Some rows =>
                 Some (rows ++ [[error; Str target_url; Str source_url]])
             end) st.

(** The globals when [main] calls [crawl_concurrent]; with
    [--export-realtime] the file is open and holds the header row. *)
Definition initial_state (export_realtime : bool) : state :=
  mkState ∅ ∅ [] ∅ (if export_realtime then Some [csv_header] else None) [] [].

(** ** [fetch_and_extract] *)

Section crawler.
Context `{Ipaddress} `{Web}.

(** The first [with lock:] block: [true] when the task goes on to fetch. *)
Definition visit_gate (url : string) (depth max_depth : Z) (st : state)
  : bool * state :=
  if bool_decide (url ∈ visited st) || (depth >? max_depth)
  then (false, st)
  else (true, set_visited (λ v, {[url]} ∪ v) st).

(** [requests.get(url, timeout=10)], with the request logged. *)
Definition http_request (url : string) (st : state) : response * state :=
  (requests_get url, set_requests_log (λ l, l ++ [url]) st).

(** The block run when [status >= 400]. *)
Definition record_broken_status (url : string) (status : Z)
    (source_url : string) (st : state) : state :=
  export_row_realtime (Int status) url source_url
    (set_broken (λ b, b ++ [(url, Int status, source_url)]) st).

(** The [except requests.RequestException as e] block. *)
Definition record_exception (url e source_url : string) (st : state) : state :=
  export_row_realtime (Str "ERROR") url source_url
    (set_broken (λ b, b ++ [(url, Str e, source_url)])
       (stats_incr (Str "error") st)).

(** One iteration of [for tag in soup.find_all("a", href=True)]. An
    exception leaves the shared state as it was before the iteration. *)
Definition extract_one (url base_url : string) (depth : Z) (tag_href : string)
    (result_links : list entry) (st : state)
  : outcome (list entry * state) :=
  href ← normalize_url url tag_href;
  if Str.startswith href "mailto:" || Str.startswith href "tel:"
  then Returned (result_links, st)
  else
    internal ← is_internal base_url href;
    if internal : bool
    then
      if bool_decide (href ∈ discovered st)
      then Returned (result_links, st)
      else Returned ((result_links ++ [(href, depth + 1, url)]),
                     set_frontier_log (λ l, l ++ [(href, depth + 1, url)])
                       (set_discovered (λ d, {[href]} ∪ d) st))
    else Returned (result_links, st).

Fixpoint extract_links (url base_url : string) (depth : Z)
    (hrefs : list string) (result_links : list entry) (st : state)
  : outcome (list entry) * state :=
  match hrefs with
  | [] => (Returned result_links, st)
  | tag_href :: hrefs' =>
      match extract_one url base_url depth tag_href result_links st with
      | Returned (result_links', st') =>
          extract_links url base_url depth hrefs' result_links' st'
      | Raised e => (Raised e, st)
      end
  end.

(** [fetch_and_extract(url, base_url, depth, max_depth, source_url)] run
    without interruption: what it returns or raises, and the shared state
    after it. *)
Definition fetch_and_extract (url base_url : string) (depth max_depth : Z)
    (source_url : string) (st : state) : outcome (list entry) * state :=
  let '(go, st) := visit_gate url depth max_depth st in
  if negb go then (Returned [], st)
  else
    let '(response, st) := http_request url st in
    match response with
    | Response status text =>
        let st := stats_incr (Int status) st in
        if status >=? 400
        then (Returned [], record_broken_status url status source_url st)
        else extract_links url base_url depth (find_all_href text) [] st
    | RequestException e =>
        (Returned [], record_exception url e source_url st)
    | OtherException x => (Raised x, st)
    end.

(** *** The same function, one atomic block at a time

    A worker thread holds [lock] for each block that touches the shared
    state; between two blocks any other thread may run. [pc] is where a
    task stands, with its local variables. *)
Inductive pc :=
| Queued
| AtGate
| AtRequest
| AtStatus (status : Z) (text : string)
| AtBroken (status : Z)
| InLoop (hrefs : list string) (result_links : list entry)
| AtExcept (e : string)
| Finished (result : outcome (list entry)).

Definition task_step (base_url : string) (max_depth : Z) (e : entry)
    (p : pc) (st : state) : pc * state :=
  let '(url, depth, source_url) := e in
  match p with
  | Queued => (Queued, st)
  | AtGate =>
      let '(go, st') := visit_gate url depth max_depth st in
      (if go then AtRequest else Finished (Returned []), st')
  | AtRequest =>
      let '(response, st') := http_request url st in
      (match response with
       | Response status text => AtStatus status text
       | RequestException e => AtExcept e
       | OtherException x => Finished (Raised x)
       end, st')
  | AtStatus status text =>
      (if status >=? 400 then AtBroken status
       else InLoop (find_all_href text) [],
       stats_incr (Int status) st)
  | AtBroken status =>
      (Finished (Returned []), record_broken_status url status source_url st)
  | InLoop [] result_links => (Finished (Returned result_links), st)
  | InLoop (tag_href :: hrefs') result_links =>
      match extract_one url base_url depth tag_href result_links st with
      | Returned (result_links', st') => (InLoop hrefs' result_links', st')
      | Raised x => (Finished (Raised x), st)
      end
  | AtExcept e =>
      (Finished (Returned []), record_exception url e source_url st)
  | Finished r => (Finished r, st)
  end.

Definition is_finished (p : pc) : bool :=
  match p with Finished _ => true | _ => false end.

(** A task holds a worker thread from its start to its return. *)
Definition is_running (p : pc) : bool :=
  match p with Queued | Finished _ => false | _ => true end.

Fixpoint run_task (fuel : nat) (base_url : string) (max_depth : Z)
    (e : entry) (p : pc) (st : state) : pc * state :=
  match fuel with
  | O => (p, st)
  | S fuel' =>
      let '(p', st') := task_step base_url max_depth e p st in
      run_task fuel' base_url max_depth e p' st'
  end.

End crawler.

(** ** [crawl_concurrent] *)

Section scheduler.
Context `{Ipaddress} `{Web}.

(** A submitted task: its arguments, where its worker stands, and whether
    [as_completed] has already yielded it. *)
Record future := mkFuture {
  fut_entry : entry;
  fut_pc : pc;
  fut_yielded : bool;
}.

(** Where the main thread stands. *)
Inductive phase :=
| OuterLoop               (* at the outer [while queue:] *)
| Submitting              (* in the inner [while queue:] *)
| Collecting              (* in [for future in as_completed(futures)] *)
| ShuttingDown (e : exn)  (* an exception leaves the [with] blocks; the
                             executor waits for the submitted tasks *)
| Done                    (* [crawl_concurrent] has returned *)
| Failed (e : exn).       (* [crawl_concurrent] has raised *)

Record config := mkConfig {
  shared : state;
  queue : list entry;
  futures : list future;
  at_phase : phase;
}.

(** [crawl_concurrent(base_url, max_depth, max_workers)] up to the first
    test of [while queue:]. [ThreadPoolExecutor] refuses a pool without
    workers. *)
Definition crawl_start (base_url : string) (max_workers : Z) (st : state)
  : config :=
  let root : entry := (base_url, 0, "root") in
  let st := set_frontier_log (λ l, l ++ [root])
              (set_discovered (λ d, {[base_url]} ∪ d) st) in
  mkConfig (build_table st) [root] []
    (if max_workers <=? 0
     then Failed (ValueError "max_workers must be greater than 0")
     else OuterLoop).

Definition running (fs : list future) : nat :=
  length (List.filter (λ f, is_running (fut_pc f)) fs).

(** The next move is the main thread's, a pool thread taking a queued task,
    a task running its next atomic block, or [as_completed] yielding a
    finished task. *)
Inductive action :=
| MainThread
| Start (i : nat)
| Run (i : nat)
| Yield (i : nat).

Definition main_thread (c : config) : option config :=
  match at_phase c with
  | OuterLoop =>
      match queue c with
      | [] => Some (mkConfig (shared c) [] (futures c) Done)
      | _ => Some (mkConfig (shared c) (queue c) [] Submitting)
      end
  | Submitting =>
      match queue c with
      | e :: q =>
          Some (mkConfig (shared c) q
                  (futures c ++ [mkFuture e Queued false]) Submitting)
      | [] => Some (mkConfig (shared c) [] (futures c) Collecting)
      end
  | Collecting =>
      if forallb fut_yielded (futures c)
      then Some (mkConfig (shared c) (queue c) (futures c) OuterLoop)
      else None
  | ShuttingDown e =>
      if forallb (λ f, is_finished (fut_pc f)) (futures c)
      then Some (mkConfig (shared c) (queue c) (futures c) (Failed e))
      else None
  | Done | Failed _ => None
  end.

Definition start_task (max_workers : Z) (i : nat) (c : config)
  : option config :=
  match futures c !! i with
  | Some (mkFuture e Queued y) =>
      if Z.of_nat (running (futures c)) <? max_workers
      then Some (mkConfig (shared c) (queue c)
                   (<[i := mkFuture e AtGate y]> (futures c)) (at_phase c))
      else None
  | _ => None
  end.

Definition run_block (base_url : string) (max_depth : Z) (i : nat)
    (c : config) : option config :=
  match futures c !! i with
  | Some (mkFuture e p y) =>
      if is_running p
      then
        let '(p', st') := task_step base_url max_depth e p (shared c) in
        Some (mkConfig st' (queue c)
                (<[i := mkFuture e p' y]> (futures c)) (at_phase c))
      else None
  | None => None
  end.

(** One iteration of the [for] loop: [future.result()] returns the list,
    which is appended to [queue], or raises what the task raised. *)
Definition yield_future (i : nat) (c : config) : option config :=
  match at_phase c, futures c !! i with
  | Collecting, Some (mkFuture e (Finished r) false) =>
      let fs := <[i := mkFuture e (Finished r) true]> (futures c) in
      match r with
      | Returned result =>
          Some (mkConfig (build_table (shared c)) (queue c ++ result) fs
                  Collecting)
      | Raised x =>
          Some (mkConfig (shared c) (queue c) fs (ShuttingDown x))
      end
  | _, _ => None
  end.

Definition perform (base_url : string) (max_depth max_workers : Z)
    (a : action) (c : config) : option config :=
  match a with
  | MainThread => main_thread c
  | Start i => start_task max_workers i c
  | Run i => run_block base_url max_depth i c
  | Yield i => yield_future i c
  end.

Definition step (base_url : string) (max_depth max_workers : Z)
    (c c' : config) : Prop :=
  ∃ a, perform base_url max_depth max_workers a c = Some c'.

(** The configurations a crawl started by [main] can be in. *)
Definition reachable (base_url : string) (max_depth max_workers : Z)
    (export_realtime : bool) (c : config) : Prop :=
  rtc (step base_url max_depth max_workers)
      (crawl_start base_url max_workers (initial_state export_realtime)) c.

(** Running a given schedule. *)
Fixpoint run_schedule (base_url : string) (max_depth max_workers : Z)
    (schedule : list action) (c : config) : option config :=
  match schedule with
  | [] => Some c
  | a :: schedule' =>
      match perform base_url max_depth max_workers a c with
      | Some c' => run_schedule base_url max_depth max_workers schedule' c'
      | None => None
      end
  end.

(** A schedule that always makes the first possible move, looking at the
    main thread first and then at the tasks in submission order. *)
Definition first_move (base_url : string) (max_depth max_workers : Z)
    (c : config) : option action :=
  List.find
    (λ a, bool_decide (is_Some (perform base_url max_depth max_workers a c)))
    (MainThread ::
       flat_map (λ i, [Yield i; Run i; Start i]) (seq 0 (length (futures c)))).

Fixpoint crawl (fuel : nat) (base_url : string) (max_depth max_workers : Z)
    (c : config) : config :=
  match fuel with
  | O => c
  | S fuel' =>
      match first_move base_url max_depth max_workers c with
      | Some a =>
          match perform base_url max_depth max_workers a c with
          | Some c' => crawl fuel' base_url max_depth max_workers c'
          | None => c
          end
      | None => c
      end
  end.

End scheduler.

(** ** Reporting *)

(** [export_errors_to_csv(filename)]: the rows written to the file, which is
    opened for writing and so starts empty. *)
Definition writerow (row : list value) (csvfile : list (list value))
  : list (list value) :=
  csvfile ++ [row].

Definition export_errors_to_csv (broken : list (string * value * string))
  : list (list value) :=
  foldl (λ csvfile '(url, err, source),
           match err with
           | Int code =>
               if bool_decide (code ∈ [400; 404; 500])
               then writerow [Int code; Str url; Str source] csvfile
               else csvfile
           | Str _ => writerow [Str "ERROR"; Str url; Str source] csvfile
           end)
        (writerow csv_header []) broken.

(** ** A small site to run the crawler on

    Pages list their links separated by spaces; the site is the one of the
    specification's end-to-end scenario. *)
Module Example_site.

#[local] Instance ipaddress : Ipaddress := λ _, Returned ().

Definition pages (url : string) : response :=
  if String.eqb url "https://example.com"
  then Response 200 "/a /b mailto:test@example.com"
  else if String.eqb url "https://example.com/a"
  then Response 200 "c https://other.com/y /a#top"
  else if String.eqb url "https://example.com/b"
  then Response 404 "/d"
  else if String.eqb url "https://example.com/c"
  then Response 200 ""
  else RequestException "connection refused".

#[local] Instance web : Web := {|
  requests_get := pages;
  find_all_href text :=
    List.filter Str.nonempty (Str.split " " text);
|}.

Definition base_url : string := "https://example.com".

Definition start (max_workers : Z) : config :=
  crawl_start base_url max_workers (initial_state true).

End Example_site.

(** ** A site with faults

    Its start page links to a page that answers 403, to one that cannot be
    reached, and to one whose only link [urllib.parse] refuses. *)
Module Example_faulty_site.

#[local] Instance ipaddress : Ipaddress := λ _, Returned ().

Definition pages (url : string) : response :=
  if String.eqb url "https://example.com"
  then Response 200 "/forbidden /gone /bad"
  else if String.eqb url "https://example.com/forbidden"
  then Response 403 ""
  else if String.eqb url "https://example.com/bad"
  then Response 200 "http://["
  else RequestException "timed out".

#[local] Instance web : Web := {|
  requests_get := pages;
  find_all_href text :=
    List.filter Str.nonempty (Str.split " " text);
|}.

Definition base_url : string := "https://example.com".

Definition start (max_workers : Z) : config :=
  crawl_start base_url max_workers (initial_state true).

End Example_faulty_site.

(** ** A site that makes [requests.get] fail

    The host name of its start page has an empty label, for which
    [requests.get] raises an exception that is not a
    [requests.RequestException]. *)
Module Example_crashing_site.

#[local] Instance ipaddress : Ipaddress := λ _, Returned ().

#[local] Instance web : Web := {|
  requests_get _ :=
    OtherException (Exception "LocationParseError" "Failed to parse: a..b");
  find_all_href text :=
    List.filter Str.nonempty (Str.split " " text);
|}.

Definition base_url : string := "http://a..b".

Definition start (max_workers : Z) : config :=
  crawl_start base_url max_workers (initial_state true).

End Example_crashing_site.

(** ** The final export as the specification words it

    The rows after the header are the broken-link records whose error is one
    of the statuses 400, 404, 500, written as that integer, or a transport
    error description, written as [ERROR]; in the order of the broken list. *)
Definition final_export_keeps (record : string * value * string) : bool :=
  match record.1.2 with
  | Int code => bool_decide (code = 400 ∨ code = 404 ∨ code = 500)
  | Str _ => true
  end.

Definition final_export_row (record : string * value * string) : list value :=
  let '(url, err, source) := record in
  match err with
  | Int code => [Int code; Str url; Str source]
  | Str _ => [Str "ERROR"; Str url; Str source]
  end.

Definition final_export_spec (broken : list (string * value * string))
  : list (list value) :=
  csv_header :: map final_export_row (List.filter final_export_keeps broken).

(** ** The normalizer as the specification words it

    "resolve relative references against base per standard URL-resolution
    rules, drop the fragment component, remove leading/trailing whitespace,
    strip exactly one trailing slash if present". *)

(** [s[:-1]] when [s] ends in a slash, [s] otherwise. *)
Fixpoint strip_one_trailing_slash (s : string) : string :=
  match s with
  | EmptyString => EmptyString
  | String c EmptyString => if Ascii.eqb c "/" then EmptyString else s
  | String c s' => String c (strip_one_trailing_slash s')
  end.

Definition normalize_url_one_slash `{Ipaddress} (base link : string)
  : outcome string :=
  joined ← Urllib.urljoin base link;
  clean ← Urllib.urldefrag joined;
  Returned (strip_one_trailing_slash (Str.strip Str.isspace clean)).

(** ** Absolute URLs in canonical form

    [build_url s n p q] is [s://n] followed by the path [p] and, when [q] is
    not empty, [?q]. It is canonical when [s] is a lower-case scheme, [n] a
    non-empty network location without brackets, [p] empty or starting with a
    slash, and no part holds a tab, a line break, or a delimiter of a later
    part. *)
Definition build_url (s n p q : string) : string :=
  s +:+ "://" +:+ n +:+ p +:+ (if Str.nonempty q then "?" +:+ q else "").

Definition scheme_ok (s : string) : bool :=
  match s with
  | EmptyString => false
  | String c0 _ => Str.isascii_alpha c0 && Str.all Urllib.is_scheme_char s
  end.

Definition netloc_char_ok (c : ascii) : bool :=
  Urllib.is_netloc_char c && negb (Urllib.is_unsafe c) && negb (Str.mem c "[]").

Definition netloc_ok (n : string) : bool := Str.all netloc_char_ok n.

(** What may follow the network location: nothing, or text starting with
    one of ['/'], ['?'], ['#']. *)
Definition rest_ok (rest : string) : bool :=
  match rest with
  | EmptyString => true
  | String c _ => negb (Urllib.is_netloc_char c)
  end.

Definition path_char_ok (c : ascii) : bool :=
  negb (Urllib.is_unsafe c) && negb (Str.mem c "?#;").

Definition path_ok (p : string) : bool :=
  (negb (Str.nonempty p) || Str.startswith p "/") && Str.all path_char_ok p.

Definition query_char_ok (c : ascii) : bool :=
  negb (Urllib.is_unsafe c) && negb (Ascii.eqb c "#").

Definition query_ok (q : string) : bool := Str.all query_char_ok q.

Definition canonical (s n p q : string) : bool :=
  scheme_ok s && String.eqb (Str.lower s) s
  && Str.nonempty n && netloc_ok n && path_ok p && query_ok q.

(** [s] ends in a character that [str.strip()] removes. *)
Definition ends_in_space (s : string) : bool :=
  match Str.last_char s with
  | Some c => Str.isspace c
  | None => false
  end.

(** ** The scope filter as the specification words it

    "true iff their host components are equal (scheme and port are not
    required to match)". [hostname] is the host of a network location:
    the text after the user information and before the port
    ([SplitResult.hostname], brackets aside). *)
Definition hostname (netloc : string) : string :=
  let hostinfo :=
    match Str.rpartition "@" netloc with
    | Some (_, after) => after
    | None => netloc
    end in
  Str.lower match Str.partition ":" hostinfo with
            | Some (host, _) => host
            | None => hostinfo
            end.

Definition is_internal_by_host `{Ipaddress} (base_url url : string)
  : outcome bool :=
  u ← Urllib.urlparse url "";
  b ← Urllib.urlparse base_url "";
  Returned (String.eqb (hostname (Urllib.netloc u)) (hostname (Urllib.netloc b))).

(** ** The transitions, case by case

    [task_trans] lists what one atomic block of a task can do, and
    [sched_trans] what one move of the whole crawl can do, with the changed
    future singled out in the list. Every [step] is one of these
    (lemma [step_sched_trans]); the invariants are proved over them. *)

Section transitions.
Context `{Ipaddress} `{Web}.
Variables (base_url : string) (max_depth max_workers : Z).

Inductive task_trans (e : entry) : pc → state → pc → state → Prop :=
| tt_gate_closed st :
    entry_url e ∈ visited st ∨ max_depth < entry_depth e →
    task_trans e AtGate st (Finished (Returned [])) st
| tt_gate_open st :
    entry_url e ∉ visited st → entry_depth e ≤ max_depth →
    task_trans e AtGate st AtRequest
      (set_visited (λ v, {[entry_url e]} ∪ v) st)
| tt_response st status text :
    requests_get (entry_url e) = Response status text →
    task_trans e AtRequest st (AtStatus status text)
      (set_requests_log (λ l, l ++ [entry_url e]) st)
| tt_exception st x :
    requests_get (entry_url e) = RequestException x →
    task_trans e AtRequest st (AtExcept x)
      (set_requests_log (λ l, l ++ [entry_url e]) st)
| tt_status_broken st status text :
    400 ≤ status →
    task_trans e (AtStatus status text) st (AtBroken status)
      (stats_incr (Int status) st)
| tt_status_ok st status text :
    status < 400 →
    task_trans e (AtStatus status text) st (InLoop (find_all_href text) [])
      (stats_incr (Int status) st)
| tt_broken st status :
    task_trans e (AtBroken status) st (Finished (Returned []))
      (record_broken_status (entry_url e) status (entry_source e) st)
| tt_except st x :
    task_trans e (AtExcept x) st (Finished (Returned []))
      (record_exception (entry_url e) x (entry_source e) st)
| tt_loop_end st result_links :
    task_trans e (InLoop [] result_links) st
      (Finished (Returned result_links)) st
| tt_loop_skip st tag_href hrefs result_links :
    extract_one (entry_url e) base_url (entry_depth e) tag_href result_links st
    = Returned (result_links, st) →
    task_trans e (InLoop (tag_href :: hrefs) result_links) st
      (InLoop hrefs result_links) st
| tt_loop_new st tag_href hrefs result_links href :
    normalize_url (entry_url e) tag_href = Returned href →
    href ∉ discovered st →
    task_trans e (InLoop (tag_href :: hrefs) result_links) st
      (InLoop hrefs (result_links ++ [(href, entry_depth e + 1, entry_url e)]))
      (set_frontier_log (λ l, l ++ [(href, entry_depth e + 1, entry_url e)])
         (set_discovered (λ d, {[href]} ∪ d) st))
| tt_loop_raise st tag_href hrefs result_links x :
    task_trans e (InLoop (tag_href :: hrefs) result_links) st
      (Finished (Raised x)) st
| tt_request_raise st x :
    requests_get (entry_url e) = OtherException x →
    task_trans e AtRequest st (Finished (Raised x))
      (set_requests_log (λ l, l ++ [entry_url e]) st).

Inductive sched_trans : config → config → Prop :=
| st_done st fs :
    sched_trans (mkConfig st [] fs OuterLoop) (mkConfig st [] fs Done)
| st_wave st e q fs :
    sched_trans (mkConfig st (e :: q) fs OuterLoop)
                (mkConfig st (e :: q) [] Submitting)
| st_submit st e q fs :
    sched_trans (mkConfig st (e :: q) fs Submitting)
                (mkConfig st q (fs ++ [mkFuture e Queued false]) Submitting)
| st_submitted st fs :
    sched_trans (mkConfig st [] fs Submitting) (mkConfig st [] fs Collecting)
| st_collected st q fs :
    Forall (λ f, fut_yielded f = true) fs →
    sched_trans (mkConfig st q fs Collecting) (mkConfig st q fs OuterLoop)
| st_failed st q fs x :
    Forall (λ f, is_finished (fut_pc f) = true) fs →
    sched_trans (mkConfig st q fs (ShuttingDown x)) (mkConfig st q fs (Failed x))
| st_start st q pre post e y ph :
    Z.of_nat (running (pre ++ mkFuture e Queued y :: post)) < max_workers →
    sched_trans (mkConfig st q (pre ++ mkFuture e Queued y :: post) ph)
                (mkConfig st q (pre ++ mkFuture e AtGate y :: post) ph)
| st_run st q pre post e p y ph p' st' :
    is_running p = true →
    task_trans e p st p' st' →
    sched_trans (mkConfig st q (pre ++ mkFuture e p y :: post) ph)
                (mkConfig st' q (pre ++ mkFuture e p' y :: post) ph)
| st_yield st q pre post e result :
    sched_trans
      (mkConfig st q
         (pre ++ mkFuture e (Finished (Returned result)) false :: post)
         Collecting)
      (mkConfig (build_table st) (q ++ result)
         (pre ++ mkFuture e (Finished (Returned result)) true :: post)
         Collecting)
| st_raise st q pre post e x :
    sched_trans
      (mkConfig st q
         (pre ++ mkFuture e (Finished (Raised x)) false :: post) Collecting)
      (mkConfig st q
         (pre ++ mkFuture e (Finished (Raised x)) true :: post)
         (ShuttingDown x)).

End transitions.

(** ** Quantities the invariants speak about *)

(** The sum of all histogram counts. *)
Definition stats_total (m : gmap value nat) : nat :=
  map_fold (λ _ count total, (count + total)%nat) 0%nat m.

Section views.
Context `{Ipaddress} `{Web}.

(** The URL a task is about to request: past the gate, not yet fetched. *)
Definition requesting (f : future) : list string :=
  match fut_pc f with
  | AtRequest => [entry_url (fut_entry f)]
  | _ => []
  end.

(** A task that has marked its URL visited and not yet counted it in the
    histogram. *)
Definition awaiting_count (f : future) : bool :=
  match fut_pc f with
  | AtRequest | AtStatus _ _ | AtExcept _ => true
  | _ => false
  end.

Definition in_flight (fs : list future) : nat :=
  length (List.filter awaiting_count fs).

(** The frontier entries a future still holds: its own until it has passed
    the gate, and the links it has collected until [as_completed] hands them
    to the scheduler. *)
Definition holds (f : future) : list entry :=
  match fut_pc f with
  | Queued | AtGate => [fut_entry f]
  | InLoop _ result_links => result_links
  | Finished (Returned result) => if fut_yielded f then [] else result
  | _ => []
  end.

(** A URL for which [requests.get] raises past the [except] clause, and
    how many requests made so far did. *)
Definition uncaught (url : string) : bool :=
  match requests_get url with OtherException _ => true | _ => false end.

Definition lost (st : state) : nat :=
  length (List.filter uncaught (requests_log st)).

(** The entries not yet through the gate. *)
Definition unprocessed (c : config) : list entry :=
  queue c ++ (futures c ≫= holds).

(** No task has raised. *)
Definition no_raise (c : config) : Prop :=
  Forall (λ f, ∀ x, fut_pc f ≠ Finished (Raised x)) (futures c).

(** The URLs of the entries dropped at the gate for their depth. *)
Definition beyond_max_depth (max_depth : Z) (st : state) : gset string :=
  list_to_set
    (entry_url <$> List.filter (λ e, max_depth <? entry_depth e) (frontier_log st)).

End views.

(** ** Invariants of the crawl *)

Section invariants.
Context `{Ipaddress} `{Web}.

Definition aborted (ph : phase) : bool :=
  match ph with ShuttingDown _ | Failed _ => true | _ => false end.

Definition has_failed (ph : phase) : bool :=
  match ph with Failed _ => true | _ => false end.

(** How the phase of the main thread and the futures fit together: a future
    is yielded only once finished; between waves, and at the end, all are
    yielded; unless an exception is on its way out, the yielded ones
    returned; and when [crawl_concurrent] has returned or raised, no task is
    left unfinished. *)
Definition phase_ok (c : config) : Prop :=
  Forall (λ f, fut_yielded f = true → is_finished (fut_pc f) = true) (futures c)
  ∧ (at_phase c = OuterLoop ∨ at_phase c = Done →
     Forall (λ f, fut_yielded f = true) (futures c))
  ∧ (aborted (at_phase c) = false →
     Forall (λ f, fut_yielded f = true → ∃ r, fut_pc f = Finished (Returned r))
            (futures c))
  ∧ (at_phase c = Done → queue c = [])
  ∧ (has_failed (at_phase c) = true →
     Forall (λ f, is_finished (fut_pc f) = true) (futures c)).

(** Every URL requested or about to be requested is in the visited set, and
    none is there twice. *)
Definition requests_ok (c : config) : Prop :=
  NoDup (requests_log (shared c) ++ (futures c ≫= requesting))
  ∧ ∀ url, url ∈ requests_log (shared c) ++ (futures c ≫= requesting) →
           url ∈ visited (shared c).

(** Each visited URL is counted once in the histogram, or its task is on its
    way to count it, or its request raised past the [except] clause; and a
    request has done so only if a task has raised. *)
Definition stats_ok (c : config) : Prop :=
  (stats_total (stats (shared c)) + in_flight (futures c)
   + lost (shared c))%nat
  = size (visited (shared c))
  ∧ (no_raise c → lost (shared c) = 0%nat).

(** The frontier accounts, given the entries [pending] that are not yet
    through the gate: every discovered URL has one entry in the log; a
    pending entry is not visited; one that went through the gate is visited
    exactly when its depth allowed it. *)
Definition accounts (max_depth : Z) (st : state) (pending : list entry) : Prop :=
  NoDup (entry_url <$> frontier_log st)
  ∧ discovered st = list_to_set (entry_url <$> frontier_log st)
  ∧ visited st ⊆ discovered st
  ∧ NoDup pending
  ∧ (∀ e, e ∈ pending → e ∈ frontier_log st ∧ entry_url e ∉ visited st)
  ∧ (∀ e, e ∈ frontier_log st → e ∉ pending →
          (entry_url e ∈ visited st ↔ entry_depth e ≤ max_depth)).

Definition frontier_ok (max_depth : Z) (c : config) : Prop :=
  accounts max_depth (shared c) (unprocessed c).

(** The entries a future has collected so far. *)
Definition collected (f : future) : list entry :=
  match fut_pc f with
  | InLoop _ result_links => result_links
  | Finished (Returned result) => result
  | _ => []
  end.

(** Depths: the root entry is the only one at depth 0. *)
Definition depths_ok (base_url : string) (c : config) : Prop :=
  (∃ found, frontier_log (shared c) = (base_url, 0, "root") :: found
            ∧ Forall (λ e, 1 ≤ entry_depth e) found)
  ∧ Forall (λ e, 0 ≤ entry_depth e) (queue c)
  ∧ Forall (λ f, 0 ≤ entry_depth (fut_entry f)
                 ∧ Forall (λ e, 1 ≤ entry_depth e) (collected f))
           (futures c).

End invariants.

(** ** Links the crawler follows *)

(** [not (href.startswith("mailto:") or href.startswith("tel:"))] *)
Definition crawlable (href : string) : bool :=
  negb (Str.startswith href "mailto:" || Str.startswith href "tel:").

(** [st'] differs from [st] at most in the discovered set and the frontier
    log: what link extraction is allowed to touch. *)
Definition only_discovers (st st' : state) : Prop :=
  visited st' = visited st ∧ broken st' = broken st ∧ stats st' = stats st
  ∧ realtime_export_file st' = realtime_export_file st
  ∧ requests_log st' = requests_log st.

(** ** More quantities and invariants of the crawl *)

(** The row [export_row_realtime] is called with for a broken-link tuple:
    the status, or the literal [ERROR]. *)
Definition realtime_row (record : string * value * string) : list value :=
  let '(url, err, source) := record in
  [match err with Int status => Int status | Str _ => Str "ERROR" end;
   Str url; Str source].

(** The target URL of a broken-link tuple. *)
Definition broken_url (record : string * value * string) : string :=
  record.1.1.

(** Broken-link tuples with a given status, and those of transport errors. *)
Definition count_status (status : Z) (broken : list (string * value * string))
  : nat :=
  length (List.filter (λ record, bool_decide (record.1.2 = Int status)) broken).

Definition count_errors (broken : list (string * value * string)) : nat :=
  length (List.filter (λ record, match record.1.2 with
                                 | Str _ => true
                                 | Int _ => false
                                 end) broken).

(** Nothing recorded in [st] is missing or moved in [st']. *)
Definition grows (st st' : state) : Prop :=
  visited st ⊆ visited st'
  ∧ discovered st ⊆ discovered st'
  ∧ broken st `prefix_of` broken st'
  ∧ requests_log st `prefix_of` requests_log st'
  ∧ frontier_log st `prefix_of` frontier_log st'
  ∧ (∀ key, (stats_get key (stats st) ≤ stats_get key (stats st'))%nat)
  ∧ match realtime_export_file st, realtime_export_file st' with
    | Some rows, Some rows' => rows `prefix_of` rows'
    | None, None => True
    | _, _ => False
    end.

Section more_invariants.
Context `{Ipaddress} `{Web}.

(** A task that is past the gate and has not returned. *)
Definition past_gate (p : pc) : bool :=
  match p with
  | AtRequest | AtStatus _ _ | AtBroken _ | InLoop _ _ | AtExcept _ => true
  | _ => false
  end.

(** The URL of a task that may still append a broken-link tuple. *)
Definition pending_report (f : future) : list string :=
  match fut_pc f with
  | AtRequest | AtStatus _ _ | AtBroken _ | AtExcept _ =>
      [entry_url (fut_entry f)]
  | _ => []
  end.

(** Tasks that have counted [status] and not yet appended their tuple. *)
Definition awaiting_record (status : Z) (fs : list future) : nat :=
  length (List.filter (λ f, match fut_pc f with
                            | AtBroken status' => bool_decide (status' = status)
                            | _ => false
                            end) fs).

(** Where the frontier entries come from: the log lists one entry per
    discovered URL; what the queue and the tasks hold is logged; a task past
    the gate has its URL visited and is within [max_depth]; every entry but
    the root was found on a visited page one level up; and every visited URL
    has an entry within [max_depth]. *)
Definition links_ok (base_url : string) (max_depth : Z) (c : config) : Prop :=
  let st := shared c in
  discovered st = list_to_set (entry_url <$> frontier_log st)
  ∧ NoDup (entry_url <$> frontier_log st)
  ∧ visited st ⊆ discovered st
  ∧ Forall (λ e, e ∈ frontier_log st) (queue c)
  ∧ Forall (λ f, fut_entry f ∈ frontier_log st
                 ∧ Forall (λ e, e ∈ frontier_log st) (collected f)
                 ∧ (past_gate (fut_pc f) = true →
                    entry_url (fut_entry f) ∈ visited st
                    ∧ entry_depth (fut_entry f) ≤ max_depth))
           (futures c)
  ∧ Forall (λ e, e = (base_url, 0, "root")
                 ∨ ∃ parent, parent ∈ frontier_log st
                     ∧ entry_source e = entry_url parent
                     ∧ entry_depth e = entry_depth parent + 1
                     ∧ entry_depth parent ≤ max_depth
                     ∧ entry_url parent ∈ visited st)
           (frontier_log st)
  ∧ ∀ url, url ∈ visited st →
           ∃ e, e ∈ frontier_log st ∧ entry_url e = url
                ∧ entry_depth e ≤ max_depth.

(** What is reported. No URL has two broken-link tuples, now or later, and
    each tuple is for a visited URL. *)
Definition report_urls_ok (c : config) : Prop :=
  let st := shared c in
  NoDup ((broken_url <$> broken st) ++ (futures c ≫= pending_report))
  ∧ ∀ url, url ∈ (broken_url <$> broken st) ++ (futures c ≫= pending_report) →
           url ∈ visited st.

(** Each tuple has the URL and the source of a frontier entry, and a status
    of 400 or more or an error text; a task about to append a status found
    one of 400 or more. *)
Definition report_tuples_ok (c : config) : Prop :=
  let st := shared c in
  Forall (λ record,
            (∃ depth, (record.1.1, depth, record.2) ∈ frontier_log st)
            ∧ match record.1.2 with
              | Int status => 400 ≤ status
              | Str _ => True
              end)
         (broken st)
  ∧ Forall (λ f, match fut_pc f with
                 | AtBroken status => 400 ≤ status
                 | _ => True
                 end) (futures c).

(** The histogram counts of the keys 400 and up are the tuples with that
    status plus the tasks about to append theirs; the count of [error] is
    the number of error tuples. *)
Definition report_counts_ok (c : config) : Prop :=
  let st := shared c in
  (∀ status, 400 ≤ status →
     stats_get (Int status) (stats st)
     = (count_status status (broken st)
        + awaiting_record status (futures c))%nat)
  ∧ stats_get (Str "error") (stats st) = count_errors (broken st).

(** The real-time file, when there is one, holds the header and one row per
    tuple, in order. *)
Definition realtime_ok (export_realtime : bool) (c : config) : Prop :=
  let st := shared c in
  realtime_export_file st
  = if export_realtime
    then Some (csv_header :: map realtime_row (broken st))
    else None.

Definition reports_ok (export_realtime : bool) (c : config) : Prop :=
  report_urls_ok c ∧ report_tuples_ok c ∧ report_counts_ok c
  ∧ realtime_ok export_realtime c.

(** The visited URLs are the requested ones and those about to be. *)
Definition requests_match (c : config) : Prop :=
  visited (shared c)
  = list_to_set (requests_log (shared c) ++ (futures c ≫= requesting)).

End more_invariants.

(** The rows of the real-time file that [export_errors_to_csv] writes too:
    all but those of a status other than 400, 404 and 500. *)
Definition in_final_export (row : list value) : bool :=
  match row with
  | Int code :: _ => bool_decide (code ∈ [400; 404; 500])
  | _ => true
  end.

(** * Properties *)

(** ** [fetch_and_extract], run without interruption *)

Section fetch_and_extract_facts.
Context `{Ipaddress} `{Web}.

Lemma visit_gate_closed url depth max_depth st :
  url ∈ visited st ∨ max_depth < depth →
  visit_gate url depth max_depth st = (false, st).
Proof.
  intros Hclosed. unfold visit_gate.
  destruct Hclosed as [Hin | Hdeep].
  - by rewrite bool_decide_eq_true_2.
  - assert ((depth >? max_depth) = true) as -> by lia.
    by rewrite orb_true_r.
Qed.

Lemma visit_gate_open url depth max_depth st :
  url ∉ visited st → depth ≤ max_depth →
  visit_gate url depth max_depth st
  = (true, set_visited (λ v, {[url]} ∪ v) st).
Proof.
  intros Hnew Hdepth. unfold visit_gate.
  rewrite bool_decide_eq_false_2 by done.
  by assert ((depth >? max_depth) = false) as -> by lia.
Qed.

(** C3: an entry deeper than [max_depth] is dropped at the gate: the call
    returns the empty list and the shared state, request log included, is
    the one it started from; so the URL is not marked visited, nothing is
    fetched, and histogram, broken list and discovered set are as before. *)
Theorem fetch_and_extract_beyond_max_depth
    url base_url depth max_depth source_url st :
  max_depth < depth →
  fetch_and_extract url base_url depth max_depth source_url st
  = (Returned [], st)
  ∧ task_step base_url max_depth (url, depth, source_url) AtGate st
    = (Finished (Returned []), st).
Proof.
  intros Hdeep. unfold fetch_and_extract, task_step.
  rewrite visit_gate_closed by (by right). done.
Qed.

(** C4: a fetched URL answered with a status of 400 or more: the call
    returns the empty list; the histogram entry of that status goes up by
    one, one record [(url, status, source_url)] is appended to the broken
    list, and the discovered set and the frontier are untouched: the body
    is not searched for links. *)
Theorem fetch_and_extract_error_status
    url base_url depth max_depth source_url st status text :
  url ∉ visited st → depth ≤ max_depth →
  requests_get url = Response status text → 400 ≤ status →
  ∃ st',
    fetch_and_extract url base_url depth max_depth source_url st
    = (Returned [], st')
    ∧ stats st'
      = <[Int status := S (stats_get (Int status) (stats st))]> (stats st)
    ∧ broken st' = (broken st ++ [(url, Int status, source_url)])
    ∧ discovered st' = discovered st
    ∧ frontier_log st' = frontier_log st
    ∧ requests_log st' = (requests_log st ++ [url])
    ∧ visited st' = {[url]} ∪ visited st.
Proof.
  intros Hnew Hdepth Hresp Hstatus. eexists.
  unfold fetch_and_extract. rewrite visit_gate_open by done. simpl.
  rewrite Hresp.
  assert ((status >=? 400) = true) as -> by lia.
  split; [reflexivity|].
  by destruct st as [? ? ? ? [rows|] ? ?].
Qed.


End fetch_and_extract_facts.

(** ** Final export *)

Lemma exported_statuses code :
  code ∈ [400; 404; 500] ↔ code = 400 ∨ code = 404 ∨ code = 500.
Proof. rewrite !elem_of_cons, elem_of_nil. tauto. Qed.

Lemma export_errors_to_csv_loop broken csvfile :
  foldl (λ csvfile '(url, err, source),
           match err with
           | Int code =>
               if bool_decide (code ∈ [400; 404; 500])
               then writerow [Int code; Str url; Str source] csvfile
               else csvfile
           | Str _ => writerow [Str "ERROR"; Str url; Str source] csvfile
           end) csvfile broken
  = (csvfile ++ map final_export_row (List.filter final_export_keeps broken)).
Proof.
  revert csvfile. induction broken as [|[[url err] source] broken IH];
    intros csvfile; simpl.
  - by rewrite app_nil_r.
  - rewrite IH. unfold final_export_keeps at 2. simpl.
    destruct err as [code|msg]; simpl.
    + rewrite (bool_decide_ext _ _ (exported_statuses code)).
      destruct (bool_decide _); simpl; [|done].
      unfold writerow. by rewrite <- app_assoc.
    + unfold writerow. by rewrite <- app_assoc.
Qed.

(** C6: the final export is the header row [Error,URL,Source] followed, in
    the order of the broken list, by the records with status 400, 404 or 500
    (written as the integer) and the transport errors (written as [ERROR]);
    records with any other status are left out. *)
Theorem export_errors_to_csv_spec broken :
  export_errors_to_csv broken = final_export_spec broken.
Proof.
  unfold export_errors_to_csv, final_export_spec.
  by rewrite export_errors_to_csv_loop.
Qed.

(** ** Facts about the [str] methods *)

Module Str_facts.
Import Str.

Lemma append_nil_l s : "" +:+ s = s.
Proof. reflexivity. Qed.

Lemma append_cons c s t : String c s +:+ t = String c (s +:+ t).
Proof. reflexivity. Qed.

Ltac simpl_app := rewrite ?append_cons, ?append_nil_l in *; simpl in *.

Lemma append_nil_r s : s +:+ "" = s.
Proof. induction s as [|c s IH]; simpl_app; [done|by rewrite IH]. Qed.

Lemma append_assoc a b c : (a +:+ b) +:+ c = a +:+ (b +:+ c).
Proof. induction a as [|x a IH]; simpl_app; [done|by rewrite IH]. Qed.

Lemma contains_app c a b :
  contains c (a +:+ b) = contains c a || contains c b.
Proof.
  induction a as [|x a IH]; simpl; [done|].
  rewrite IH. by rewrite orb_assoc.
Qed.

Lemma all_app p a b : all p (a +:+ b) = all p a && all p b.
Proof.
  induction a as [|x a IH]; simpl; [done|].
  rewrite IH. by rewrite andb_assoc.
Qed.

Lemma all_impl (p q : ascii → bool) s :
  (∀ c, p c = true → q c = true) → all p s = true → all q s = true.
Proof.
  intros Hpq. induction s as [|c s IH]; simpl; [done|].
  intros [Hc Hs]%andb_true_iff. rewrite (Hpq _ Hc). simpl. auto.
Qed.

Lemma all_not_contains p c s :
  p c = false → all p s = true → contains c s = false.
Proof.
  intros Hc. induction s as [|d s IH]; simpl; [done|].
  intros [Hd Hs]%andb_true_iff. rewrite (IH Hs), orb_false_r.
  destruct (Ascii.eqb_spec c d) as [->|]; [congruence|done].
Qed.

Lemma partition_Some c s a b :
  partition c s = Some (a, b) →
  s = a +:+ String c b ∧ contains c a = false.
Proof.
  revert a. induction s as [|d s IH]; intros a; simpl; [done|].
  destruct (Ascii.eqb_spec c d) as [->|Hne].
  - intros [= <- <-]. done.
  - destruct (partition c s) as [[a' b']|] eqn:Hp; [|done].
    intros [= <- <-]. destruct (IH a' eq_refl) as [-> Ha]. simpl.
    split; [done|]. rewrite Ha.
    by destruct (Ascii.eqb_spec c d).
Qed.

Lemma partition_None c s : partition c s = None → contains c s = false.
Proof.
  induction s as [|d s IH]; simpl; [done|].
  destruct (Ascii.eqb c d); [done|].
  destruct (partition c s) as [[a' b']|]; [done|]. auto.
Qed.

Lemma partition_app c a b :
  contains c a = false → partition c (a +:+ String c b) = Some (a, b).
Proof.
  induction a as [|d a IH]; simpl.
  - by rewrite Ascii.eqb_refl.
  - intros [Hd Ha]%orb_false_iff. rewrite Hd, (IH Ha). done.
Qed.

Lemma partition_absent c s : contains c s = false → partition c s = None.
Proof.
  induction s as [|d s IH]; simpl; [done|].
  intros [Hd Hs]%orb_false_iff. by rewrite Hd, (IH Hs).
Qed.

Lemma rpartition_Some c s a b :
  rpartition c s = Some (a, b) →
  s = a +:+ String c b ∧ contains c b = false.
Proof.
  revert a. induction s as [|d s IH]; intros a; simpl; [done|].
  destruct (rpartition c s) as [[a' b']|] eqn:Hp.
  - intros [= <- <-]. destruct (IH a' eq_refl) as [-> Hb]. done.
  - destruct (Ascii.eqb_spec c d) as [->|Hne]; [|done].
    intros [= <- <-]. split; [done|].
    clear IH. induction s as [|e s IH]; simpl in *; [done|].
    destruct (rpartition d s) as [[a' b']|]; [done|].
    destruct (Ascii.eqb d e); [done|]. auto.
Qed.

Lemma span_spec p s a b :
  span p s = (a, b) →
  s = a +:+ b ∧ all p a = true
  ∧ match b with EmptyString => True | String c _ => p c = false end.
Proof.
  revert a. induction s as [|c s IH]; intros a; simpl.
  - by intros [= <- <-].
  - destruct (p c) eqn:Hc.
    + destruct (span p s) as [a' b'] eqn:Hs. intros [= <- <-].
      destruct (IH a' eq_refl) as (-> & Ha & Hb). simpl. by rewrite Hc, Ha.
    + intros [= <- <-]. done.
Qed.

Lemma span_app p a b :
  all p a = true →
  match b with EmptyString => True | String c _ => p c = false end →
  span p (a +:+ b) = (a, b).
Proof.
  intros Ha Hb. induction a as [|c a IH]; simpl in *.
  - destruct b as [|c b]; simpl; [done|by rewrite Hb].
  - apply andb_true_iff in Ha as [Hc Ha]. by rewrite Hc, (IH Ha).
Qed.

Lemma lstrip_spec p s :
  ∃ t, s = t +:+ lstrip p s ∧ all p t = true.
Proof.
  induction s as [|c s IH]; simpl.
  - by exists "".
  - destruct (p c) eqn:Hc.
    + destruct IH as (t & Hs & Ht). exists (String c t).
      rewrite append_cons, <- Hs. simpl. by rewrite Hc, Ht.
    + by exists "".
Qed.

Lemma lstrip_head p s :
  match lstrip p s with EmptyString => True | String c _ => p c = false end.
Proof.
  induction s as [|c s IH]; simpl; [done|].
  destruct (p c) eqn:Hc; [done|]. by simpl.
Qed.

Lemma lstrip_id p s :
  match s with EmptyString => True | String c _ => p c = false end →
  lstrip p s = s.
Proof. destruct s as [|c s]; simpl; [done|]. by intros ->. Qed.

Lemma rstrip_spec p s :
  ∃ t, s = rstrip p s +:+ t ∧ all p t = true.
Proof.
  induction s as [|c s IH]; simpl.
  - by exists "".
  - destruct IH as (t & Hs & Ht).
    destruct (rstrip p s) as [|d r] eqn:Hr.
    + destruct (p c) eqn:Hc.
      * exists (String c t). rewrite append_nil_l in *. subst t. simpl.
        by rewrite Hc, Ht.
      * exists t. rewrite append_cons, <- Hs. done.
    + exists t. rewrite append_cons, <- Hs. done.
Qed.

Lemma last_char_cons c s :
  last_char (String c s)
  = match last_char s with Some d => Some d | None => Some c end.
Proof. reflexivity. Qed.

Lemma last_char_None s : last_char s = None → s = "".
Proof.
  destruct s as [|c s]; [done|].
  rewrite last_char_cons. by destruct (last_char s).
Qed.

Lemma last_char_app a c b :
  last_char (a +:+ String c b) = last_char (String c b).
Proof.
  induction a as [|d a IH]; [done|].
  rewrite append_cons, last_char_cons, IH, last_char_cons.
  by destruct (last_char b).
Qed.

Lemma rstrip_last p s c :
  last_char (rstrip p s) = Some c → p c = false.
Proof.
  revert c. induction s as [|d s IH]; intros c; [done|].
  cbn [rstrip]. destruct (rstrip p s) as [|e r] eqn:Hr.
  - destruct (p d) eqn:Hd; [done|]. cbn. by intros [= <-].
  - rewrite last_char_cons. destruct (last_char (String e r)) eqn:Hl.
    + intros [= <-]. auto.
    + by apply last_char_None in Hl.
Qed.

Lemma rstrip_id p s :
  (∀ c, last_char s = Some c → p c = false) → rstrip p s = s.
Proof.
  induction s as [|d s IH]; [done|].
  intros Hlast. cbn [rstrip]. rewrite IH.
  - destruct s as [|e s]; [|done]. by rewrite (Hlast d).
  - intros c Hc. apply Hlast. by rewrite last_char_cons, Hc.
Qed.

Lemma rstrip_head p s :
  match rstrip p s, s with
  | String c _, String d _ => c = d
  | String _ _, EmptyString => False
  | EmptyString, _ => True
  end.
Proof.
  destruct s as [|d s]; simpl; [done|].
  destruct (rstrip p s); [|done]. by destruct (p d).
Qed.

Lemma contains_lstrip c p s :
  contains c (lstrip p s) = true → contains c s = true.
Proof.
  destruct (lstrip_spec p s) as (t & Hs & _). intros Hc.
  rewrite Hs, contains_app, Hc. apply orb_true_r.
Qed.

Lemma contains_rstrip c p s :
  contains c (rstrip p s) = true → contains c s = true.
Proof.
  destruct (rstrip_spec p s) as (t & Hs & _). intros Hc.
  rewrite Hs, contains_app, Hc. done.
Qed.

Lemma contains_remove c p s :
  contains c (remove p s) = true → contains c s = true.
Proof.
  induction s as [|d s IH]; simpl; [done|].
  destruct (p d); simpl.
  - intros Hc. rewrite (IH Hc). apply orb_true_r.
  - intros [->|Hc]%orb_true_iff; [done|]. rewrite (IH Hc). apply orb_true_r.
Qed.

Lemma remove_app p a b : remove p (a +:+ b) = remove p a +:+ remove p b.
Proof.
  induction a as [|c a IH]; simpl; [done|].
  destruct (p c); simpl; by rewrite IH.
Qed.

Lemma remove_id p s : all (λ c, negb (p c)) s = true → remove p s = s.
Proof.
  induction s as [|c s IH]; simpl; [done|].
  intros [Hc Hs]%andb_true_iff. apply negb_true_iff in Hc.
  by rewrite Hc, (IH Hs).
Qed.

End Str_facts.

(** ** Facts about [urllib.parse] *)

Section urllib_facts.
Context `{Ipaddress}.
Import Str Str_facts Urllib.

Lemma lower_char_scheme c :
  is_scheme_char c = true → is_scheme_char (lower_char c) = true.
Proof. by destruct c as [[] [] [] [] [] [] [] []]. Qed.

Lemma lower_scheme s :
  all is_scheme_char s = true → all is_scheme_char (lower s) = true.
Proof.
  induction s as [|c s IH]; simpl; [done|].
  intros [Hc Hs]%andb_true_iff. by rewrite lower_char_scheme, IH.
Qed.

Lemma split_scheme_spec url dflt s u :
  split_scheme url dflt = (s, u) →
  (s = dflt ∧ u = url)
  ∨ (∃ pre, partition ":" url = Some (pre, u) ∧ s = lower pre
            ∧ all is_scheme_char pre = true ∧ nonempty pre = true).
Proof.
  unfold split_scheme.
  destruct (partition ":" url) as [[[|c0 pre] post]|];
    try (intros [= <- <-]; by left).
  destruct (isascii_alpha c0 && all is_scheme_char (String c0 pre)) eqn:Hc;
    intros [= <- <-]; [|by left].
  apply andb_true_iff in Hc as [_ Hc]. right. by eexists.
Qed.

Lemma split_netloc_spec url n u :
  split_netloc url = Returned (n, u) →
  (startswith url "//" = false ∧ n = "" ∧ u = url)
  ∨ (startswith url "//" = true ∧ span is_netloc_char (drop 2 url) = (n, u)).
Proof.
  unfold split_netloc, _splitnetloc.
  destruct (startswith url "//"); [|intros [= <- <-]; by left].
  destruct (span is_netloc_char (drop 2 url)) as [n' u'].
  destruct (_ || _); [done|].
  destruct (_ && _).
  - destruct (_check_bracketed_netloc n'); [|done].
    intros [= <- <-]. by right.
  - intros [= <- <-]. by right.
Qed.

Lemma split_once_spec c url a b :
  split_once c url = (a, b) →
  contains c a = false ∧ (url = a ∧ b = "" ∨ url = a +:+ String c b).
Proof.
  unfold split_once. destruct (partition c url) as [[u r]|] eqn:Hp.
  - intros [= <- <-]. apply partition_Some in Hp as [-> Hu]. auto.
  - intros [= <- <-]. apply partition_None in Hp. auto.
Qed.

Lemma split_once_contains d c url a b :
  split_once c url = (a, b) → contains d url = false →
  contains d a = false ∧ contains d b = false.
Proof.
  intros [_ [[-> ->]| ->]]%split_once_spec; [done|].
  rewrite contains_app. simpl.
  intros [? [? ?]%orb_false_iff]%orb_false_iff. done.
Qed.

(** What [urlsplit] guarantees about the pieces it returns. *)
Lemma urlsplit_pieces url dflt s n p q f :
  urlsplit url dflt = Returned (s, n, p, q, f) →
  (s = remove is_unsafe (strip is_c0_control_or_space dflt)
   ∨ all is_scheme_char s = true)
  ∧ all is_netloc_char n = true
  ∧ contains "#" p = false ∧ contains "?" p = false
  ∧ contains "#" q = false.
Proof.
  unfold urlsplit.
  destruct (split_scheme _ _) as [s1 u1] eqn:Hs.
  destruct (split_netloc u1) as [[n1 u2]|] eqn:Hn; [|done]. simpl.
  destruct (split_once "#" u2) as [u3 f1] eqn:Hf.
  destruct (split_once "?" u3) as [u4 q1] eqn:Hq.
  intros [= <- <- <- <- <-].
  split.
  { apply split_scheme_spec in Hs as [[-> _]|(pre & _ & -> & Hpre & _)];
      [by left|right; by apply lower_scheme]. }
  split.
  { apply split_netloc_spec in Hn as [(_ & -> & _)|[_ Hspan]]; [done|].
    by apply span_spec in Hspan as (_ & ? & _). }
  pose proof (split_once_spec _ _ _ _ Hf) as [Hu3 _].
  pose proof (split_once_spec _ _ _ _ Hq) as [Hu4 _].
  destruct (split_once_contains "#" _ _ _ _ Hq Hu3). done.
Qed.

Lemma _splitparams_contains d url p a :
  contains d url = false → _splitparams url = (p, a) →
  contains d p = false ∧ contains d a = false.
Proof.
  intros Hurl. unfold _splitparams.
  destruct (rpartition "/" url) as [[head tail]|] eqn:Hr.
  - apply rpartition_Some in Hr as [-> _].
    rewrite contains_app in Hurl. simpl in Hurl.
    apply orb_false_iff in Hurl as [Hhead [Hd Htail]%orb_false_iff].
    destruct (partition ";" tail) as [[t params]|] eqn:Hp.
    + apply partition_Some in Hp as [-> _]. intros [= <- <-].
      rewrite contains_app in Htail. simpl in Htail.
      apply orb_false_iff in Htail as [Ht [_ Hparams]%orb_false_iff].
      rewrite !contains_app. simpl. by rewrite Hhead, Hd, Ht.
    + intros [= <- <-]. rewrite contains_app. simpl.
      by rewrite Hhead, Hd, Htail.
  - destruct (partition ";" url) as [[u params]|] eqn:Hp.
    + apply partition_Some in Hp as [-> _]. intros [= <- <-].
      rewrite contains_app in Hurl. simpl in Hurl.
      by apply orb_false_iff in Hurl as [Hu [_ Hparams]%orb_false_iff].
    + by intros [= <- <-].
Qed.

Lemma scheme_char_not_contains d s :
  is_scheme_char d = false → all is_scheme_char s = true →
  contains d s = false.
Proof. apply all_not_contains. Qed.

Lemma urlparse_no_fragment_mark url r :
  urlparse url "" = Returned r →
  contains "#" (scheme r) = false ∧ contains "#" (netloc r) = false
  ∧ contains "#" (path r) = false ∧ contains "#" (params r) = false
  ∧ contains "#" (query r) = false.
Proof.
  unfold urlparse.
  destruct (urlsplit url "") as [[[[[s n] p] q] f]|] eqn:Hsplit; [|done].
  cbv beta iota delta [mbind outcome_bind]. apply urlsplit_pieces in Hsplit as (Hs & Hn & Hp & _ & Hq).
  assert (∃ p' a, (if in_list s uses_params && contains ";" p
                   then _splitparams p else (p, "")) = (p', a)
                  ∧ contains "#" p' = false ∧ contains "#" a = false)
    as (p' & a & -> & Hp' & Ha).
  { destruct (_ && _).
    - destruct (_splitparams p) as [p' a] eqn:Hsp.
      destruct (_splitparams_contains "#" _ _ _ Hp Hsp). eauto.
    - eauto. }
  intros [= <-]. simpl. repeat split; try done.
  - destruct Hs as [->|Hs]; [done|]. by apply (all_not_contains is_scheme_char).
  - by apply (all_not_contains is_netloc_char).
Qed.

Lemma urlunsplit_contains d s n u q :
  contains d "/:?" = false →
  contains d s = false → contains d n = false → contains d u = false →
  contains d q = false →
  contains d (urlunsplit s n u q "") = false.
Proof.
  simpl. intros [Hd1 [Hd2 [Hd3 _]%orb_false_iff]%orb_false_iff]%orb_false_iff.
  intros Hs Hn Hu Hq. unfold urlunsplit. simpl.
  repeat match goal with
         | |- context [if ?b then _ else _] => destruct b
         end;
    rewrite ?contains_app; simpl;
    rewrite ?contains_app; simpl;
    by rewrite ?Hd1, ?Hd2, ?Hd3, ?Hs, ?Hn, ?Hu, ?Hq.
Qed.

(** [urldefrag] leaves no ['#'] in the URL it returns. *)
Lemma urldefrag_no_fragment_mark url clean :
  urldefrag url = Returned clean → contains "#" clean = false.
Proof.
  unfold urldefrag. destruct (contains "#" url) eqn:Hurl;
    [|by intros [= <-]].
  destruct (urlparse url "") as [r|] eqn:Hr; [|done]. simpl.
  apply urlparse_no_fragment_mark in Hr as (Hs & Hn & Hp & Ha & Hq).
  intros [= <-]. unfold urlunparse. simpl.
  apply urlunsplit_contains; try done.
  destruct (nonempty (params r)); [|done].
  rewrite !contains_app. simpl. by rewrite Hp, Ha.
Qed.

(** *** Parsing an absolute URL *)

Lemma alpha_not_c0 c :
  isascii_alpha c = true → is_c0_control_or_space c = false.
Proof. by destruct c as [[] [] [] [] [] [] [] []]. Qed.

Lemma scheme_char_plain c :
  is_scheme_char c = true →
  is_unsafe c = false ∧ Ascii.eqb ":" c = false ∧ Ascii.eqb "#" c = false.
Proof. destruct c as [[] [] [] [] [] [] [] []]; vm_compute; by intros. Qed.

Lemma netloc_char_plain c :
  netloc_char_ok c = true →
  is_netloc_char c = true ∧ is_unsafe c = false
  ∧ Ascii.eqb "[" c = false ∧ Ascii.eqb "]" c = false
  ∧ Ascii.eqb "#" c = false.
Proof. destruct c as [[] [] [] [] [] [] [] []]; vm_compute; by intros. Qed.

Lemma not_netloc_char_safe c :
  is_netloc_char c = false → is_unsafe c = false.
Proof. by destruct c as [[] [] [] [] [] [] [] []]. Qed.

Lemma remove_rest_ok rest :
  rest_ok rest = true → rest_ok (remove is_unsafe rest) = true.
Proof.
  destruct rest as [|c rest]; [done|]. simpl.
  intros Hc%negb_true_iff. rewrite (not_netloc_char_safe _ Hc). simpl.
  by rewrite Hc.
Qed.

(** An absolute URL [s://n] followed by [rest] splits into the scheme
    [s] in lower case, the network location [n], and what [rest] holds. *)
Lemma urlsplit_absolute s n rest dflt :
  scheme_ok s = true → netloc_ok n = true → rest_ok rest = true →
  urlsplit (s +:+ "://" +:+ n +:+ rest) dflt
  = (let '(u, f) := split_once "#" (remove is_unsafe rest) in
     let '(p, q) := split_once "?" u in
     Returned (lower s, n, p, q, f)).
Proof.
  intros Hs Hn Hrest. unfold urlsplit.
  destruct s as [|c0 s']; [done|].
  apply andb_true_iff in Hs as [Hc0 Hs].
  set (s := String c0 s') in *.
  assert (lstrip is_c0_control_or_space (s +:+ "://" +:+ n +:+ rest)
          = s +:+ "://" +:+ n +:+ rest) as ->.
  { unfold s. rewrite append_cons. simpl. by rewrite (alpha_not_c0 _ Hc0). }
  rewrite !remove_app.
  rewrite (remove_id is_unsafe s)
    by (eapply all_impl; [|exact Hs]; intros c Hc;
        by destruct (scheme_char_plain c Hc) as [-> _]).
  rewrite (remove_id is_unsafe n)
    by (eapply all_impl; [|exact Hn]; intros c Hc;
        by destruct (netloc_char_plain c Hc) as (_ & -> & _)).
  change (remove is_unsafe "://") with ("://").
  set (rest' := remove is_unsafe rest).
  assert (split_scheme (s +:+ "://" +:+ n +:+ rest')
            (remove is_unsafe (strip is_c0_control_or_space dflt))
          = (lower s, "//" +:+ n +:+ rest')) as ->.
  { unfold split_scheme.
    change (s +:+ "://" +:+ n +:+ rest')
      with (s +:+ String ":" ("//" +:+ n +:+ rest')).
    rewrite partition_app.
    - unfold s at 1. fold s. by rewrite Hc0, Hs.
    - eapply all_not_contains; [|exact Hs]. done. }
  assert (split_netloc ("//" +:+ n +:+ rest') = Returned (n, rest')) as ->.
  { unfold split_netloc, _splitnetloc.
    change (startswith ("//" +:+ n +:+ rest') "//") with true.
    change (drop 2 ("//" +:+ n +:+ rest')) with (n +:+ rest').
    cbv iota. rewrite span_app.
    - rewrite (all_not_contains netloc_char_ok "[" n) by done.
      rewrite (all_not_contains netloc_char_ok "]" n) by done. done.
    - eapply all_impl; [|exact Hn]. intros c Hc.
      by destruct (netloc_char_plain c Hc) as (-> & _).
    - apply remove_rest_ok in Hrest. fold rest' in Hrest.
      destruct rest' as [|c r]; [done|]. by apply negb_true_iff in Hrest. }
  done.
Qed.

Lemma urlparse_absolute s n rest dflt :
  scheme_ok s = true → netloc_ok n = true → rest_ok rest = true →
  ∃ r, urlparse (s +:+ "://" +:+ n +:+ rest) dflt = Returned r
       ∧ scheme r = lower s ∧ netloc r = n.
Proof.
  intros Hs Hn Hrest. unfold urlparse.
  rewrite urlsplit_absolute by done.
  destruct (split_once "#" _) as [u f]. destruct (split_once "?" u) as [p q].
  cbv beta iota delta [mbind outcome_bind].
  destruct (if _ && _ then _ else _) as [p' a]. by eexists.
Qed.

Lemma uses_relative_netloc s :
  in_list s uses_relative = true → in_list s uses_netloc = true.
Proof.
  unfold in_list, uses_relative. simpl. intros Hin.
  repeat (apply orb_true_iff in Hin as [Hin|Hin];
          [apply String.eqb_eq in Hin; by subst|]).
  done.
Qed.

Section canonical.
Variables s n p q : string.
Hypothesis Hcanonical : canonical s n p q = true.

Let Hparts :
  scheme_ok s = true ∧ lower s = s ∧ nonempty n = true
  ∧ netloc_ok n = true ∧ path_ok p = true ∧ query_ok q = true.
Proof.
  unfold canonical in Hcanonical.
  repeat (apply andb_true_iff in Hcanonical as [Hcanonical ?]).
  by rewrite String.eqb_eq in *.
Qed.

Lemma canonical_rest_ok :
  rest_ok (p +:+ (if nonempty q then "?" +:+ q else "")) = true.
Proof.
  destruct Hparts as (_ & _ & _ & _ & [Hp _]%andb_true_iff & _).
  destruct p as [|c p'].
  - rewrite append_nil_l. by destruct q.
  - rewrite append_cons. cbn [rest_ok].
    cbn [nonempty negb orb startswith] in Hp.
    apply andb_true_iff in Hp as [Hc%Ascii.eqb_eq _]. by subst.
Qed.

Lemma canonical_urlparse dflt :
  urlparse (build_url s n p q) dflt
  = Returned (mkParseResult s n p "" q "").
Proof.
  destruct Hparts as (Hs & Hlow & Hne & Hn & [Hp0 Hp]%andb_true_iff & Hq).
  unfold urlparse, build_url.
  rewrite urlsplit_absolute by auto using canonical_rest_ok.
  assert (Hpsafe : all (λ c, negb (is_unsafe c)) p = true).
  { eapply all_impl; [|exact Hp]. by intros c [? _]%andb_true_iff. }
  assert (Hqsafe : all (λ c, negb (is_unsafe c)) q = true).
  { eapply all_impl; [|exact Hq]. by intros c [? _]%andb_true_iff. }
  assert (Hp_hash : contains "#" p = false).
  { eapply (all_not_contains path_char_ok); [done|exact Hp]. }
  assert (Hp_query : contains "?" p = false).
  { eapply (all_not_contains path_char_ok); [done|exact Hp]. }
  assert (Hp_params : contains ";" p = false).
  { eapply (all_not_contains path_char_ok); [done|exact Hp]. }
  assert (Hq_hash : contains "#" q = false).
  { eapply (all_not_contains query_char_ok); [done|exact Hq]. }
  rewrite Hlow.
  assert (remove is_unsafe (p +:+ (if nonempty q then "?" +:+ q else ""))
          = p +:+ (if nonempty q then "?" +:+ q else "")) as ->.
  { rewrite remove_app, (remove_id _ p) by done. f_equal.
    destruct (nonempty q); [|done].
    rewrite remove_app, (remove_id _ q) by done. done. }
  assert (split_once "#" (p +:+ (if nonempty q then "?" +:+ q else ""))
          = (p +:+ (if nonempty q then "?" +:+ q else ""), "")) as ->.
  { unfold split_once. rewrite partition_absent; [done|].
    rewrite contains_app, Hp_hash. destruct (nonempty q); [|done].
    rewrite contains_app, Hq_hash. done. }
  assert (split_once "?" (p +:+ (if nonempty q then "?" +:+ q else ""))
          = (p, q)) as ->.
  { unfold split_once. destruct q as [|c q']; simpl.
    - rewrite append_nil_r, partition_absent; done.
    - change ("?" +:+ String c q') with (String "?" (String c q')).
      by rewrite partition_app. }
  cbv beta iota delta [mbind outcome_bind].
  by rewrite Hp_params, andb_false_r.
Qed.

Lemma canonical_urlunparse :
  urlunparse (mkParseResult s n p "" q "") = build_url s n p q.
Proof.
  destruct Hparts as (Hs & Hlow & Hne & Hn & [Hp0 Hp]%andb_true_iff & Hq).
  unfold urlunparse, urlunsplit, build_url.
  cbn [scheme netloc path params query fragment].
  change (nonempty "") with false. cbv iota.
  rewrite Hne. cbn [orb].
  assert (nonempty p && negb (startswith p "/") = false) as ->.
  { destruct (nonempty p); cbn [negb orb andb] in *; [by rewrite Hp0|done]. }
  assert (nonempty s = true) as -> by (by destruct s).
  destruct (nonempty q).
  - by rewrite !append_assoc.
  - by rewrite append_nil_r.
Qed.

Lemma canonical_nonempty : nonempty (build_url s n p q) = true.
Proof.
  destruct Hparts as (Hs & _). unfold build_url. by destruct s.
Qed.

Lemma canonical_head :
  match build_url s n p q with
  | String c _ => isascii_alpha c = true
  | EmptyString => False
  end.
Proof.
  destruct Hparts as (Hs & _). unfold build_url.
  destruct s as [|c0 s']; [done|]. rewrite append_cons.
  by apply andb_true_iff in Hs as [? _].
Qed.

Lemma canonical_no_fragment_mark : contains "#" (build_url s n p q) = false.
Proof.
  destruct Hparts as (Hs & Hlow & Hne & Hn & [Hp0 Hp]%andb_true_iff & Hq).
  unfold build_url. rewrite !contains_app.
  assert (all is_scheme_char s = true) as Hs'.
  { destruct s; [done|]. by apply andb_true_iff in Hs as [_ ?]. }
  rewrite (all_not_contains is_scheme_char "#" s) by done.
  rewrite (all_not_contains netloc_char_ok "#" n) by done.
  rewrite (all_not_contains path_char_ok "#" p) by done.
  destruct (nonempty q); [|done].
  rewrite contains_app.
  by rewrite (all_not_contains query_char_ok "#" q).
Qed.

(** Resolving a canonical absolute URL gives it back, whatever the
    base. *)
Lemma canonical_urljoin base b :
  urlparse base "" = Returned b →
  urljoin base (build_url s n p q) = Returned (build_url s n p q).
Proof.
  intros Hb. unfold urljoin.
  destruct (nonempty base); [|done]. cbn [negb].
  rewrite canonical_nonempty. cbn [negb].
  rewrite Hb. cbv beta iota delta [mbind outcome_bind].
  rewrite canonical_urlparse. cbv beta iota.
  cbn [scheme netloc path params query fragment].
  destruct (negb (String.eqb s (scheme b)) || negb (in_list s uses_relative))
    eqn:Hrel; [done|].
  apply orb_false_iff in Hrel as [_ Hrel%negb_false_iff].
  rewrite (uses_relative_netloc _ Hrel).
  destruct Hparts as (_ & _ & -> & _). cbn [andb].
  by rewrite canonical_urlunparse.
Qed.

Lemma canonical_urldefrag :
  urldefrag (build_url s n p q) = Returned (build_url s n p q).
Proof. unfold urldefrag. by rewrite canonical_no_fragment_mark. Qed.

End canonical.

End urllib_facts.

(** ** Normalizer and scope filter *)

Section normalizer_facts.
Context `{Ipaddress}.
Import Str Str_facts Urllib.

Lemma rstrip_all p t : all p t = true → rstrip p t = "".
Proof.
  induction t as [|c t IH]; [done|]. cbn [all rstrip].
  intros [Hc Ht]%andb_true_iff. by rewrite (IH Ht), Hc.
Qed.

Lemma rstrip_app p r t :
  all p t = true → (∀ c, last_char r = Some c → p c = false) →
  rstrip p (r +:+ t) = r.
Proof.
  intros Ht. induction r as [|d r IH]; intros Hlast.
  - by apply rstrip_all.
  - rewrite append_cons. cbn [rstrip]. rewrite IH.
    + destruct r as [|e r]; [|done]. by rewrite (Hlast d).
    + intros c Hc. apply Hlast. by rewrite last_char_cons, Hc.
Qed.

Lemma isspace_not_alpha c : isascii_alpha c = true → isspace c = false.
Proof. by destruct c as [[] [] [] [] [] [] [] []]. Qed.

Lemma normalize_url_inv base link r :
  normalize_url base link = Returned r →
  ∃ joined clean,
    urljoin base link = Returned joined ∧ urldefrag joined = Returned clean
    ∧ r = rstrip (Ascii.eqb "/") (strip isspace clean).
Proof.
  unfold normalize_url.
  destruct (urljoin base link) as [joined|]; [|done].
  cbv beta iota delta [mbind outcome_bind].
  destruct (urldefrag joined) as [clean|] eqn:Hclean; [|done].
  intros [= <-]. by exists joined, clean.
Qed.

(** C8, as the code has it: the link is resolved with [urljoin], the
    fragment dropped with [urldefrag], whitespace stripped from both ends,
    and then every trailing slash is stripped, not one: the result [r] is
    the stripped text without its longest tail of slashes. It holds no
    ['#'], starts with no whitespace and ends in no slash. *)
Theorem normalize_url_steps base link r :
  (normalize_url base link = Returned r ↔
   ∃ joined clean slashes,
     urljoin base link = Returned joined
     ∧ urldefrag joined = Returned clean
     ∧ strip isspace clean = r +:+ slashes
     ∧ all (Ascii.eqb "/") slashes = true
     ∧ last_char r ≠ Some "/"%char)
  ∧ (normalize_url base link = Returned r →
     contains "#" r = false
     ∧ match r with String c _ => isspace c = false | EmptyString => True end).
Proof.
  split; [split|].
  - intros (joined & clean & Hjoin & Hclean & ->)%normalize_url_inv.
    destruct (rstrip_spec (Ascii.eqb "/") (strip isspace clean))
      as (slashes & Hstrip & Hslashes).
    exists joined, clean, slashes. repeat split; try done.
    intros Hlast%rstrip_last. by rewrite Ascii.eqb_refl in Hlast.
  - intros (joined & clean & slashes & Hjoin & Hclean & Hstrip & Hall & Hlast).
    unfold normalize_url. rewrite Hjoin.
    cbv beta iota delta [mbind outcome_bind]. rewrite Hclean, Hstrip.
    rewrite rstrip_app; [done|done|].
    intros c Hc. destruct (Ascii.eqb_spec "/" c) as [<-|]; done.
  - intros (joined & clean & Hjoin & Hclean & ->)%normalize_url_inv.
    split.
    + apply urldefrag_no_fragment_mark in Hclean.
      destruct (contains "#" (rstrip _ _)) eqn:Hc; [|done].
      apply contains_rstrip in Hc. unfold strip in Hc.
      apply contains_rstrip, contains_lstrip in Hc. congruence.
    + pose proof (rstrip_head (Ascii.eqb "/") (strip isspace clean)) as Hhd.
      destruct (rstrip _ (strip isspace clean)) as [|c r]; [done|].
      unfold strip in *.
      pose proof (rstrip_head isspace (lstrip isspace clean)) as Hhd'.
      destruct (rstrip isspace _) as [|c' r']; [done|]. subst c'.
      pose proof (lstrip_head isspace clean) as Hhd''.
      destruct (lstrip isspace clean) as [|c'' r'']; [done|]. by subst.
Qed.

(** C7, as far as it holds: normalising twice is normalising once when
    the first result is an absolute URL in canonical form that does not
    end in whitespace (and the base can be parsed). *)
Theorem normalize_url_idempotent_canonical base link s n p q b :
  normalize_url base link = Returned (build_url s n p q) →
  canonical s n p q = true →
  ends_in_space (build_url s n p q) = false →
  urlparse base "" = Returned b →
  normalize_url base (build_url s n p q) = Returned (build_url s n p q).
Proof.
  intros Hfirst Hcanonical Hend Hbase.
  assert (Hslash : last_char (build_url s n p q) ≠ Some "/"%char).
  { apply normalize_url_inv in Hfirst as (joined & clean & _ & _ & ->).
    intros Hlast%rstrip_last. by rewrite Ascii.eqb_refl in Hlast. }
  unfold normalize_url.
  rewrite (canonical_urljoin _ _ _ _ Hcanonical _ _ Hbase).
  cbv beta iota delta [mbind outcome_bind].
  rewrite (canonical_urldefrag _ _ _ _ Hcanonical).
  assert (strip isspace (build_url s n p q) = build_url s n p q) as ->.
  { unfold strip. rewrite lstrip_id.
    - apply rstrip_id. intros c Hc. unfold ends_in_space in Hend.
      by rewrite Hc in Hend.
    - pose proof (canonical_head _ _ _ _ Hcanonical) as Hhead.
      destruct (build_url s n p q) as [|c0 u]; [done|].
      by apply isspace_not_alpha. }
  rewrite rstrip_id; [done|].
  intros c Hc. destruct (Ascii.eqb_spec "/" c) as [Heq|]; [by subst c|done].
Qed.

(** C9, as the code has it: for two absolute URLs the answer is [true]
    exactly when their network locations are the same string: the scheme
    plays no part, the port does. *)
Theorem is_internal_compares_netloc s1 n1 rest1 s2 n2 rest2 :
  scheme_ok s1 = true → netloc_ok n1 = true → rest_ok rest1 = true →
  scheme_ok s2 = true → netloc_ok n2 = true → rest_ok rest2 = true →
  is_internal (s1 +:+ "://" +:+ n1 +:+ rest1) (s2 +:+ "://" +:+ n2 +:+ rest2)
  = Returned (bool_decide (n1 = n2)).
Proof.
  intros Hs1 Hn1 Hr1 Hs2 Hn2 Hr2. unfold is_internal.
  destruct (urlparse_absolute s2 n2 rest2 "" Hs2 Hn2 Hr2) as (u & -> & _ & Hu).
  destruct (urlparse_absolute s1 n1 rest1 "" Hs1 Hn1 Hr1) as (b & -> & _ & Hb).
  cbv beta iota delta [mbind outcome_bind]. rewrite Hu, Hb. f_equal.
  destruct (String.eqb_spec n2 n1) as [->|Hne].
  - by rewrite bool_decide_eq_true_2.
  - by rewrite bool_decide_eq_false_2.
Qed.

End normalizer_facts.

(** ** Every step is one of the listed transitions *)

Section step_cases.
Context `{Ipaddress} `{Web}.
Variables (base_url : string) (max_depth max_workers : Z).

Lemma extract_one_cases url depth tag_href result_links st result_links' st' :
  extract_one url base_url depth tag_href result_links st
  = Returned (result_links', st') →
  (result_links' = result_links ∧ st' = st)
  ∨ (∃ href,
       normalize_url url tag_href = Returned href
       ∧ (href ∉ discovered st)
       ∧ result_links' = result_links ++ [(href, depth + 1, url)]
       ∧ st' = set_frontier_log (λ l, l ++ [(href, depth + 1, url)])
                 (set_discovered (λ d, {[href]} ∪ d) st)).
Proof.
  unfold extract_one.
  destruct (normalize_url url tag_href) as [href|]; [|done].
  cbv beta iota delta [mbind outcome_bind].
  destruct (_ || _); [intros [= <- <-]; by left|].
  destruct (is_internal base_url href) as [[]|]; [| |done].
  - case_bool_decide as Hin; intros [= <- <-]; [by left|].
    right. by exists href.
  - intros [= <- <-]. by left.
Qed.

Lemma task_step_trans e p st p' st' :
  is_running p = true →
  task_step base_url max_depth e p st = (p', st') →
  task_trans base_url max_depth e p st p' st'.
Proof.
  destruct e as [[url depth] source_url].
  destruct p as [| | |status text|status|[|tag_href hrefs] result_links|x|r];
    try done; intros _; cbn [task_step].
  - unfold visit_gate. case_bool_decide as Hin; cbn [orb].
    + intros [= <- <-]. constructor. by left.
    + destruct (depth >? max_depth) eqn:Hdepth; intros [= <- <-].
      * constructor. right. cbn. lia.
      * constructor; cbn; [done|lia].
  - unfold http_request.
    destruct (requests_get url) eqn:Hresp; intros [= <- <-]; by constructor.
  - destruct (status >=? 400) eqn:Hstatus; intros [= <- <-]; constructor; lia.
  - intros [= <- <-]. constructor.
  - intros [= <- <-]. constructor.
  - destruct (extract_one _ _ _ _ _ _) as [[result_links' st1]|x] eqn:Hone.
    + intros [= <- <-].
      apply extract_one_cases in Hone as Hcases.
      destruct Hcases as [[-> ->]|(href & Hnorm & Hnew & -> & ->)].
      * by constructor.
      * by apply tt_loop_new.
    + intros [= <- <-]. constructor.
  - intros [= <- <-]. constructor.
Qed.

Lemma lookup_split (fs : list future) i f :
  fs !! i = Some f →
  ∃ pre post, fs = pre ++ f :: post
              ∧ ∀ f', <[i := f']> fs = pre ++ f' :: post.
Proof.
  intros Hi. exists (take i fs), (drop (S i) fs). split.
  - by rewrite take_drop_middle.
  - intros f'. apply insert_take_drop. by eapply lookup_lt_Some.
Qed.

Lemma step_sched_trans c c' :
  step base_url max_depth max_workers c c' →
  sched_trans base_url max_depth max_workers c c'.
Proof.
  intros [a Hperform]. destruct c as [st q fs ph].
  destruct a as [|i|i|i]; cbn [perform] in Hperform.
  - unfold main_thread in Hperform.
    cbn [futures shared queue at_phase] in Hperform.
    destruct ph as [| | |x| |x]; try done.
    + destruct q; injection Hperform as <-; constructor.
    + destruct q; injection Hperform as <-; constructor.
    + destruct (forallb fut_yielded fs) eqn:Hall; [|done].
      injection Hperform as <-. constructor.
      apply Forall_forall. intros f Hf.
      rewrite forallb_forall in Hall. apply Hall. by apply list_elem_of_In.
    + destruct (forallb _ fs) eqn:Hall; [|done].
      injection Hperform as <-. constructor.
      apply Forall_forall. intros f Hf.
      rewrite forallb_forall in Hall. apply Hall. by apply list_elem_of_In.
  - unfold start_task in Hperform.
    cbn [futures shared queue at_phase] in Hperform.
    destruct (fs !! i) as [[e [] y]|] eqn:Hi; try done.
    destruct (_ <? _) eqn:Hrun; [|done]. injection Hperform as <-.
    apply lookup_split in Hi as (pre & post & -> & ->).
    constructor. lia.
  - unfold run_block in Hperform.
    cbn [futures shared queue at_phase] in Hperform.
    destruct (fs !! i) as [[e p y]|] eqn:Hi; [|done].
    destruct (is_running p) eqn:Hp; [|done].
    destruct (task_step base_url max_depth e p st) as [p' st'] eqn:Hstep.
    injection Hperform as <-.
    apply lookup_split in Hi as (pre & post & -> & ->).
    constructor; [done|]. by apply task_step_trans.
  - unfold yield_future in Hperform.
    cbn [futures shared queue at_phase] in Hperform.
    destruct ph; try done.
    destruct (fs !! i) as [[e [| | | | | | |[result|x]] []]|] eqn:Hi; try done;
      injection Hperform as <-;
      apply lookup_split in Hi as (pre & post & -> & ->); constructor.
Qed.

End step_cases.

(** ** The invariants hold in every reachable configuration *)

Section invariant_proofs.
Context `{Ipaddress} `{Web}.
Variables (base_url : string) (max_depth max_workers : Z).

Local Abbreviation trans := (sched_trans base_url max_depth max_workers).

Lemma reachable_ind (P : config → Prop) export_realtime :
  P (crawl_start base_url max_workers (initial_state export_realtime)) →
  (∀ c c', P c → trans c c' → P c') →
  ∀ c, reachable base_url max_depth max_workers export_realtime c → P c.
Proof.
  intros Hinit Hstep. unfold reachable.
  apply rtc_ind_r; [done|]. intros c c' Hrtc Hlast IH.
  eapply Hstep; [exact IH|]. by apply step_sched_trans.
Qed.

(** *** Phases *)

Lemma phase_ok_start st :
  phase_ok (crawl_start base_url max_workers st).
Proof.
  unfold phase_ok, crawl_start. cbn [futures at_phase queue].
  split_and!; try by constructor.
  by destruct (max_workers <=? 0).
Qed.

Ltac phase_solve :=
  repeat match goal with
         | |- _ ∧ _ => split
         | |- _ → _ => intros ?
         | |- Forall _ (_ :: _) => apply Forall_cons
         | |- Forall _ (_ ++ _) => apply Forall_app
         | |- Forall _ [] => apply Forall_nil
         | H : _ ∧ _ |- _ => destruct H
         | H : _ ∨ _ |- _ => destruct H
         | H : _ = _ |- _ => discriminate H
         | H : ?a = ?a → _ |- _ => specialize (H eq_refl)
         | H : ?a = ?a ∨ _ → _ |- _ => specialize (H (or_introl eq_refl))
         | H : _ ∨ ?a = ?a → _ |- _ => specialize (H (or_intror eq_refl))
         | H : ?P → _, H' : ?P |- _ => specialize (H H')
         | H : ?P ∨ _ → _, H' : ?P |- _ => specialize (H (or_introl H'))
         | H : _ ∨ ?P → _, H' : ?P |- _ => specialize (H (or_intror H'))
         | H : Forall _ (_ ++ _) |- _ => apply Forall_app in H
         | H : Forall _ (_ :: _) |- _ => apply Forall_cons in H
         end;
  cbn [fut_yielded fut_pc is_finished] in *;
  try done; try (by eexists).

Lemma phase_ok_step c c' : phase_ok c → trans c c' → phase_ok c'.
Proof.
  intros (Hfin & Hall & Hret & Hq & Hfailed) Htrans.
  destruct Htrans as [| | | | | | |st q pre post e p y ph p' st' Hp _| |];
    unfold phase_ok in *;
    cbn [futures at_phase queue aborted has_failed] in *.
  - phase_solve.
  - phase_solve.
  - phase_solve.
  - phase_solve.
  - phase_solve.
  - phase_solve.
  - destruct y; phase_solve.
  - destruct y; destruct p; try discriminate Hp; phase_solve.
  - phase_solve.
  - phase_solve.
Qed.

(** *** Requests *)

Lemma requests_ok_start export_realtime :
  requests_ok (crawl_start base_url max_workers (initial_state export_realtime)).
Proof.
  unfold requests_ok, crawl_start. cbn. split; [constructor|].
  intros url Hurl. by apply elem_of_nil in Hurl.
Qed.

Lemma requests_ok_step c c' : requests_ok c → trans c c' → requests_ok c'.
Proof.
  intros [Hnodup Hvisited] Htrans.
  destruct Htrans as [| | | | | | |st q pre post e p y ph p' st' Hp Htask| |];
    unfold requests_ok in *; cbn [shared futures] in *;
    rewrite ?bind_app, ?bind_cons in *;
    cbn [requesting fut_pc mbind list_bind] in *;
    rewrite ?app_nil_r in *;
    try done.
  - apply NoDup_app in Hnodup as (? & _ & _).
    split; [done|]. intros url Hurl. apply Hvisited.
    apply elem_of_app. by left.
  - destruct Htask;
      cbn [requesting fut_pc fut_entry requests_log visited set_visited
           set_requests_log stats_incr set_stats record_broken_status
           record_exception export_row_realtime set_realtime_export_file
           set_broken set_frontier_log set_discovered] in *;
      rewrite ?app_nil_l in *; try done.
    + assert (requests_log st ++ (pre ≫= requesting) ++ [entry_url e]
                ++ post ≫= requesting
              ≡ₚ entry_url e :: requests_log st ++ (pre ≫= requesting)
                   ++ post ≫= requesting) as Hperm.
      { by rewrite !Permutation_middle. }
      split.
      * rewrite Hperm. apply NoDup_cons. split; [|done].
        intros Hin. by apply Hvisited in Hin.
      * intros url Hin. rewrite Hperm in Hin.
        apply elem_of_cons in Hin as [->|Hin]; [set_solver|].
        apply elem_of_union. right. by apply Hvisited.
    + assert ((requests_log st ++ [entry_url e]) ++ (pre ≫= requesting)
                ++ post ≫= requesting
              ≡ₚ requests_log st ++ (pre ≫= requesting) ++ [entry_url e]
                   ++ post ≫= requesting) as Hperm.
      { rewrite <- !app_assoc. f_equiv. cbn. by rewrite Permutation_middle. }
      split; [by rewrite Hperm|].
      intros url Hin. rewrite Hperm in Hin. by apply Hvisited.
    + assert ((requests_log st ++ [entry_url e]) ++ (pre ≫= requesting)
                ++ post ≫= requesting
              ≡ₚ requests_log st ++ (pre ≫= requesting) ++ [entry_url e]
                   ++ post ≫= requesting) as Hperm.
      { rewrite <- !app_assoc. f_equiv. cbn. by rewrite Permutation_middle. }
      split; [by rewrite Hperm|].
      intros url Hin. rewrite Hperm in Hin. by apply Hvisited.
    + assert ((requests_log st ++ [entry_url e]) ++ (pre ≫= requesting)
                ++ post ≫= requesting
              ≡ₚ requests_log st ++ (pre ≫= requesting) ++ [entry_url e]
                   ++ post ≫= requesting) as Hperm.
      { rewrite <- !app_assoc. f_equiv. cbn. by rewrite Permutation_middle. }
      split; [by rewrite Hperm|].
      intros url Hin. rewrite Hperm in Hin. by apply Hvisited.
Qed.

(** *** Histogram *)

Lemma stats_total_insert_new key count (m : gmap value nat) :
  m !! key = None →
  stats_total (<[key := count]> m) = (count + stats_total m)%nat.
Proof.
  intros Hnew. unfold stats_total.
  rewrite map_fold_insert_L; [done| |done]. intros. clear. lia.
Qed.

Lemma stats_total_delete key count (m : gmap value nat) :
  m !! key = Some count →
  stats_total m = (count + stats_total (delete key m))%nat.
Proof.
  intros Hkey. unfold stats_total.
  rewrite (map_fold_delete_L _ _ key count m); [done| |done].
  intros. clear. lia.
Qed.

Lemma stats_total_incr key (m : gmap value nat) :
  stats_total (<[key := S (stats_get key m)]> m) = S (stats_total m).
Proof.
  unfold stats_get. destruct (m !! key) as [count|] eqn:Hkey; cbn [default id].
  - rewrite <- insert_delete_eq.
    rewrite stats_total_insert_new by apply lookup_delete_eq.
    rewrite (stats_total_delete key count m) by done. lia.
  - by rewrite stats_total_insert_new.
Qed.

Lemma stats_total_touch key (m : gmap value nat) :
  stats_total (stats_touch key m) = stats_total m.
Proof.
  unfold stats_touch. destruct (m !! key) eqn:Hkey; [done|].
  by rewrite stats_total_insert_new.
Qed.

Lemma stats_total_build_table st :
  stats_total (stats (build_table st)) = stats_total (stats st).
Proof. cbn. by rewrite !stats_total_touch. Qed.

Lemma in_flight_app fs1 fs2 :
  in_flight (fs1 ++ fs2) = (in_flight fs1 + in_flight fs2)%nat.
Proof. unfold in_flight. by rewrite List.filter_app, length_app. Qed.

Lemma in_flight_cons f fs :
  in_flight (f :: fs)
  = ((if awaiting_count f then 1 else 0) + in_flight fs)%nat.
Proof. unfold in_flight. cbn. by destruct (awaiting_count f). Qed.

Lemma in_flight_finished fs :
  Forall (λ f, is_finished (fut_pc f) = true) fs → in_flight fs = 0%nat.
Proof.
  induction 1 as [|[e p y] fs Hf _ IH]; [done|].
  rewrite in_flight_cons, IH. by destruct p.
Qed.

Lemma between_waves_finished c :
  phase_ok c → at_phase c = OuterLoop →
  Forall (λ f, fut_yielded f = true ∧ ∃ r, fut_pc f = Finished (Returned r))
         (futures c).
Proof.
  intros (Hfin & Hall & Hret & _ & _) Hph.
  rewrite Hph in *. specialize (Hall (or_introl eq_refl)).
  specialize (Hret eq_refl). rewrite Forall_forall in *.
  intros f Hf. split; [by apply Hall|]. apply Hret; [done|by apply Hall].
Qed.

Lemma lost_request url st :
  lost (set_requests_log (λ l, l ++ [url]) st)
  = (lost st + if uncaught url then 1 else 0)%nat.
Proof.
  unfold lost. cbn [requests_log set_requests_log].
  rewrite List.filter_app, length_app. cbn. by destruct (uncaught url).
Qed.

Lemma stats_ok_start export_realtime :
  stats_ok (crawl_start base_url max_workers (initial_state export_realtime)).
Proof. unfold stats_ok. split; [by vm_compute|done]. Qed.

(** Where the histogram stands against the visited set. *)
Lemma stats_ok_count_step c c' :
  phase_ok c →
  (stats_total (stats (shared c)) + in_flight (futures c)
   + lost (shared c))%nat = size (visited (shared c)) →
  trans c c' →
  (stats_total (stats (shared c')) + in_flight (futures c')
   + lost (shared c'))%nat = size (visited (shared c')).
Proof.
  intros Hphase Hstats Htrans.
  destruct Htrans as [| | | | | | |st q pre post e p y ph p' st' Hp Htask| |];
    cbn [shared futures] in *;
    rewrite ?in_flight_app, ?in_flight_cons in *;
    cbn [awaiting_count fut_pc] in *;
    try done.
  - apply between_waves_finished in Hphase; [|done]. cbn [futures] in Hphase.
    rewrite in_flight_finished in Hstats.
    + by rewrite <- Hstats.
    + eapply Forall_impl; [exact Hphase|]. intros f [_ [r ->]]. done.
  - change (in_flight []) with 0%nat. lia.
  - destruct Htask as [| |st status text Hresp|st x Hresp| | | | | | | |
                       |st x Hresp];
      rewrite ?lost_request; unfold uncaught; rewrite ?Hresp;
      unfold lost in *;
      cbn [awaiting_count fut_pc stats visited requests_log set_visited
           set_requests_log stats_incr set_stats record_broken_status
           record_exception export_row_realtime set_realtime_export_file
           set_broken set_frontier_log set_discovered] in *;
      rewrite ?stats_total_incr; try lia.
    rewrite size_union, size_singleton by set_solver. lia.
  - rewrite stats_total_build_table. exact Hstats.
Qed.

(** A request raises past the [except] clause only in a task that raises. *)
Lemma stats_ok_lost_step c c' :
  phase_ok c → (no_raise c → lost (shared c) = 0%nat) → trans c c' →
  no_raise c' → lost (shared c') = 0%nat.
Proof.
  intros Hphase Hlost Htrans.
  destruct Htrans as [| | | | | | |st q pre post e p y ph p' st' Hp Htask| |];
    unfold no_raise in *; cbn [shared futures] in *;
    rewrite ?Forall_app, ?Forall_cons in *; cbn [fut_pc] in *;
    try done.
  - intros _. apply Hlost.
    apply between_waves_finished in Hphase; [|done]. cbn [futures] in Hphase.
    eapply Forall_impl; [exact Hphase|]. by intros f [_ [r ->]].
  - intros (Hfs & _). by apply Hlost.
  - intros (Hpre & _ & Hpost). by apply Hlost.
  - intros (Hpre & Hnew & Hpost).
    assert (lost st = 0%nat) as Hnone.
    { apply Hlost. split_and!; try done. intros x ->. done. }
    destruct Htask as [| |st status text Hresp|st x Hresp| | | | | | | |
                       |st x Hresp];
      rewrite ?lost_request; unfold uncaught; rewrite ?Hresp;
      unfold lost in *;
      cbn [requests_log set_visited
           set_requests_log stats_incr set_stats record_broken_status
           record_exception export_row_realtime set_realtime_export_file
           set_broken set_frontier_log set_discovered] in *;
      try lia.
    by destruct (Hnew x).
Qed.

Lemma stats_ok_step c c' : phase_ok c → stats_ok c → trans c c' → stats_ok c'.
Proof.
  intros Hphase [Hstats Hlost] Htrans. split.
  - by eapply stats_ok_count_step.
  - by eapply stats_ok_lost_step.
Qed.

(** *** Depths *)

Lemma depths_ok_start export_realtime :
  depths_ok base_url
    (crawl_start base_url max_workers (initial_state export_realtime)).
Proof.
  unfold depths_ok, crawl_start. cbn. repeat split.
  - by exists [].
  - by repeat constructor.
  - constructor.
Qed.

Lemma depths_ok_step c c' :
  depths_ok base_url c → trans c c' → depths_ok base_url c'.
Proof.
  intros (Hlog & Hqueue & Hfutures) Htrans.
  destruct Htrans as [| | | | | | |st q pre post e p y ph p' st' Hp Htask| |];
    unfold depths_ok in *; cbn [shared futures queue] in *;
    rewrite ?Forall_app, ?Forall_cons, ?Forall_nil in *;
    cbn [collected fut_pc fut_entry] in *;
    try done.
  - destruct Hqueue as [Hdepth Hqueue]. by split_and!.
  - destruct Hfutures as (Hpre & [Hdepth Hcollected] & Hpost).
    destruct Htask;
      cbn [frontier_log set_visited set_requests_log stats_incr set_stats
           record_broken_status record_exception export_row_realtime
           set_realtime_export_file set_broken set_frontier_log
           set_discovered] in *;
      try done.
    destruct Hlog as (found & -> & Hfound). repeat split; try done.
    + eexists. split; [reflexivity|].
      apply Forall_app. split; [done|]. repeat constructor. cbn. lia.
    + apply Forall_app. split; [done|]. repeat constructor. cbn. lia.
  - destruct Hfutures as (Hpre & [Hdepth Hcollected] & Hpost).
    repeat split; try done.
    eapply Forall_impl; [exact Hcollected|]. cbn. intros. lia.
Qed.

(** *** Frontier accounting *)

Lemma accounts_perm st pending pending' :
  pending ≡ₚ pending' →
  accounts max_depth st pending → accounts max_depth st pending'.
Proof.
  intros Hperm (Hlog & Hdisc & Hsub & Hnodup & Hpending & Hpassed).
  repeat split; try done.
  - by rewrite <- Hperm.
  - apply Hpending. by rewrite Hperm.
  - apply Hpending. by rewrite Hperm.
  - apply Hpassed; [done|]. by rewrite Hperm.
  - apply Hpassed; [done|]. by rewrite Hperm.
Qed.

Lemma accounts_ext st st' pending :
  visited st' = visited st → discovered st' = discovered st →
  frontier_log st' = frontier_log st →
  accounts max_depth st pending → accounts max_depth st' pending.
Proof. unfold accounts. by intros -> -> ->. Qed.

Lemma entry_url_inj_on (l : list entry) e1 e2 :
  NoDup (entry_url <$> l) → e1 ∈ l → e2 ∈ l →
  entry_url e1 = entry_url e2 → e1 = e2.
Proof.
  induction l as [|e l IH]; [by intros _ ?%elem_of_nil|].
  rewrite fmap_cons, NoDup_cons. intros [Hnew Hnodup].
  intros [->|H1]%elem_of_cons [->|H2]%elem_of_cons Heq; try done.
  - destruct Hnew. rewrite Heq. by apply list_elem_of_fmap_2.
  - destruct Hnew. rewrite <- Heq. by apply list_elem_of_fmap_2.
  - by apply IH.
Qed.

Lemma accounts_gate_closed st e pending :
  accounts max_depth st (e :: pending) →
  entry_url e ∈ visited st ∨ max_depth < entry_depth e →
  accounts max_depth st pending.
Proof.
  intros (Hlog & Hdisc & Hsub & Hnodup & Hpending & Hpassed) Hclosed.
  apply NoDup_cons in Hnodup as [Hfresh Hnodup].
  destruct (Hpending e) as [Hin Hunvisited]; [by left|].
  destruct Hclosed as [?|Hdeep]; [done|].
  unfold accounts. split_and!; try done.
  - intros e' He'. apply Hpending. by right.
  - intros e' He' Hpassed'.
    destruct (decide (e' = e)) as [->|Hne]; [split; [done|lia]|].
    apply Hpassed; [done|]. by intros [?|?]%elem_of_cons.
Qed.

Lemma accounts_gate_open st e pending :
  accounts max_depth st (e :: pending) →
  entry_depth e ≤ max_depth →
  accounts max_depth (set_visited (λ v, {[entry_url e]} ∪ v) st) pending.
Proof.
  intros (Hlog & Hdisc & Hsub & Hnodup & Hpending & Hpassed) Hdepth.
  apply NoDup_cons in Hnodup as [Hfresh Hnodup].
  destruct (Hpending e) as [Hin Hunvisited]; [by left|].
  unfold accounts. cbn [visited discovered frontier_log set_visited].
  split_and!; try done.
  - apply union_subseteq. split; [|done].
    apply singleton_subseteq_l. rewrite Hdisc.
    apply elem_of_list_to_set. by apply list_elem_of_fmap_2.
  - intros e' He'. destruct (Hpending e') as [Hlogged Hunvisited']; [by right|].
    split; [done|].
    intros [Hsame%elem_of_singleton|Hvisited]%elem_of_union; [|done].
    assert (e' = e) as ->; [|done].
    by apply (entry_url_inj_on (frontier_log st)).
  - intros e' He' Hpassed'.
    destruct (decide (e' = e)) as [->|Hne].
    { split; [done|]. intros _. apply elem_of_union. left.
      by apply elem_of_singleton. }
    assert (entry_url e' ≠ entry_url e) as Hurl.
    { intros Heq. apply Hne.
      by apply (entry_url_inj_on (frontier_log st)). }
    rewrite elem_of_union, elem_of_singleton.
    rewrite <- (Hpassed e' He'); [tauto|].
    by intros [?|?]%elem_of_cons.
Qed.

Lemma accounts_discover st href depth source pending :
  accounts max_depth st pending →
  href ∉ discovered st →
  accounts max_depth
    (set_frontier_log (λ l, l ++ [(href, depth, source)])
       (set_discovered (λ d, {[href]} ∪ d) st))
    ((href, depth, source) :: pending).
Proof.
  intros (Hlog & Hdisc & Hsub & Hnodup & Hpending & Hpassed) Hnew.
  unfold accounts.
  cbn [visited discovered frontier_log set_frontier_log set_discovered].
  assert (Hfresh : (href, depth, source) ∉ frontier_log st).
  { intros Hin. apply Hnew. rewrite Hdisc. apply elem_of_list_to_set.
    by apply (list_elem_of_fmap_2 entry_url) in Hin. }
  split_and!.
  - rewrite fmap_app. apply NoDup_app. split_and!; [done| |].
    + intros url Hurl Hin. cbn in Hin. apply list_elem_of_singleton in Hin as ->.
      apply Hnew. rewrite Hdisc. by apply elem_of_list_to_set.
    + cbn. apply NoDup_singleton.
  - rewrite fmap_app, list_to_set_app_L, <- Hdisc. cbn.
    rewrite union_empty_r_L. apply (comm_L (∪)).
  - by apply union_subseteq_r'.
  - apply NoDup_cons. split; [|done]. intros Hin.
    by destruct (Hpending _ Hin) as [? _].
  - intros e [->|Hin]%elem_of_cons.
    + split; [apply elem_of_app; right; by left|].
      cbn. intros Hvisited. apply Hnew. by apply Hsub.
    + destruct (Hpending e Hin). split; [|done]. apply elem_of_app. by left.
  - intros e [Hin|Hin%list_elem_of_singleton]%elem_of_app Hpassed'.
    + apply Hpassed; [done|]. intros Hp. apply Hpassed'. by right.
    + subst. destruct Hpassed'. by left.
Qed.

Lemma holds_yielded fs :
  Forall (λ f, fut_yielded f = true ∧ ∃ r, fut_pc f = Finished (Returned r)) fs →
  fs ≫= holds = [].
Proof.
  induction 1 as [|[e p y] fs [Hy [r Hp]] _ IH]; [done|].
  rewrite bind_cons, IH. cbn in *. by subst.
Qed.

Lemma running_not_yielded c pre post e p y :
  phase_ok c → futures c = pre ++ mkFuture e p y :: post →
  is_finished p = false → y = false.
Proof.
  intros (Hfin & _) Hfs Hp.
  rewrite Hfs, Forall_app, Forall_cons in Hfin. cbn in Hfin.
  destruct Hfin as (_ & Hy & _). destruct y; [|done].
  by rewrite Hy in Hp.
Qed.

Lemma frontier_ok_start export_realtime :
  frontier_ok max_depth
    (crawl_start base_url max_workers (initial_state export_realtime)).
Proof.
  unfold frontier_ok, accounts, unprocessed, crawl_start. cbn.
  split_and!.
  - apply NoDup_singleton.
  - set_solver.
  - set_solver.
  - apply NoDup_singleton.
  - intros e ->%list_elem_of_singleton. split; [by left|set_solver].
  - intros e ->%list_elem_of_singleton Hpassed. destruct Hpassed. by left.
Qed.

Lemma frontier_ok_step c c' :
  phase_ok c → (no_raise c → frontier_ok max_depth c) → trans c c' →
  no_raise c' → frontier_ok max_depth c'.
Proof.
  intros Hphase Hinv Htrans Hclean.
  destruct Htrans as [| | | | | |st q pre post e y ph Hrun
                      |st q pre post e p y ph p' st' Hp Htask| |];
    unfold frontier_ok, unprocessed, no_raise in *;
    cbn [shared futures queue] in *.
  - by apply Hinv.
  - apply between_waves_finished in Hphase as Hfs; [|done].
    cbn [futures] in Hfs. cbn. rewrite <- (holds_yielded fs) by done.
    apply Hinv. eapply Forall_impl; [exact Hfs|].
    intros f [_ [r ->]]. done.
  - rewrite Forall_app in Hclean. destruct Hclean as [Hclean _].
    eapply accounts_perm; [|by apply Hinv].
    rewrite bind_app, bind_singleton. cbn [holds fut_pc fut_entry].
    solve_Permutation.
  - by apply Hinv.
  - by apply Hinv.
  - by apply Hinv.
  - rewrite !bind_app, !bind_cons in *. cbn [holds fut_pc fut_entry] in *.
    apply Hinv. rewrite Forall_app, Forall_cons in *. cbn [fut_pc] in *.
    destruct Hclean as (Hclean_pre & _ & Hclean_post). by split_and!.
  - assert (y = false) as ->.
    { eapply (running_not_yielded _ pre post e p); [done|done|].
      by destruct p. }
    rewrite Forall_app, Forall_cons in Hclean. cbn [fut_pc] in Hclean.
    destruct Hclean as (Hclean_pre & Hclean_p' & Hclean_post).
    assert (Hold : accounts max_depth st
                     (q ++ (pre ++ mkFuture e p false :: post) ≫= holds)).
    { apply Hinv. rewrite Forall_app, Forall_cons. cbn [fut_pc].
      split_and!; [done| |done]. intros x ->. done. }
    clear Hinv. rewrite !bind_app, !bind_cons in *.
    destruct Htask; cbn [holds fut_pc fut_entry fut_yielded] in *;
      try (by (eapply accounts_ext; [..|exact Hold])).
    + eapply accounts_gate_closed; [|done].
      eapply accounts_perm; [|exact Hold].
      solve_Permutation.
    + eapply accounts_gate_open; [|done].
      eapply accounts_perm; [|exact Hold].
      solve_Permutation.
    + eapply accounts_perm; [|by apply accounts_discover].
      solve_Permutation.
    + by destruct (Hclean_p' x).
  - rewrite Forall_app, Forall_cons in Hclean. cbn [fut_pc] in Hclean.
    eapply accounts_ext; [done..|].
    eapply accounts_perm; [|apply Hinv].
    + rewrite !bind_app, !bind_cons. cbn [holds fut_pc fut_yielded].
      solve_Permutation.
    + rewrite Forall_app, Forall_cons. cbn [fut_pc].
      destruct Hclean as (Hclean_pre & _ & Hclean_post). by split_and!.
  - rewrite Forall_app, Forall_cons in Hclean. cbn [fut_pc] in Hclean.
    by destruct Hclean as (_ & Hraised & _); destruct (Hraised x).
Qed.

(** *** All together *)

Lemma reachable_invariants export_realtime c :
  reachable base_url max_depth max_workers export_realtime c →
  phase_ok c ∧ requests_ok c ∧ stats_ok c ∧ depths_ok base_url c
  ∧ (no_raise c → frontier_ok max_depth c).
Proof.
  revert c. apply reachable_ind.
  - split_and!.
    + apply phase_ok_start.
    + apply requests_ok_start.
    + apply stats_ok_start.
    + apply depths_ok_start.
    + intros _. apply frontier_ok_start.
  - intros c c' (Hphase & Hrequests & Hstats & Hdepths & Hfrontier) Htrans.
    split_and!.
    + by eapply phase_ok_step.
    + by eapply requests_ok_step.
    + by eapply stats_ok_step.
    + by eapply depths_ok_step.
    + intros Hclean. by eapply frontier_ok_step.
Qed.

Lemma visited_grows c c' :
  trans c c' → visited (shared c) ⊆ visited (shared c').
Proof.
  intros Htrans.
  destruct Htrans as [| | | | | | |st q pre post e p y ph p' st' Hp Htask| |];
    cbn [shared]; try done.
  destruct Htask; cbn; set_solver.
Qed.

Lemma visit_gate_spec url depth st :
  (visit_gate url depth max_depth st
   = (true, set_visited (λ v, {[url]} ∪ v) st)
   ∧ (url ∉ visited st) ∧ depth ≤ max_depth)
  ∨ (visit_gate url depth max_depth st = (false, st)
     ∧ (url ∈ visited st ∨ max_depth < depth)).
Proof.
  unfold visit_gate. case_bool_decide as Hin; cbn [orb].
  - right. auto.
  - destruct (depth >? max_depth) eqn:Hdepth.
    + right. split; [done|]. right. lia.
    + left. split_and!; [done|done|lia].
Qed.

Lemma in_flight_idle fs :
  Forall (λ f, is_running (fut_pc f) = false) fs → in_flight fs = 0%nat.
Proof.
  induction 1 as [|[e p y] fs Hf _ IH]; [done|].
  rewrite in_flight_cons, IH. by destruct p.
Qed.

Lemma finished_idle fs :
  Forall (λ f, is_finished (fut_pc f) = true) fs →
  Forall (λ f, is_running (fut_pc f) = false) fs.
Proof.
  intros Hfs. eapply Forall_impl; [exact Hfs|].
  intros [e p y]. by destruct p.
Qed.

Lemma phase_ok_exit c :
  phase_ok c → at_phase c = Done ∨ (∃ x, at_phase c = Failed x) →
  Forall (λ f, is_finished (fut_pc f) = true) (futures c).
Proof.
  intros (Hfin & Hall & _ & _ & Hfailed) [Hdone|[x Hx]];
    [|apply Hfailed; by rewrite Hx].
  specialize (Hall (or_intror Hdone)).
  rewrite Forall_forall in *. intros f Hf. apply Hfin; [done|by apply Hall].
Qed.

Lemma phase_ok_done c :
  phase_ok c → at_phase c = Done →
  queue c = [] ∧ unprocessed c = [] ∧ no_raise c.
Proof.
  intros (Hfin & Hall & Hret & Hq & _) Hdone.
  specialize (Hall (or_intror Hdone)). rewrite Hdone in Hret.
  specialize (Hret eq_refl). specialize (Hq Hdone).
  assert (Forall (λ f, fut_yielded f = true
                       ∧ ∃ r, fut_pc f = Finished (Returned r)) (futures c))
    as Hfs.
  { rewrite Forall_forall in *. intros f Hf.
    split; [by apply Hall|]. apply Hret; [done|by apply Hall]. }
  split_and!; [done| |].
  - unfold unprocessed. by rewrite Hq, holds_yielded.
  - eapply Forall_impl; [exact Hfs|]. intros f [_ [r ->]]. done.
Qed.

End invariant_proofs.

(** ** Running the model *)

Section running.
Context `{Ipaddress} `{Web}.
Variables (base_url : string) (max_depth max_workers : Z).

Lemma crawl_steps fuel c :
  rtc (step base_url max_depth max_workers) c
      (crawl fuel base_url max_depth max_workers c).
Proof.
  revert c. induction fuel as [|fuel IH]; intros c; cbn [crawl]; [done|].
  destruct (first_move _ _ _ c) as [a|]; [|done].
  destruct (perform _ _ _ a c) as [c'|] eqn:Hperform; [|done].
  eapply rtc_l; [by exists a|]. apply IH.
Qed.

Lemma run_schedule_steps schedule c c' :
  run_schedule base_url max_depth max_workers schedule c = Some c' →
  rtc (step base_url max_depth max_workers) c c'.
Proof.
  revert c. induction schedule as [|a schedule IH]; intros c; cbn.
  - by intros [= ->].
  - destruct (perform _ _ _ a c) as [c1|] eqn:Hperform; [|done].
    intros Hrest. eapply rtc_l; [by exists a|]. by apply IH.
Qed.

Lemma run_task_finished fuel e r st :
  run_task fuel base_url max_depth e (Finished r) st = (Finished r, st).
Proof.
  induction fuel as [|fuel IH]; [done|]. cbn [run_task].
  destruct e as [[url depth] source_url]. cbn [task_step]. apply IH.
Qed.

Lemma run_task_loop url depth source_url hrefs result_links st :
  run_task (S (length hrefs)) base_url max_depth (url, depth, source_url)
    (InLoop hrefs result_links) st
  = (let '(r, st') := extract_links url base_url depth hrefs result_links st in
     (Finished r, st')).
Proof.
  revert result_links st.
  induction hrefs as [|tag_href hrefs IH]; intros result_links st; [done|].
  cbn [length run_task task_step extract_links] in *.
  destruct (extract_one _ _ _ _ _ _) as [[result_links' st']|x].
  - apply IH.
  - cbn [task_step]. apply run_task_finished.
Qed.

(** The atomic blocks of a task, run one after the other with nothing in
    between, are [fetch_and_extract]. *)
Lemma run_task_fetch_and_extract url depth source_url st :
  ∃ fuel,
    run_task fuel base_url max_depth (url, depth, source_url) AtGate st
    = (let '(r, st') :=
         fetch_and_extract url base_url depth max_depth source_url st in
       (Finished r, st')).
Proof.
  unfold fetch_and_extract.
  destruct (visit_gate url depth max_depth st) as [[] st1] eqn:Hgate;
    cbn [negb].
  - destruct (requests_get url) as [status text|x|x] eqn:Hresp.
    + destruct (status >=? 400) eqn:Hstatus.
      * exists 4%nat. cbn [run_task task_step]. rewrite Hgate.
        unfold http_request. rewrite Hresp, Hstatus. done.
      * exists (3 + S (length (find_all_href text)))%nat.
        cbn [run_task task_step Nat.add]. rewrite Hgate.
        unfold http_request. rewrite Hresp, Hstatus.
        apply run_task_loop.
    + exists 3%nat. cbn [run_task task_step]. rewrite Hgate.
      unfold http_request. rewrite Hresp. done.
    + exists 2%nat. cbn [run_task task_step]. rewrite Hgate.
      unfold http_request. rewrite Hresp. done.
  - exists 1%nat. cbn [run_task task_step]. by rewrite Hgate.
Qed.

End running.

(** ** The crawl as a whole *)

Section crawl_theorems.
Context `{Ipaddress} `{Web}.
Variables (base_url : string) (max_depth max_workers : Z).
Variable export_realtime : bool.

(** C1: the gate decides and records in one atomic block: it lets a task
    through exactly when the URL is not yet visited (and the depth allows
    it), and then the URL is visited. The visited set only grows. A URL is
    requested only after its task went through the gate, so in every
    configuration a crawl can reach, no URL occurs twice among the requests
    made, and each requested URL is in the visited set. *)
Theorem each_url_fetched_at_most_once c :
  reachable base_url max_depth max_workers export_realtime c →
  NoDup (requests_log (shared c))
  ∧ (∀ url, url ∈ requests_log (shared c) → url ∈ visited (shared c))
  ∧ (∀ c', step base_url max_depth max_workers c c' →
           visited (shared c) ⊆ visited (shared c'))
  ∧ (∀ url depth st,
       (visit_gate url depth max_depth st
        = (true, set_visited (λ v, {[url]} ∪ v) st)
        ∧ (url ∉ visited st) ∧ depth ≤ max_depth)
       ∨ (visit_gate url depth max_depth st = (false, st)
          ∧ (url ∈ visited st ∨ max_depth < depth))).
Proof.
  intros (_ & [Hnodup Hvisited] & _)%reachable_invariants.
  split_and!.
  - by apply NoDup_app in Hnodup as (? & _ & _).
  - intros url Hurl. apply Hvisited. apply elem_of_app. by left.
  - intros c' Hstep%step_sched_trans. by eapply visited_grows.
  - apply visit_gate_spec.
Qed.

(** C10: every URL that entered the visited set is counted once in the
    histogram, or its task stands between the gate and its count, or its
    request raised an exception that is not a [requests.RequestException],
    which leaves it visited and not counted. So whenever no task is
    running, and in particular when [crawl_concurrent] has returned or
    raised, the histogram counts and the number of such requests add up to
    the size of the visited set. Such a request makes its task raise: when
    no task has raised, and in particular when [crawl_concurrent] has
    returned, there is none, and with no task running the histogram counts
    alone add up to the size of the visited set. *)
Theorem histogram_counts_visited c :
  reachable base_url max_depth max_workers export_realtime c →
  (stats_total (stats (shared c)) + in_flight (futures c)
   + lost (shared c))%nat
  = size (visited (shared c))
  ∧ (Forall (λ f, is_running (fut_pc f) = false) (futures c) →
     (stats_total (stats (shared c)) + lost (shared c))%nat
     = size (visited (shared c)))
  ∧ (at_phase c = Done ∨ (∃ x, at_phase c = Failed x) →
     (stats_total (stats (shared c)) + lost (shared c))%nat
     = size (visited (shared c)))
  ∧ (no_raise c → lost (shared c) = 0%nat)
  ∧ (no_raise c →
     Forall (λ f, is_running (fut_pc f) = false) (futures c) →
     stats_total (stats (shared c)) = size (visited (shared c)))
  ∧ (at_phase c = Done →
     stats_total (stats (shared c)) = size (visited (shared c))).
Proof.
  intros (Hphase & _ & [Hstats Hlost] & _)%reachable_invariants.
  assert (Hidle : Forall (λ f, is_running (fut_pc f) = false) (futures c) →
                  (stats_total (stats (shared c)) + lost (shared c))%nat
                  = size (visited (shared c))).
  { intros Hidle. rewrite (in_flight_idle _ Hidle) in Hstats. lia. }
  assert (Hexit : at_phase c = Done ∨ (∃ x, at_phase c = Failed x) →
                  (stats_total (stats (shared c)) + lost (shared c))%nat
                  = size (visited (shared c))).
  { intros Hexit. by apply Hidle, finished_idle, phase_ok_exit. }
  split_and!; try done.
  - intros Hclean Hrest. rewrite <- (Hidle Hrest), (Hlost Hclean). lia.
  - intros Hdone.
    destruct (phase_ok_done _ Hphase Hdone) as (_ & _ & Hclean).
    rewrite <- (Hexit (or_introl Hdone)), (Hlost Hclean). lia.
Qed.

(** C2: when [crawl_concurrent] has returned, the queue is empty and every
    task has finished; each discovered URL has exactly one frontier entry;
    and the visited set is the discovered set without the URLs whose entry
    was deeper than [max_depth]. With [max_depth = 0] the visited set is
    the base URL alone, whatever was discovered. *)
Theorem visited_at_done c :
  reachable base_url max_depth max_workers export_realtime c →
  at_phase c = Done →
  queue c = []
  ∧ Forall (λ f, is_finished (fut_pc f) = true) (futures c)
  ∧ NoDup (entry_url <$> frontier_log (shared c))
  ∧ discovered (shared c) = list_to_set (entry_url <$> frontier_log (shared c))
  ∧ visited (shared c)
    = discovered (shared c) ∖ beyond_max_depth max_depth (shared c)
  ∧ (max_depth = 0 →
     visited (shared c) = {[base_url]} ∧ size (visited (shared c)) = 1%nat).
Proof.
  intros (Hphase & _ & _ & Hdepths & Hfrontier)%reachable_invariants Hdone.
  destruct (phase_ok_done _ Hphase Hdone) as (Hqueue & Hpending & Hclean).
  specialize (Hfrontier Hclean). unfold frontier_ok in Hfrontier.
  rewrite Hpending in Hfrontier.
  destruct Hfrontier as (Hlog & Hdisc & Hsub & _ & _ & Hpassed).
  assert (Hvisited : ∀ e, e ∈ frontier_log (shared c) →
                          entry_url e ∈ visited (shared c)
                          ↔ entry_depth e ≤ max_depth).
  { intros e He. apply Hpassed; [done|]. by intros ?%elem_of_nil. }
  split_and!; try done.
  - apply phase_ok_exit; [done|by left].
  - apply set_eq. intros url. rewrite elem_of_difference.
    unfold beyond_max_depth. rewrite elem_of_list_to_set, list_elem_of_fmap.
    split.
    + intros Hurl. split; [by apply Hsub|].
      intros (e & -> & [He Hdeep]%list_elem_of_In%List.filter_In).
      apply list_elem_of_In in He. apply Hvisited in Hurl; [|done]. lia.
    + intros [Hurl Hshallow]. rewrite Hdisc in Hurl.
      apply elem_of_list_to_set, list_elem_of_fmap in Hurl as (e & -> & He).
      apply Hvisited; [done|].
      destruct (decide (entry_depth e ≤ max_depth)) as [|Hdeep]; [done|].
      destruct Hshallow. exists e. split; [done|].
      apply list_elem_of_In, List.filter_In. split; [by apply list_elem_of_In|].
      lia.
  - intros ->.
    destruct Hdepths as ((found & Hfound & Hdeep) & _ & _).
    assert (visited (shared c) = {[base_url]}) as ->.
    { apply set_eq. intros url. rewrite elem_of_singleton. split.
      - intros Hurl. pose proof (Hsub _ Hurl) as Hd. rewrite Hdisc in Hd.
        apply elem_of_list_to_set, list_elem_of_fmap in Hd as (e & -> & He).
        apply Hvisited in Hurl; [|done]. rewrite Hfound in He.
        apply elem_of_cons in He as [->|He]; [done|].
        rewrite Forall_forall in Hdeep. apply Hdeep in He. lia.
      - intros ->.
        apply (Hvisited (base_url, 0, "root")); [|done].
        rewrite Hfound. by left. }
    split; [done|]. apply size_singleton.
Qed.

End crawl_theorems.

(** ** The model at work on the example site *)

Section examples.
#[local] Existing Instance Example_site.ipaddress.
#[local] Existing Instance Example_site.web.
Import Example_site.

(** The end-to-end scenario of the specification: depth 2, ten workers. *)
Example crawl_example :
  let c := crawl 200 base_url 2 10 (start 10) in
  at_phase c = Done
  ∧ visited (shared c)
    = {[ "https://example.com"; "https://example.com/a";
         "https://example.com/b"; "https://example.com/c" ]}
  ∧ stats_get (Int 200) (stats (shared c)) = 3%nat
  ∧ stats_get (Int 404) (stats (shared c)) = 1%nat
  ∧ broken (shared c)
    = [("https://example.com/b", Int 404, "https://example.com")]
  ∧ export_errors_to_csv (broken (shared c))
    = [csv_header;
       [Int 404; Str "https://example.com/b"; Str "https://example.com"]].
Proof. cbv zeta. split_and!; vm_compute; reflexivity. Qed.

Lemma each_url_fetched_at_most_once_witness :
  reachable base_url 2 10 true (crawl 200 base_url 2 10 (start 10))
  ∧ NoDup (requests_log (shared (crawl 200 base_url 2 10 (start 10)))).
Proof.
  pose proof (crawl_steps base_url 2 10 200 (start 10)) as Hreach.
  split; [exact Hreach|].
  exact (proj1 (each_url_fetched_at_most_once base_url 2 10 true _ Hreach)).
Defined.

Lemma visited_at_done_witness :
  reachable base_url 0 10 true (crawl 200 base_url 0 10 (start 10))
  ∧ at_phase (crawl 200 base_url 0 10 (start 10)) = Done
  ∧ visited (shared (crawl 200 base_url 0 10 (start 10))) = {[ base_url ]}
  ∧ size (visited (shared (crawl 200 base_url 0 10 (start 10)))) = 1%nat.
Proof.
  pose proof (crawl_steps base_url 0 10 200 (start 10)) as Hreach.
  assert (at_phase (crawl 200 base_url 0 10 (start 10)) = Done) as Hdone
    by (vm_compute; reflexivity).
  split; [exact Hreach|]. split; [exact Hdone|].
  pose proof (visited_at_done base_url 0 10 true _ Hreach Hdone)
    as (_ & _ & _ & _ & _ & Hzero).
  exact (Hzero eq_refl).
Defined.

Lemma histogram_counts_visited_witness :
  reachable base_url 2 10 true (crawl 200 base_url 2 10 (start 10))
  ∧ at_phase (crawl 200 base_url 2 10 (start 10)) = Done
  ∧ stats_total (stats (shared (crawl 200 base_url 2 10 (start 10))))
    = size (visited (shared (crawl 200 base_url 2 10 (start 10)))).
Proof.
  pose proof (crawl_steps base_url 2 10 200 (start 10)) as Hreach.
  assert (at_phase (crawl 200 base_url 2 10 (start 10)) = Done) as Hdone
    by (vm_compute; reflexivity).
  split; [exact Hreach|]. split; [exact Hdone|].
  pose proof (histogram_counts_visited base_url 2 10 true _ Hreach)
    as (_ & _ & _ & _ & _ & Hreturned).
  exact (Hreturned Hdone).
Defined.

(** With depth 0 the links of the base page are discovered and not
    visited. *)
Example crawl_example_depth_0 :
  discovered (shared (crawl 200 base_url 0 10 (start 10)))
  = {[ "https://example.com"; "https://example.com/a";
       "https://example.com/b" ]}
  ∧ requests_log (shared (crawl 200 base_url 0 10 (start 10)))
    = ["https://example.com"].
Proof. split; vm_compute; reflexivity. Qed.

Lemma fetch_and_extract_beyond_max_depth_witness :
  2 < 3
  ∧ fetch_and_extract "https://example.com/c" base_url 3 2
      "https://example.com/a" (initial_state false)
    = (Returned [], initial_state false).
Proof.
  split; [lia|].
  apply (fetch_and_extract_beyond_max_depth
           "https://example.com/c" base_url 3 2 "https://example.com/a").
  lia.
Defined.

Lemma fetch_and_extract_error_status_witness :
  requests_get "https://example.com/b" = Response 404 "/d"
  ∧ ∃ st',
      fetch_and_extract "https://example.com/b" base_url 1 2
        "https://example.com" (initial_state false)
      = (Returned [], st')
      ∧ broken st' = [("https://example.com/b", Int 404, "https://example.com")]
      ∧ stats st' = {[ Int 404 := 1%nat ]}.
Proof.
  split; [reflexivity|].
  destruct (fetch_and_extract_error_status
              "https://example.com/b" base_url 1 2 "https://example.com"
              (initial_state false) 404 "/d")
    as (st' & Hcall & Hstats & Hbroken & _);
    [apply not_elem_of_empty|lia|reflexivity|lia|].
  exists st'. split_and!; [exact Hcall|exact Hbroken|].
  rewrite Hstats. reflexivity.
Defined.


(** C7 fails as stated: a link whose path ends in a space and a slash. The
    slash goes, the space stays; normalising again removes the space. *)
Lemma normalize_url_not_idempotent :
  normalize_url "https://example.com/" "a /"
  = Returned "https://example.com/a "
  ∧ normalize_url "https://example.com/" "https://example.com/a "
    = Returned "https://example.com/a".
Proof. split; reflexivity. Qed.

Lemma normalize_url_idempotent_canonical_witness :
  normalize_url "https://example.com/" "docs/?page=2#top"
  = Returned (build_url "https" "example.com" "/docs/" "page=2")
  ∧ normalize_url "https://example.com/"
      (build_url "https" "example.com" "/docs/" "page=2")
    = Returned "https://example.com/docs/?page=2".
Proof.
  split; [reflexivity|].
  destruct (Urllib.urlparse "https://example.com/" "") as [b|] eqn:Hbase;
    [|discriminate Hbase].
  exact (normalize_url_idempotent_canonical
           "https://example.com/" "docs/?page=2#top"
           "https" "example.com" "/docs/" "page=2" b
           eq_refl eq_refl eq_refl Hbase).
Defined.

(** C8 fails as stated: two trailing slashes are both stripped, where
    stripping exactly one would leave one. *)
Lemma normalize_url_strips_every_slash :
  normalize_url "https://example.com/" "/docs//"
  = Returned "https://example.com/docs"
  ∧ normalize_url_one_slash "https://example.com/" "/docs//"
    = Returned "https://example.com/docs/".
Proof. split; reflexivity. Qed.

Lemma normalize_url_steps_witness :
  normalize_url "https://example.com/" " /docs//#top"
  = Returned "https://example.com/docs"
  ∧ Str.contains "#" "https://example.com/docs" = false.
Proof.
  split; [reflexivity|].
  apply (normalize_url_steps "https://example.com/" " /docs//#top").
  reflexivity.
Defined.

(** C9 fails as stated: same host, different ports, yet not internal. *)
Lemma is_internal_distinguishes_ports :
  is_internal "http://example.com:80/" "http://example.com:8080/a"
  = Returned false
  ∧ is_internal_by_host "http://example.com:80/" "http://example.com:8080/a"
    = Returned true.
Proof. split; reflexivity. Qed.

Lemma is_internal_compares_netloc_witness :
  is_internal "http://example.com/" "https://example.com/a?b#c" = Returned true
  ∧ is_internal "http://example.com:80/" "http://example.com:8080/a"
    = Returned false.
Proof.
  split.
  - exact (is_internal_compares_netloc
             "http" "example.com" "/" "https" "example.com" "/a?b#c"
             eq_refl eq_refl eq_refl eq_refl eq_refl eq_refl).
  - exact (is_internal_compares_netloc
             "http" "example.com:80" "/" "http" "example.com:8080" "/a"
             eq_refl eq_refl eq_refl eq_refl eq_refl eq_refl).
Defined.

End examples.

(** ** Link extraction *)

Section extraction.
Context `{Ipaddress} `{Web}.
Variable base_url : string.

(** What one iteration of the loop does to the shared state: nothing, or
    one new entry, for a link that is crawlable, internal and not yet
    discovered. *)
Lemma extract_one_spec url depth tag_href result_links st result_links' st' :
  extract_one url base_url depth tag_href result_links st
  = Returned (result_links', st') →
  ∃ href,
    normalize_url url tag_href = Returned href
    ∧ ((result_links' = result_links ∧ st' = st
        ∧ (crawlable href = true →
           is_internal base_url href = Returned true →
           href ∈ discovered st))
       ∨ (crawlable href = true
          ∧ is_internal base_url href = Returned true
          ∧ (href ∉ discovered st)
          ∧ result_links' = result_links ++ [(href, depth + 1, url)]
          ∧ st' = set_frontier_log (λ l, l ++ [(href, depth + 1, url)])
                    (set_discovered (λ d, {[href]} ∪ d) st))).
Proof.
  unfold extract_one, crawlable.
  destruct (normalize_url url tag_href) as [href|]; [|done].
  cbv beta iota delta [mbind outcome_bind].
  destruct (_ || _) eqn:Hscheme.
  { intros [= <- <-]. exists href. split; [done|]. left.
    rewrite Hscheme. by split_and!. }
  destruct (is_internal base_url href) as [[]|] eqn:Hint; [| |done].
  - case_bool_decide as Hin; intros [= <- <-]; exists href;
      (split; [done|]); [left|right]; rewrite Hscheme; by split_and!.
  - intros [= <- <-]. exists href. split; [done|]. left.
    split_and!; [done|done|]. intros _ Hi. congruence.
Qed.

(** The loop as a whole: the entries [found] it appends to [result_links]
    are logged in the frontier and their URLs join the discovered set;
    nothing else changes, also when an iteration raises. When the loop
    returns, every crawlable internal link of the page is discovered. *)
Lemma extract_links_spec url depth hrefs result_links st r st' :
  extract_links url base_url depth hrefs result_links st = (r, st') →
  ∃ found,
    frontier_log st' = frontier_log st ++ found
    ∧ discovered st' = discovered st ∪ list_to_set (entry_url <$> found)
    ∧ only_discovers st st'
    ∧ NoDup (entry_url <$> found)
    ∧ Forall (λ e, (entry_url e ∉ discovered st)
                   ∧ entry_depth e = depth + 1 ∧ entry_source e = url
                   ∧ crawlable (entry_url e) = true
                   ∧ is_internal base_url (entry_url e) = Returned true
                   ∧ ∃ tag_href, tag_href ∈ hrefs
                       ∧ normalize_url url tag_href = Returned (entry_url e))
             found
    ∧ match r with
      | Returned links =>
          links = result_links ++ found
          ∧ ∀ tag_href href,
              tag_href ∈ hrefs →
              normalize_url url tag_href = Returned href →
              crawlable href = true →
              is_internal base_url href = Returned true →
              href ∈ discovered st'
      | Raised x =>
          ∃ tag_href, tag_href ∈ hrefs
            ∧ (normalize_url url tag_href = Raised x
               ∨ ∃ href, normalize_url url tag_href = Returned href
                         ∧ is_internal base_url href = Raised x)
      end.
Proof.
  revert result_links st.
  induction hrefs as [|tag_href hrefs IH]; intros result_links st;
    cbn [extract_links].
  { intros [= <- <-]. exists []. rewrite !app_nil_r. cbn.
    split_and!; try done.
    - by rewrite union_empty_r_L.
    - constructor.
    - intros ? ? ?%elem_of_nil. done. }
  destruct (extract_one _ _ _ _ _ _) as [[result_links1 st1]|x] eqn:Hone.
  - intros Hrest. apply IH in Hrest
      as (found & Hlog & Hdisc & Hframe & Hnodup & Hfound & Hresult).
    apply extract_one_spec in Hone as (href & Hnorm & Hcases).
    destruct Hcases as [(-> & -> & Hold)|(Hcrawl & Hint & Hnew & -> & ->)].
    + exists found. split_and!; try done.
      * eapply Forall_impl; [exact Hfound|]. cbn.
        intros e (? & ? & ? & ? & ? & tag & ? & ?).
        split_and!; try done. exists tag. split; [by right|done].
      * destruct r as [links|y].
        -- destruct Hresult as [-> Hall]. split; [done|].
           intros tag href' [->|Htag]%elem_of_cons Hnorm' Hcrawl' Hint'.
           ++ assert (href' = href) as -> by congruence.
              rewrite Hdisc. apply elem_of_union. left. by apply Hold.
           ++ by eapply Hall.
        -- destruct Hresult as (tag & Htag & Hraise).
           exists tag. split; [by right|done].
    + cbn [frontier_log discovered set_frontier_log set_discovered] in *.
      exists ((href, depth + 1, url) :: found).
      destruct Hframe as (Hv & Hb & Hs & Hr & Hq).
      cbn [visited broken stats realtime_export_file requests_log
           set_frontier_log set_discovered] in *.
      split_and!.
      * by rewrite Hlog, <- app_assoc.
      * rewrite Hdisc. cbn. apply set_eq. intros x.
        rewrite !elem_of_union. tauto.
      * by split_and!.
      * cbn. apply NoDup_cons. split; [|done].
        intros (e & He & Hin)%list_elem_of_fmap.
        rewrite Forall_forall in Hfound.
        destruct (Hfound e Hin) as (Hfresh & _).
        apply Hfresh. rewrite <- He. apply elem_of_union. left.
        by apply elem_of_singleton.
      * constructor.
        -- cbn. split_and!; try done. exists tag_href. split; [by left|done].
        -- eapply Forall_impl; [exact Hfound|]. cbn.
           intros e (Hfresh & ? & ? & ? & ? & tag & ? & ?).
           split_and!; try done.
           ++ intros Hin. apply Hfresh. apply elem_of_union. by right.
           ++ exists tag. split; [by right|done].
      * destruct r as [links|y].
        -- destruct Hresult as [-> Hall]. split; [by rewrite <- app_assoc|].
           intros tag href' [->|Htag]%elem_of_cons Hnorm' Hcrawl' Hint'.
           ++ assert (href' = href) as -> by congruence.
              rewrite Hdisc. apply elem_of_union. left.
              apply elem_of_union. left. by apply elem_of_singleton.
           ++ by eapply Hall.
        -- destruct Hresult as (tag & Htag & Hraise).
           exists tag. split; [by right|done].
  - intros [= <- <-]. exists []. rewrite !app_nil_r. cbn.
    split_and!; try done.
    + by rewrite union_empty_r_L.
    + constructor.
    + exists tag_href. split; [by left|].
      unfold extract_one in Hone.
      destruct (normalize_url url tag_href) as [href|y];
        cbv beta iota delta [mbind outcome_bind] in Hone;
        [|left; congruence].
      destruct (_ || _); [done|].
      destruct (is_internal base_url href) as [[]|y] eqn:Hint.
      * by case_bool_decide.
      * done.
      * right. exists href. split; [done|]. congruence.
Qed.

(** The four ways through [fetch_and_extract]. *)
Lemma fetch_and_extract_cases url depth max_depth source_url st r st' :
  fetch_and_extract url base_url depth max_depth source_url st = (r, st') →
  let st1 := set_requests_log (λ l, l ++ [url])
               (set_visited (λ v, {[url]} ∪ v) st) in
  ((url ∈ visited st ∨ max_depth < depth) ∧ r = Returned [] ∧ st' = st)
  ∨ ((url ∉ visited st) ∧ depth ≤ max_depth
     ∧ ((∃ status text,
           requests_get url = Response status text ∧ 400 ≤ status
           ∧ r = Returned []
           ∧ st' = record_broken_status url status source_url
                     (stats_incr (Int status) st1))
        ∨ (∃ e,
             requests_get url = RequestException e
             ∧ r = Returned []
             ∧ st' = record_exception url e source_url st1)
        ∨ (∃ status text,
             requests_get url = Response status text ∧ status < 400
             ∧ extract_links url base_url depth (find_all_href text) []
                 (stats_incr (Int status) st1) = (r, st'))
        ∨ (∃ x,
             requests_get url = OtherException x
             ∧ r = Raised x ∧ st' = st1))).
Proof.
  unfold fetch_and_extract, visit_gate.
  case_bool_decide as Hin; cbn [orb negb].
  { intros [= <- <-]. left. auto. }
  destruct (depth >? max_depth) eqn:Hdepth; cbn [negb].
  { intros [= <- <-]. left. split_and!; [right; lia|done|done]. }
  unfold http_request.
  destruct (requests_get url) as [status text|e|x] eqn:Hresp.
  - destruct (status >=? 400) eqn:Hstatus.
    + intros [= <- <-]. right. split_and!; [done|lia|].
      left. exists status, text. split_and!; [done|lia|done|done].
    + intros Hloop. right. split_and!; [done|lia|].
      right. right. left. exists status, text. split_and!; [done|lia|done].
  - intros [= <- <-]. right. split_and!; [done|lia|].
    right. left. by exists e.
  - intros [= <- <-]. right. split_and!; [done|lia|].
    right. right. right. by exists x.
Qed.

(** X1: whatever [fetch_and_extract] returns is new: the returned URLs are
    pairwise different, none was discovered before the call, all are
    discovered after it; each entry is one level deeper, names the fetched
    page as its source, is crawlable and internal; and the returned list is
    what the call added to the frontier. *)
Theorem fetch_and_extract_returns_new_links
    url depth max_depth source_url st links st' :
  fetch_and_extract url base_url depth max_depth source_url st
  = (Returned links, st') →
  NoDup (entry_url <$> links)
  ∧ frontier_log st' = frontier_log st ++ links
  ∧ discovered st' = discovered st ∪ list_to_set (entry_url <$> links)
  ∧ Forall (λ e, (entry_url e ∉ discovered st)
                 ∧ entry_depth e = depth + 1 ∧ entry_source e = url
                 ∧ crawlable (entry_url e) = true
                 ∧ is_internal base_url (entry_url e) = Returned true)
           links.
Proof.
  intros Hcall. apply fetch_and_extract_cases in Hcall. cbv zeta in Hcall.
  destruct Hcall as [(_ & [= ->] & ->)|(Hnew & Hdepth & Hcall)].
  { cbn. rewrite app_nil_r, union_empty_r_L. split_and!; try done; constructor. }
  destruct Hcall as [(status & text & _ & _ & [= ->] & ->)
                    |[(e & _ & [= ->] & ->)
                     |[(status & text & _ & _ & Hloop)
                      |(x & _ & [=] & _)]]].
  - cbn. rewrite app_nil_r, union_empty_r_L.
    split_and!; try constructor; by destruct st as [? ? ? ? [rows|] ? ?].
  - cbn. rewrite app_nil_r, union_empty_r_L.
    split_and!; try constructor; by destruct st as [? ? ? ? [rows|] ? ?].
  - apply extract_links_spec in Hloop
      as (found & Hlog & Hdisc & _ & Hnodup & Hfound & [-> _]).
    cbn in Hlog, Hdisc. split_and!; try done.
    eapply Forall_impl; [exact Hfound|]. cbn.
    intros e (? & ? & ? & ? & ? & _). by split_and!.
Qed.

(** X2: after a successful fetch that returns, every crawlable internal link
    of the page is discovered: it is among the returned entries unless it
    was discovered before. The broken list and the real-time file are as
    before, and the status is counted once. *)
Theorem fetch_and_extract_discovers_every_link
    url depth max_depth source_url st status text links st' :
  url ∉ visited st → depth ≤ max_depth →
  requests_get url = Response status text → status < 400 →
  fetch_and_extract url base_url depth max_depth source_url st
  = (Returned links, st') →
  (∀ tag_href href,
     tag_href ∈ find_all_href text →
     normalize_url url tag_href = Returned href →
     crawlable href = true →
     is_internal base_url href = Returned true →
     href ∈ discovered st ∨ href ∈ entry_url <$> links)
  ∧ broken st' = broken st
  ∧ realtime_export_file st' = realtime_export_file st
  ∧ stats st' = <[Int status := S (stats_get (Int status) (stats st))]> (stats st).
Proof.
  intros Hnew Hdepth Hresp Hstatus Hcall.
  apply fetch_and_extract_cases in Hcall. cbv zeta in Hcall.
  destruct Hcall as [([?|?] & _)|(_ & _ & Hcall)]; [done|lia|].
  destruct Hcall as [(status' & text' & Hresp' & ? & _)
                    |[(e & Hresp' & _)
                     |[(status' & text' & Hresp' & _ & Hloop)
                      |(x & Hresp' & _)]]];
    rewrite Hresp in Hresp'; try discriminate Hresp'; [simplify_eq; lia|].
  injection Hresp' as <- <-.
  apply extract_links_spec in Hloop
    as (found & Hlog & Hdisc & Hframe & _ & _ & [-> Hall]).
  destruct Hframe as (_ & Hb & Hs & Hr & _).
  cbn in Hdisc, Hb, Hs, Hr. split_and!; try done.
  intros tag href Htag Hnorm Hcrawl Hint.
  specialize (Hall tag href Htag Hnorm Hcrawl Hint).
  rewrite Hdisc in Hall. apply elem_of_union in Hall as [?|Hin]; [by left|].
  right. by apply elem_of_list_to_set in Hin.
Qed.

(** X3: [fetch_and_extract] raises in two ways only. Either
    [requests.get] raised an exception that is not a
    [requests.RequestException]: then it is that exception, and the URL is
    visited and not counted, with nothing else changed. Or the response had
    a status below 400 and a link of the page made [urllib.parse] raise:
    then the status is counted, and the discovered set may hold more than
    before. A caught transport error, an error status or a closed gate
    never make it raise; and when it raises, the broken list and the
    real-time file are as before. (The HTML parser is taken to return its
    list of links, as [find_all_href] has it.) *)
Theorem fetch_and_extract_raises_two_ways
    url depth max_depth source_url st x st' :
  fetch_and_extract url base_url depth max_depth source_url st
  = (Raised x, st') →
  (url ∉ visited st) ∧ depth ≤ max_depth
  ∧ visited st' = {[url]} ∪ visited st
  ∧ broken st' = broken st
  ∧ realtime_export_file st' = realtime_export_file st
  ∧ ((requests_get url = OtherException x
      ∧ stats st' = stats st ∧ discovered st' = discovered st)
     ∨ (∃ status text tag_href,
          requests_get url = Response status text ∧ status < 400
          ∧ tag_href ∈ find_all_href text
          ∧ (normalize_url url tag_href = Raised x
             ∨ ∃ href, normalize_url url tag_href = Returned href
                       ∧ is_internal base_url href = Raised x)
          ∧ stats st'
            = <[Int status := S (stats_get (Int status) (stats st))]>
                (stats st)
          ∧ discovered st ⊆ discovered st')).
Proof.
  intros Hcall. apply fetch_and_extract_cases in Hcall. cbv zeta in Hcall.
  destruct Hcall as [(_ & [=] & _)|(Hnew & Hdepth & Hcall)].
  destruct Hcall as [(status & text & _ & _ & [=] & _)
                    |[(e & _ & [=] & _)
                     |[(status & text & Hresp & Hstatus & Hloop)
                      |(x' & Hresp & [= <-] & ->)]]].
  - apply extract_links_spec in Hloop
      as (found & Hlog & Hdisc & Hframe & _ & _ & (tag & Htag & Hraise)).
    destruct Hframe as (Hv & Hb & Hs & Hfile & _).
    cbn in Hdisc, Hv, Hb, Hs, Hfile. split_and!; try done.
    right. exists status, text, tag. split_and!; try done.
    rewrite Hdisc. apply union_subseteq_l.
  - split_and!; try done. by left.
Qed.

(** X4: a URL is fetched by one call only. After a call at a depth within
    [max_depth], whatever its outcome, the URL is visited, and a further
    call for the same URL, at any depth and from any source, returns the
    empty list and leaves the shared state as it is. *)
Theorem fetch_and_extract_again
    url depth max_depth source_url st r st' depth' source_url' :
  depth ≤ max_depth →
  fetch_and_extract url base_url depth max_depth source_url st = (r, st') →
  url ∈ visited st'
  ∧ fetch_and_extract url base_url depth' max_depth source_url' st'
    = (Returned [], st').
Proof.
  intros Hdepth Hcall.
  assert (url ∈ visited st') as Hvisited.
  { apply fetch_and_extract_cases in Hcall. cbv zeta in Hcall.
    destruct Hcall as [([?|?] & _ & ->)|(_ & _ & Hcall)]; [done|lia|].
    destruct Hcall as [(status & text & _ & _ & _ & ->)
                      |[(e & _ & _ & ->)
                       |[(status & text & _ & _ & Hloop)
                        |(x & _ & _ & ->)]]].
    - destruct st as [? ? ? ? [rows|] ? ?]; cbn;
        apply elem_of_union; left; by apply elem_of_singleton.
    - destruct st as [? ? ? ? [rows|] ? ?]; cbn;
        apply elem_of_union; left; by apply elem_of_singleton.
    - apply extract_links_spec in Hloop as (found & _ & _ & (Hv & _) & _).
      rewrite Hv. cbn. apply elem_of_union. left. by apply elem_of_singleton.
    - cbn. apply elem_of_union. left. by apply elem_of_singleton. }
  split; [done|].
  unfold fetch_and_extract, visit_gate.
  by rewrite bool_decide_eq_true_2.
Qed.

End extraction.

(** ** What a crawl keeps *)

Section growth.
Context `{Ipaddress} `{Web}.
Variables (base_url : string) (max_depth max_workers : Z).

Lemma stats_get_incr key key' (m : gmap value nat) :
  stats_get key (<[key' := S (stats_get key' m)]> m)
  = if decide (key' = key) then S (stats_get key m) else stats_get key m.
Proof.
  unfold stats_get at 1. rewrite lookup_insert.
  destruct (decide (key' = key)) as [->|Hne]; done.
Qed.

Lemma stats_get_touch key key' (m : gmap value nat) :
  stats_get key (stats_touch key' m) = stats_get key m.
Proof.
  unfold stats_touch. destruct (m !! key') as [count|] eqn:Hkey; [done|].
  unfold stats_get. rewrite lookup_insert.
  destruct (decide (key' = key)) as [->|Hne]; [|done]. by rewrite Hkey.
Qed.

(** Reading the histogram for the progress table creates entries but
    changes no count. *)
Lemma stats_get_build_table key st :
  stats_get key (stats (build_table st)) = stats_get key (stats st).
Proof. cbn. by rewrite !stats_get_touch. Qed.

Lemma grows_refl st : grows st st.
Proof.
  unfold grows. split_and!; try done.
  by destruct (realtime_export_file st).
Qed.

Lemma grows_trans st1 st2 st3 : grows st1 st2 → grows st2 st3 → grows st1 st3.
Proof.
  intros (Hv & Hd & Hb & Hq & Hl & Hs & Hr) (Hv' & Hd' & Hb' & Hq' & Hl' & Hs' & Hr').
  unfold grows. split_and!; try (by etrans).
  - intros key. specialize (Hs key). specialize (Hs' key). lia.
  - destruct (realtime_export_file st1), (realtime_export_file st2),
      (realtime_export_file st3); try done. by etrans.
Qed.

Lemma export_row_realtime_grows error url source st :
  grows st (export_row_realtime error url source st).
Proof.
  unfold grows. cbn. split_and!; try done.
  destruct (realtime_export_file st); [|done]. by apply prefix_app_r.
Qed.

Lemma stats_incr_grows key st : grows st (stats_incr key st).
Proof.
  unfold grows. cbn. split_and!; try done.
  - intros key'. rewrite stats_get_incr. case_decide; lia.
  - by destruct (realtime_export_file st).
Qed.

Lemma set_broken_grows record st :
  grows st (set_broken (λ b, b ++ [record]) st).
Proof.
  unfold grows. cbn. split_and!; try done.
  - by apply prefix_app_r.
  - by destruct (realtime_export_file st).
Qed.

Lemma task_trans_grows e p st p' st' :
  task_trans base_url max_depth e p st p' st' → grows st st'.
Proof.
  destruct 1; try apply grows_refl.
  - unfold grows. cbn. split_and!; try done.
    + apply union_subseteq_r.
    + by destruct (realtime_export_file st).
  - unfold grows. cbn. split_and!; try done.
    + by apply prefix_app_r.
    + by destruct (realtime_export_file st).
  - unfold grows. cbn. split_and!; try done.
    + by apply prefix_app_r.
    + by destruct (realtime_export_file st).
  - apply stats_incr_grows.
  - apply stats_incr_grows.
  - unfold record_broken_status.
    eapply grows_trans; [apply set_broken_grows|apply export_row_realtime_grows].
  - unfold record_exception.
    eapply grows_trans; [apply stats_incr_grows|].
    eapply grows_trans; [apply set_broken_grows|apply export_row_realtime_grows].
  - unfold grows. cbn. split_and!; try done.
    + apply union_subseteq_r.
    + by apply prefix_app_r.
    + by destruct (realtime_export_file st).
  - unfold grows. cbn. split_and!; try done.
    + by apply prefix_app_r.
    + by destruct (realtime_export_file st).
Qed.

Lemma build_table_grows st : grows st (build_table st).
Proof.
  unfold grows. split_and!; try done.
  - intros key. by rewrite stats_get_build_table.
  - cbn. by destruct (realtime_export_file st).
Qed.

Lemma sched_trans_grows c c' :
  sched_trans base_url max_depth max_workers c c' →
  grows (shared c) (shared c').
Proof.
  destruct 1; cbn [shared]; try apply grows_refl.
  - by eapply task_trans_grows.
  - apply build_table_grows.
Qed.

(** X5: whatever happens in between, a crawl only adds: a later
    configuration has every visited and discovered URL of an earlier one,
    its broken list, request log, frontier log and real-time file start
    with the earlier ones, and no histogram count is lower. *)
Theorem crawl_only_adds c c' :
  rtc (step base_url max_depth max_workers) c c' →
  grows (shared c) (shared c').
Proof.
  induction 1 as [c|c c1 c' Hstep _ IH]; [apply grows_refl|].
  eapply grows_trans; [|exact IH].
  apply sched_trans_grows. by apply step_sched_trans.
Qed.

End growth.

(** ** Where frontier entries come from *)

Section links.
Context `{Ipaddress} `{Web}.
Variables (base_url : string) (max_depth max_workers : Z).

Local Abbreviation trans := (sched_trans base_url max_depth max_workers).

Lemma links_ok_start export_realtime :
  links_ok base_url max_depth
    (crawl_start base_url max_workers (initial_state export_realtime)).
Proof.
  unfold links_ok, crawl_start. cbn. split_and!; try done.
  - apply NoDup_singleton.
  - repeat constructor.
  - repeat constructor.
Qed.

(** The facts about one future survive when the log and the visited set
    grow. *)
Lemma future_logged_mono (log log' : list entry) (seen seen' : gset string) f :
  (∀ e, e ∈ log → e ∈ log') → seen ⊆ seen' →
  fut_entry f ∈ log
  ∧ Forall (λ e, e ∈ log) (collected f)
  ∧ (past_gate (fut_pc f) = true →
     entry_url (fut_entry f) ∈ seen ∧ entry_depth (fut_entry f) ≤ max_depth) →
  fut_entry f ∈ log'
  ∧ Forall (λ e, e ∈ log') (collected f)
  ∧ (past_gate (fut_pc f) = true →
     entry_url (fut_entry f) ∈ seen' ∧ entry_depth (fut_entry f) ≤ max_depth).
Proof.
  intros Hlog Hseen (He & Hc & Hp). split_and!.
  - by apply Hlog.
  - eapply Forall_impl; [exact Hc|]. cbn. auto.
  - intros Hpast. destruct (Hp Hpast). split; [by apply Hseen|done].
Qed.

Lemma parent_mono (log log' : list entry) (seen seen' : gset string) e :
  (∀ e, e ∈ log → e ∈ log') → seen ⊆ seen' →
  e = (base_url, 0, "root")
  ∨ (∃ parent, parent ∈ log ∧ entry_source e = entry_url parent
       ∧ entry_depth e = entry_depth parent + 1
       ∧ entry_depth parent ≤ max_depth ∧ entry_url parent ∈ seen) →
  e = (base_url, 0, "root")
  ∨ (∃ parent, parent ∈ log' ∧ entry_source e = entry_url parent
       ∧ entry_depth e = entry_depth parent + 1
       ∧ entry_depth parent ≤ max_depth ∧ entry_url parent ∈ seen').
Proof.
  intros Hlog Hseen [->|(parent & ? & ? & ? & ? & ?)]; [by left|].
  right. exists parent. split_and!; try done; [by apply Hlog|by apply Hseen].
Qed.

Local Ltac keep :=
  destruct_and?; split_and!;
  try assumption; try exact I; try apply Forall_nil_2.

Lemma links_ok_step c c' :
  links_ok base_url max_depth c → trans c c' → links_ok base_url max_depth c'.
Proof.
  intros (Hdisc & Hnodup & Hsub & Hqueue & Hfut & Hlog & Hwithin) Htrans.
  destruct Htrans as [| | | | | |st q pre post e y ph Hrun
                      |st q pre post e p y ph p' st' Hp Htask| |];
    unfold links_ok in *; cbn [shared futures queue] in *;
    rewrite ?Forall_app, ?Forall_cons, ?Forall_nil in *;
    cbn [fut_entry fut_pc collected past_gate] in *.
  - keep.
  - keep.
  - destruct Hqueue as [He Hqueue]. keep; try by intros [=].
  - keep.
  - keep.
  - keep.
  - destruct Hfut as (Hpre & (He & _ & _) & Hpost).
    keep; try by intros [=].
  - destruct Hfut as (Hpre & (He & Hcoll & Hpast) & Hpost).
    destruct Htask as [| | | | | | | | |
                       |st tag_href hrefs result_links href Hnorm Hfresh| |];
      cbn [fut_entry fut_pc collected past_gate visited discovered frontier_log
           set_visited set_requests_log stats_incr set_stats
           record_broken_status record_exception export_row_realtime
           set_realtime_export_file set_broken set_frontier_log
           set_discovered] in *.
    + keep; try by intros [=].
    + assert (visited st ⊆ {[entry_url e]} ∪ visited st) as Hgrow
        by apply union_subseteq_r.
      keep.
      * apply union_subseteq. split; [|done].
        apply singleton_subseteq_l. rewrite Hdisc.
        apply elem_of_list_to_set. by apply list_elem_of_fmap_2.
      * eapply Forall_impl; [exact Hpre|]. intros f.
        by apply future_logged_mono.
      * intros _. split; [|done]. apply elem_of_union. left.
        by apply elem_of_singleton.
      * eapply Forall_impl; [exact Hpost|]. intros f.
        by apply future_logged_mono.
      * eapply Forall_impl; [exact Hlog|]. intros e'.
        by apply parent_mono.
      * intros url [->%elem_of_singleton|Hurl]%elem_of_union; [by exists e|].
        by apply Hwithin.
    + keep.
    + keep.
    + keep.
    + keep.
    + keep; try by intros [=].
    + keep; try by intros [=].
    + keep; try by intros [=].
    + keep.
    + destruct (Hpast eq_refl) as [Hvisited Hdepth].
      assert (∀ e', e' ∈ frontier_log st →
                    e' ∈ frontier_log st
                           ++ [(href, entry_depth e + 1, entry_url e)])
        as Hgrow by (intros e' He'; apply elem_of_app; by left).
      assert (Hnew : (href, entry_depth e + 1, entry_url e)
                     ∈ frontier_log st
                         ++ [(href, entry_depth e + 1, entry_url e)])
        by (apply elem_of_app; right; by left).
      keep.
      * rewrite fmap_app, list_to_set_app_L, <- Hdisc. cbn.
        rewrite union_empty_r_L. apply (comm_L (∪)).
      * rewrite fmap_app. apply NoDup_app. split_and!; [done| |].
        -- intros url Hurl Hin. cbn in Hin.
           apply list_elem_of_singleton in Hin as ->.
           apply Hfresh. rewrite Hdisc. by apply elem_of_list_to_set.
        -- cbn. apply NoDup_singleton.
      * by apply union_subseteq_r'.
      * eapply Forall_impl; [exact Hqueue|]. cbn. auto.
      * eapply Forall_impl; [exact Hpre|]. intros f.
        by apply future_logged_mono.
      * by apply Hgrow.
      * apply Forall_app. split; [|by apply Forall_singleton].
        eapply Forall_impl; [exact Hcoll|]. cbn. auto.
      * eapply Forall_impl; [exact Hpost|]. intros f.
        by apply future_logged_mono.
      * apply Forall_app. split.
        -- eapply Forall_impl; [exact Hlog|]. intros e'.
           by apply parent_mono.
        -- apply Forall_singleton. right. exists e.
           split_and!; try done. by apply Hgrow.
      * intros url (e' & He' & Hurl)%Hwithin. exists e'.
        split; [by apply Hgrow|done].
    + keep; try by intros [=].
    + keep; try by intros [=].
  - destruct Hfut as (Hpre & (He & Hcoll & _) & Hpost).
    keep; try by intros [=].
  - keep.
Qed.

End links.

(** ** What is reported *)

Section reports.
Context `{Ipaddress} `{Web}.
Variables (base_url : string) (max_depth max_workers : Z).

Local Abbreviation trans := (sched_trans base_url max_depth max_workers).

Lemma report_urls_ok_start export_realtime :
  report_urls_ok
    (crawl_start base_url max_workers (initial_state export_realtime)).
Proof.
  unfold report_urls_ok. cbn. split; [apply NoDup_nil_2|].
  by intros url ?%elem_of_nil.
Qed.

Lemma report_urls_ok_step c c' :
  report_urls_ok c → trans c c' → report_urls_ok c'.
Proof.
  intros [Hnodup Hvisited] Htrans.
  destruct Htrans as [| | | | | | |st q pre post e p y ph p' st' Hp Htask| |];
    unfold report_urls_ok in *; cbn [shared futures] in *;
    rewrite ?bind_app, ?bind_cons in *;
    cbn [pending_report fut_pc mbind list_bind] in *;
    rewrite ?app_nil_r in *;
    try done.
  - apply NoDup_app in Hnodup as (? & _ & _).
    split; [done|]. intros url Hurl. apply Hvisited.
    apply elem_of_app. by left.
  - destruct Htask;
      cbn [pending_report fut_pc fut_entry broken visited set_visited
           set_requests_log stats_incr set_stats record_broken_status
           record_exception export_row_realtime set_realtime_export_file
           set_broken set_frontier_log set_discovered] in *;
      rewrite ?app_nil_l, ?fmap_app in *; cbn [fmap list_fmap] in *;
      try done.
    + assert ((broken_url <$> broken st) ++ (pre ≫= pending_report)
                ++ [entry_url e] ++ post ≫= pending_report
              ≡ₚ entry_url e :: (broken_url <$> broken st)
                   ++ (pre ≫= pending_report) ++ post ≫= pending_report)
        as Hperm.
      { by rewrite !Permutation_middle. }
      split.
      * rewrite Hperm. apply NoDup_cons. split; [|done].
        intros Hin. by apply Hvisited in Hin.
      * intros url Hin. rewrite Hperm in Hin.
        apply elem_of_cons in Hin as [->|Hin].
        -- apply elem_of_union. left. by apply elem_of_singleton.
        -- apply elem_of_union. right. by apply Hvisited.
    + assert ((broken_url <$> broken st) ++ (pre ≫= pending_report)
                ++ post ≫= pending_report
              `sublist_of` (broken_url <$> broken st)
                   ++ (pre ≫= pending_report)
                   ++ [entry_url e] ++ post ≫= pending_report) as Hsub.
      { apply sublist_app; [done|]. apply sublist_app; [done|].
        by apply sublist_inserts_l. }
      split; [by eapply sublist_NoDup|].
      intros url Hin. apply Hvisited. by eapply elem_of_sublist.
    + assert (((broken_url <$> broken st) ++ [entry_url e])
                ++ (pre ≫= pending_report) ++ post ≫= pending_report
              ≡ₚ (broken_url <$> broken st) ++ (pre ≫= pending_report)
                   ++ [entry_url e] ++ post ≫= pending_report) as Hperm.
      { rewrite <- !app_assoc. f_equiv. cbn. by rewrite Permutation_middle. }
      split; [by rewrite Hperm|].
      intros url Hin. rewrite Hperm in Hin. by apply Hvisited.
    + assert (((broken_url <$> broken st) ++ [entry_url e])
                ++ (pre ≫= pending_report) ++ post ≫= pending_report
              ≡ₚ (broken_url <$> broken st) ++ (pre ≫= pending_report)
                   ++ [entry_url e] ++ post ≫= pending_report) as Hperm.
      { rewrite <- !app_assoc. f_equiv. cbn. by rewrite Permutation_middle. }
      split; [by rewrite Hperm|].
      intros url Hin. rewrite Hperm in Hin. by apply Hvisited.
    + assert ((broken_url <$> broken st) ++ (pre ≫= pending_report)
                ++ post ≫= pending_report
              `sublist_of` (broken_url <$> broken st)
                   ++ (pre ≫= pending_report)
                   ++ [entry_url e] ++ post ≫= pending_report) as Hsub.
      { apply sublist_app; [done|]. apply sublist_app; [done|].
        by apply sublist_inserts_l. }
      split; [by eapply sublist_NoDup|].
      intros url Hin. apply Hvisited. by eapply elem_of_sublist.
Qed.

Local Ltac keep :=
  destruct_and?; split_and!;
  try assumption; try exact I; try apply Forall_nil_2.

Lemma report_tuples_ok_start export_realtime :
  report_tuples_ok
    (crawl_start base_url max_workers (initial_state export_realtime)).
Proof. unfold report_tuples_ok. cbn. split; apply Forall_nil_2. Qed.

Lemma report_tuples_ok_step c c' :
  report_tuples_ok c → links_ok base_url max_depth c → trans c c' →
  report_tuples_ok c'.
Proof.
  intros [Hrec Hbrk] (_ & _ & _ & _ & Hfut & _) Htrans.
  destruct Htrans as [| | | | | | |st q pre post e p y ph p' st' Hp Htask| |];
    unfold report_tuples_ok in *; cbn [shared futures] in *;
    rewrite ?Forall_app, ?Forall_cons in *; cbn [fut_pc fut_entry] in *;
    try by keep.
  destruct Hfut as (_ & (He & _) & _). destruct Hbrk as (Hpre & Hstatus & Hpost).
  destruct Htask as [| | | |st status text Hbroken| | | | |
                     |st tag_href hrefs result_links href Hnorm Hfresh| |];
    cbn [broken frontier_log set_visited
         set_requests_log stats_incr set_stats record_broken_status
         record_exception export_row_realtime set_realtime_export_file
         set_broken set_frontier_log set_discovered] in *;
    try by keep.
  - split; [|done]. apply Forall_app. split; [done|].
    apply Forall_singleton. split; [|done].
    exists (entry_depth e). by destruct e as [[url depth] source].
  - split; [|done]. apply Forall_app. split; [done|].
    apply Forall_singleton. split; [|done].
    exists (entry_depth e). by destruct e as [[url depth] source].
  - split; [|done]. eapply Forall_impl; [exact Hrec|].
    intros record [[depth Hlogged] ?]. split; [|done].
    exists depth. apply elem_of_app. by left.
Qed.

(** *** Counts *)

Lemma count_status_snoc status broken record :
  count_status status (broken ++ [record])
  = (count_status status broken
     + if bool_decide (record.1.2 = Int status) then 1 else 0)%nat.
Proof.
  unfold count_status. rewrite List.filter_app, length_app. cbn.
  by destruct (bool_decide _).
Qed.

Lemma count_errors_snoc broken record :
  count_errors (broken ++ [record])
  = (count_errors broken
     + match record.1.2 with Str _ => 1 | Int _ => 0 end)%nat.
Proof.
  unfold count_errors. rewrite List.filter_app, length_app. cbn.
  by destruct (record.1.2).
Qed.

Lemma awaiting_record_app status fs1 fs2 :
  awaiting_record status (fs1 ++ fs2)
  = (awaiting_record status fs1 + awaiting_record status fs2)%nat.
Proof. unfold awaiting_record. by rewrite List.filter_app, length_app. Qed.

Lemma awaiting_record_cons status f fs :
  awaiting_record status (f :: fs)
  = ((match fut_pc f with
      | AtBroken status' => if bool_decide (status' = status) then 1 else 0
      | _ => 0
      end) + awaiting_record status fs)%nat.
Proof.
  unfold awaiting_record. cbn. destruct (fut_pc f); try done.
  by destruct (bool_decide _).
Qed.

Lemma awaiting_record_nil status : awaiting_record status [] = 0%nat.
Proof. done. Qed.

Lemma awaiting_record_finished status fs :
  Forall (λ f, is_finished (fut_pc f) = true) fs →
  awaiting_record status fs = 0%nat.
Proof.
  induction 1 as [|[e p y] fs Hf _ IH]; [done|].
  rewrite awaiting_record_cons, IH. by destruct p.
Qed.

Lemma report_counts_ok_start export_realtime :
  report_counts_ok
    (crawl_start base_url max_workers (initial_state export_realtime)).
Proof.
  unfold report_counts_ok. cbn. split; [|done].
  intros status _.
  change (stats_get (Int status)
            (stats (build_table (initial_state export_realtime))) = 0%nat).
  by rewrite stats_get_build_table.
Qed.

Lemma report_counts_ok_step c c' :
  report_counts_ok c → phase_ok c → trans c c' → report_counts_ok c'.
Proof.
  intros [Hcount Herror] Hphase Htrans.
  unfold report_counts_ok.
  destruct Htrans as [|st e q fs| | | | |
                      |st q pre post e p y ph p' st' Hp Htask| |];
    cbn [shared futures] in *;
    try (split; [|done]; intros status Hstatus;
         specialize (Hcount status Hstatus);
         rewrite ?awaiting_record_app, ?awaiting_record_cons,
           ?awaiting_record_nil in *;
         cbn [fut_pc] in *; lia).
  - split; [|done]. intros status Hstatus. rewrite (Hcount status Hstatus).
    f_equal. cbn. apply awaiting_record_finished.
    eapply Forall_impl; [by apply (between_waves_finished _ Hphase)|].
    by intros f [_ [r ->]].
  - destruct Htask as [| | | |st status text Hbroken|st status text Hfine
                       |st status|st x| | | | |];
      cbn [broken stats set_visited
           set_requests_log stats_incr set_stats record_broken_status
           record_exception export_row_realtime set_realtime_export_file
           set_broken set_frontier_log set_discovered] in *;
      try (split; [|done]; intros status' Hstatus;
           specialize (Hcount status' Hstatus);
           rewrite ?awaiting_record_app, ?awaiting_record_cons,
           ?awaiting_record_nil in *;
           cbn [fut_pc] in *; lia).
    + split.
      * intros status' Hstatus. specialize (Hcount status' Hstatus).
        rewrite ?awaiting_record_app, ?awaiting_record_cons,
           ?awaiting_record_nil in *.
        cbn [fut_pc] in *. rewrite stats_get_incr.
        destruct (decide (Int status = Int status')) as [[= ->]|Hne].
        -- rewrite bool_decide_eq_true_2 by done. lia.
        -- rewrite bool_decide_eq_false_2 by congruence. lia.
      * by rewrite stats_get_incr.
    + split.
      * intros status' Hstatus. specialize (Hcount status' Hstatus).
        rewrite ?awaiting_record_app, ?awaiting_record_cons,
           ?awaiting_record_nil in *.
        cbn [fut_pc] in *. rewrite stats_get_incr.
        destruct (decide (Int status = Int status')) as [[= ->]|Hne]; lia.
      * by rewrite stats_get_incr.
    + split.
      * intros status' Hstatus. specialize (Hcount status' Hstatus).
        rewrite ?awaiting_record_app, ?awaiting_record_cons,
           ?awaiting_record_nil in *.
        cbn [fut_pc] in *. rewrite count_status_snoc. cbn.
        destruct (decide (status = status')) as [->|Hne].
        -- rewrite !bool_decide_eq_true_2 in * by done. lia.
        -- rewrite !bool_decide_eq_false_2 in * by congruence. lia.
      * by rewrite count_errors_snoc, Nat.add_0_r.
    + split.
      * intros status' Hstatus. specialize (Hcount status' Hstatus).
        rewrite ?awaiting_record_app, ?awaiting_record_cons,
           ?awaiting_record_nil in *.
        cbn [fut_pc] in *. rewrite count_status_snoc, stats_get_incr. cbn.
        rewrite decide_False, bool_decide_eq_false_2 by done. lia.
      * rewrite count_errors_snoc, stats_get_incr. cbn.
        rewrite decide_True by done. lia.
  - split.
    + intros status Hstatus. rewrite stats_get_build_table.
      specialize (Hcount status Hstatus).
      rewrite ?awaiting_record_app, ?awaiting_record_cons,
           ?awaiting_record_nil in *.
      cbn [fut_pc] in *.
      change (broken (build_table st)) with (broken st). lia.
    + rewrite stats_get_build_table.
      by change (broken (build_table st)) with (broken st).
Qed.

(** *** The real-time file *)

Lemma realtime_ok_start export_realtime :
  realtime_ok export_realtime
    (crawl_start base_url max_workers (initial_state export_realtime)).
Proof. unfold realtime_ok. cbn. by destruct export_realtime. Qed.

Lemma realtime_ok_step export_realtime c c' :
  realtime_ok export_realtime c → trans c c' → realtime_ok export_realtime c'.
Proof.
  intros Hfile Htrans. unfold realtime_ok in *.
  destruct Htrans as [| | | | | | |st q pre post e p y ph p' st' Hp Htask| |];
    cbn [shared] in *; try done.
  destruct Htask;
    cbn [broken realtime_export_file set_visited
         set_requests_log stats_incr set_stats record_broken_status
         record_exception export_row_realtime set_realtime_export_file
         set_broken set_frontier_log set_discovered] in *;
    try done.
  - rewrite Hfile. destruct export_realtime; [|done].
    by rewrite map_app, app_comm_cons.
  - rewrite Hfile. destruct export_realtime; [|done].
    by rewrite map_app, app_comm_cons.
Qed.

Lemma reports_ok_start export_realtime :
  reports_ok export_realtime
    (crawl_start base_url max_workers (initial_state export_realtime)).
Proof.
  split_and!;
    auto using report_urls_ok_start, report_tuples_ok_start,
               report_counts_ok_start, realtime_ok_start.
Qed.

Lemma reports_ok_step export_realtime c c' :
  reports_ok export_realtime c → phase_ok c → links_ok base_url max_depth c →
  trans c c' → reports_ok export_realtime c'.
Proof.
  intros (? & ? & ? & ?) ? ? ?.
  split_and!;
    eauto using report_urls_ok_step, report_tuples_ok_step,
                report_counts_ok_step, realtime_ok_step.
Qed.

End reports.

(** ** Requests *)

Section requests.
Context `{Ipaddress} `{Web}.
Variables (base_url : string) (max_depth max_workers : Z).

Local Abbreviation trans := (sched_trans base_url max_depth max_workers).

Lemma requesting_finished fs :
  Forall (λ f, is_finished (fut_pc f) = true) fs → fs ≫= requesting = [].
Proof.
  induction 1 as [|[e p y] fs Hf _ IH]; [done|].
  rewrite bind_cons, IH. by destruct p.
Qed.

Lemma requests_match_start export_realtime :
  requests_match
    (crawl_start base_url max_workers (initial_state export_realtime)).
Proof. unfold requests_match. by cbn. Qed.

Lemma requests_match_step c c' :
  requests_match c → phase_ok c → trans c c' → requests_match c'.
Proof.
  intros Hmatch Hphase Htrans. unfold requests_match in *.
  destruct Htrans as [|st e q fs| | | | |
                      |st q pre post e p y ph p' st' Hp Htask| |];
    cbn [shared futures] in *;
    rewrite ?bind_app, ?bind_cons in *;
    cbn [requesting fut_pc mbind list_bind] in *;
    rewrite ?app_nil_r in *;
    try done.
  - rewrite Hmatch. f_equal. rewrite requesting_finished; [by rewrite app_nil_r|].
    eapply Forall_impl; [by apply (between_waves_finished _ Hphase)|].
    by intros f [_ [r ->]].
  - destruct Htask;
      cbn [requesting fut_pc fut_entry requests_log visited set_visited
           set_requests_log stats_incr set_stats record_broken_status
           record_exception export_row_realtime set_realtime_export_file
           set_broken set_frontier_log set_discovered] in *;
      rewrite ?app_nil_l in *; try done.
    + rewrite Hmatch, !list_to_set_app_L. cbn. rewrite union_empty_r_L.
      apply set_eq. intros url. rewrite !elem_of_union. tauto.
    + rewrite Hmatch, !list_to_set_app_L. cbn. rewrite union_empty_r_L.
      apply set_eq. intros url. rewrite !elem_of_union. tauto.
    + rewrite Hmatch, !list_to_set_app_L. cbn. rewrite union_empty_r_L.
      apply set_eq. intros url. rewrite !elem_of_union. tauto.
    + rewrite Hmatch, !list_to_set_app_L. cbn. rewrite union_empty_r_L.
      apply set_eq. intros url. rewrite !elem_of_union. tauto.
Qed.

End requests.

(** ** More about the crawl as a whole *)

Section more_crawl_theorems.
Context `{Ipaddress} `{Web}.
Variables (base_url : string) (max_depth max_workers : Z).
Variable export_realtime : bool.

Lemma reachable_reports c :
  reachable base_url max_depth max_workers export_realtime c →
  phase_ok c ∧ links_ok base_url max_depth c ∧ reports_ok export_realtime c
  ∧ requests_match c.
Proof.
  revert c. apply reachable_ind.
  - split_and!.
    + apply phase_ok_start.
    + apply links_ok_start.
    + apply reports_ok_start.
    + apply requests_match_start.
  - intros c c' (Hphase & Hlinks & Hreports & Hmatch) Htrans.
    split_and!.
    + by eapply phase_ok_step.
    + by eapply links_ok_step.
    + by eapply reports_ok_step.
    + by eapply requests_match_step.
Qed.

Lemma awaiting_record_idle status fs :
  Forall (λ f, is_running (fut_pc f) = false) fs →
  awaiting_record status fs = 0%nat.
Proof.
  induction 1 as [|[e p y] fs Hf _ IH]; [done|].
  rewrite awaiting_record_cons, IH. by destruct p.
Qed.

Lemma requesting_idle fs :
  Forall (λ f, is_running (fut_pc f) = false) fs → fs ≫= requesting = [].
Proof.
  induction 1 as [|[e p y] fs Hf _ IH]; [done|].
  rewrite bind_cons, IH. by destruct p.
Qed.

(** X6: every frontier entry but the start URL was found on a page that went
    through the gate within [max_depth], and is one level deeper than that
    page and carries its URL as source; and every visited URL has an entry
    of a depth from 0 to [max_depth]. *)
Theorem frontier_entries_come_from_visited_pages c :
  reachable base_url max_depth max_workers export_realtime c →
  Forall (λ e, e = (base_url, 0, "root")
               ∨ ∃ parent, parent ∈ frontier_log (shared c)
                   ∧ entry_source e = entry_url parent
                   ∧ entry_depth e = entry_depth parent + 1
                   ∧ 0 ≤ entry_depth parent ≤ max_depth
                   ∧ entry_url parent ∈ visited (shared c))
         (frontier_log (shared c))
  ∧ (∀ url, url ∈ visited (shared c) →
            ∃ e, e ∈ frontier_log (shared c) ∧ entry_url e = url
                 ∧ 0 ≤ entry_depth e ≤ max_depth).
Proof.
  intros Hreach.
  pose proof (reachable_invariants _ _ _ _ _ Hreach)
    as (_ & _ & _ & ((found & Hfound & Hdeep) & _) & _).
  pose proof (reachable_reports _ Hreach)
    as (_ & (_ & _ & _ & _ & _ & Hlog & Hwithin) & _).
  assert (Hdepth : ∀ e, e ∈ frontier_log (shared c) → 0 ≤ entry_depth e).
  { intros e. rewrite Hfound. intros [->|He]%elem_of_cons; [done|].
    rewrite Forall_forall in Hdeep. apply Hdeep in He. lia. }
  split.
  - eapply Forall_impl; [exact Hlog|]. cbn.
    intros e [->|(parent & Hparent & ? & ? & ? & ?)]; [by left|].
    right. exists parent. split_and!; try done. by apply Hdepth.
  - intros url (e & He & Hurl & ?)%Hwithin. exists e.
    split_and!; try done. by apply Hdepth.
Qed.

(** X7: with a negative [max_depth] nothing is fetched: no URL is marked
    visited, requested or reported. *)
Theorem negative_max_depth_fetches_nothing c :
  max_depth < 0 →
  reachable base_url max_depth max_workers export_realtime c →
  visited (shared c) = ∅ ∧ requests_log (shared c) = []
  ∧ broken (shared c) = [].
Proof.
  intros Hneg Hreach.
  pose proof (reachable_invariants _ _ _ _ _ Hreach)
    as (_ & [_ Hrequested] & _ & ((found & Hfound & Hdeep) & _) & _).
  pose proof (reachable_reports _ Hreach)
    as (_ & (_ & _ & _ & _ & _ & _ & Hwithin)
        & ([_ Hreported] & _) & _).
  assert (Hnone : ∀ url, url ∉ visited (shared c)).
  { intros url (e & He & _ & Hdepth)%Hwithin.
    rewrite Hfound in He. apply elem_of_cons in He as [->|He]; [cbn in *; lia|].
    rewrite Forall_forall in Hdeep. apply Hdeep in He. lia. }
  split_and!.
  - apply set_eq. intros url. split; [by intros ?%Hnone|].
    by intros ?%elem_of_empty.
  - destruct (requests_log (shared c)) as [|url l] eqn:Hlog; [done|].
    destruct (Hnone url). apply Hrequested, elem_of_app. left. by left.
  - destruct (broken (shared c)) as [|record l] eqn:Hbroken; [done|].
    destruct (Hnone (broken_url record)).
    apply Hreported, elem_of_app. left. by left.
Qed.

(** X8: the real-time file, when [main] opened one, always holds the header
    and, in the order of the broken list, one row per broken-link tuple:
    the status or [ERROR], the URL and the source. Without
    [--export-realtime] there is no file. *)
Theorem realtime_export_mirrors_broken c :
  reachable base_url max_depth max_workers export_realtime c →
  realtime_export_file (shared c)
  = if export_realtime
    then Some (csv_header :: map realtime_row (broken (shared c)))
    else None.
Proof. by intros (_ & _ & (_ & _ & _ & Hfile) & _)%reachable_reports. Qed.

(** X9: no URL is reported broken twice; each reported URL is visited, its
    tuple carries the source of a frontier entry of that URL, and a
    reported status is 400 or more. *)
Theorem broken_reported_once c :
  reachable base_url max_depth max_workers export_realtime c →
  NoDup (broken_url <$> broken (shared c))
  ∧ Forall (λ record,
              record.1.1 ∈ visited (shared c)
              ∧ (∃ depth, (record.1.1, depth, record.2)
                          ∈ frontier_log (shared c))
              ∧ match record.1.2 with
                | Int status => 400 ≤ status
                | Str _ => True
                end)
           (broken (shared c)).
Proof.
  intros (_ & _ & ([Hnodup Hvisited] & [Hrec _] & _) & _)%reachable_reports.
  split; [by apply NoDup_app in Hnodup as (? & _ & _)|].
  rewrite Forall_forall in *. intros record Hrecord.
  destruct (Hrec _ Hrecord). split_and!; try done.
  apply Hvisited, elem_of_app. left.
  by apply (list_elem_of_fmap_2 broken_url).
Qed.

(** X10: the [error] count is at all times the number of error tuples in the
    broken list. Whenever no task is running, and in particular when
    [crawl_concurrent] has returned or raised, the count of each status of
    400 or more is the number of tuples with that status. *)
Theorem histogram_counts_broken c :
  reachable base_url max_depth max_workers export_realtime c →
  stats_get (Str "error") (stats (shared c)) = count_errors (broken (shared c))
  ∧ (Forall (λ f, is_running (fut_pc f) = false) (futures c) →
     ∀ status, 400 ≤ status →
       stats_get (Int status) (stats (shared c))
       = count_status status (broken (shared c)))
  ∧ (at_phase c = Done ∨ (∃ x, at_phase c = Failed x) →
     ∀ status, 400 ≤ status →
       stats_get (Int status) (stats (shared c))
       = count_status status (broken (shared c))).
Proof.
  intros (Hphase & _ & (_ & _ & [Hcount Herror] & _) & _)%reachable_reports.
  split_and!; [done| |].
  - intros Hidle status Hstatus. rewrite (Hcount _ Hstatus).
    rewrite awaiting_record_idle by done. lia.
  - intros Hexit status Hstatus. rewrite (Hcount _ Hstatus).
    rewrite awaiting_record_idle; [lia|].
    by apply finished_idle, phase_ok_exit.
Qed.

(** X11: whenever no task is running, and in particular when [crawl_concurrent]
    has returned or raised, the visited URLs are exactly the requested
    ones, each requested once. *)
Theorem visited_are_requested c :
  reachable base_url max_depth max_workers export_realtime c →
  (Forall (λ f, is_running (fut_pc f) = false) (futures c) →
   visited (shared c) = list_to_set (requests_log (shared c))
   ∧ length (requests_log (shared c)) = size (visited (shared c)))
  ∧ (at_phase c = Done ∨ (∃ x, at_phase c = Failed x) →
     visited (shared c) = list_to_set (requests_log (shared c))
     ∧ length (requests_log (shared c)) = size (visited (shared c))).
Proof.
  intros Hreach.
  pose proof (reachable_invariants _ _ _ _ _ Hreach)
    as (_ & [Hnodup _] & _).
  pose proof (reachable_reports _ Hreach) as (Hphase & _ & _ & Hmatch).
  assert (Hidle : Forall (λ f, is_running (fut_pc f) = false) (futures c) →
                  visited (shared c) = list_to_set (requests_log (shared c))
                  ∧ length (requests_log (shared c))
                    = size (visited (shared c))).
  { intros Hidle. unfold requests_match in Hmatch.
    rewrite (requesting_idle _ Hidle), app_nil_r in Hmatch, Hnodup.
    split; [done|]. rewrite Hmatch. by rewrite size_list_to_set. }
  split; [done|]. intros Hexit. apply Hidle.
  by apply finished_idle, phase_ok_exit.
Qed.

End more_crawl_theorems.

(** ** The two exports *)

Lemma export_errors_to_csv_filters broken csvfile :
  foldl (λ csvfile '(url, err, source),
           match err with
           | Int code =>
               if bool_decide (code ∈ [400; 404; 500])
               then writerow [Int code; Str url; Str source] csvfile
               else csvfile
           | Str _ => writerow [Str "ERROR"; Str url; Str source] csvfile
           end) csvfile broken
  = csvfile ++ List.filter in_final_export (map realtime_row broken).
Proof.
  revert csvfile. induction broken as [|[[url err] source] broken IH];
    intros csvfile; cbn [foldl map List.filter realtime_row in_final_export].
  - by rewrite app_nil_r.
  - rewrite IH. destruct err as [code|msg].
    + destruct (bool_decide _); [|done].
      unfold writerow. by rewrite <- app_assoc.
    + unfold writerow. by rewrite <- app_assoc.
Qed.

Section exports.
Context `{Ipaddress} `{Web}.
Variables (base_url : string) (max_depth max_workers : Z).
Variable export_realtime : bool.

(** X14: at any moment of a crawl, what [export_errors_to_csv] would write is
    the real-time file without the rows of a status other than 400, 404 and
    500: the same header and the same rows, in the same order. *)
Theorem final_export_filters_realtime c rows :
  reachable base_url max_depth max_workers export_realtime c →
  realtime_export_file (shared c) = Some rows →
  export_errors_to_csv (broken (shared c)) = List.filter in_final_export rows.
Proof.
  intros (_ & _ & (_ & _ & _ & Hfile) & _)%reachable_reports Hrows.
  unfold realtime_ok in Hfile. cbv zeta in Hfile. rewrite Hrows in Hfile.
  destruct export_realtime; [|done]. injection Hfile as ->.
  unfold export_errors_to_csv. by rewrite export_errors_to_csv_filters.
Qed.

End exports.

(** ** The progress table *)

Lemma stats_touch_present key (m : gmap value nat) :
  is_Some (m !! key) → stats_touch key m = m.
Proof. intros [count Hkey]. unfold stats_touch. by rewrite Hkey. Qed.

Lemma dom_stats_touch key (m : gmap value nat) :
  dom (stats_touch key m) = {[key]} ∪ dom m.
Proof.
  unfold stats_touch. destruct (m !! key) as [count|] eqn:Hkey.
  - apply set_eq. intros key'. rewrite elem_of_union, elem_of_singleton.
    split; [by right|]. intros [->|?]; [|done]. by apply elem_of_dom.
  - by rewrite dom_insert_L.
Qed.

Lemma touch_all_present keys (m : gmap value nat) :
  (∀ key, key ∈ keys → is_Some (m !! key)) →
  foldl (λ m key, stats_touch key m) m keys = m.
Proof.
  induction keys as [|key keys IH]; intros Hkeys; [done|]. cbn [foldl].
  rewrite stats_touch_present by (apply Hkeys; by left).
  apply IH. intros key' Hkey'. apply Hkeys. by right.
Qed.

(** X15: [build_table] changes no count, and so not their sum; reading the five
    counts it shows creates the missing ones among them, as zero, and
    nothing else: a second call changes nothing. *)
Theorem build_table_reads_only st :
  (∀ key, stats_get key (stats (build_table st)) = stats_get key (stats st))
  ∧ stats_total (stats (build_table st)) = stats_total (stats st)
  ∧ dom (stats (build_table st))
    = dom (stats st)
        ∪ {[Int 200; Int 400; Int 404; Int 500; Str "error"]}
  ∧ build_table (build_table st) = build_table st.
Proof.
  assert (Hdom : dom (stats (build_table st))
                 = dom (stats st)
                     ∪ {[Int 200; Int 400; Int 404; Int 500; Str "error"]}).
  { cbn. rewrite !dom_stats_touch. apply set_eq. intros key.
    rewrite !elem_of_union. tauto. }
  split_and!.
  - intros key. apply stats_get_build_table.
  - apply stats_total_build_table.
  - done.
  - assert (Hkey : ∀ key,
               key ∈ [Int 200; Int 400; Int 404; Int 500; Str "error"] →
               is_Some (stats (build_table st) !! key)).
    { intros key Hkey. apply elem_of_dom. rewrite Hdom.
      apply elem_of_union. right.
      rewrite !elem_of_cons in Hkey.
      rewrite !elem_of_union, !elem_of_singleton.
      destruct Hkey as [?|[?|[?|[?|[?|?%elem_of_nil]]]]]; tauto. }
    unfold build_table at 1. unfold set_stats.
    rewrite touch_all_present by done. by destruct (build_table st).
Qed.

(** ** More of the model at work *)

Section more_examples.
#[local] Existing Instance Example_site.ipaddress.
#[local] Existing Instance Example_site.web.
Import Example_site.

Lemma fetch_and_extract_returns_new_links_witness :
  ∃ st',
    fetch_and_extract base_url base_url 0 2 "root" (initial_state false)
    = (Returned [("https://example.com/a", 1, base_url);
                 ("https://example.com/b", 1, base_url)], st')
    ∧ frontier_log st'
      = [("https://example.com/a", 1, base_url);
         ("https://example.com/b", 1, base_url)].
Proof.
  destruct (fetch_and_extract base_url base_url 0 2 "root"
              (initial_state false)) as [r st'] eqn:Hcall.
  pose proof (f_equal fst Hcall) as Hr. cbn [fst] in Hr.
  assert (r = Returned [("https://example.com/a", 1, base_url);
                        ("https://example.com/b", 1, base_url)]) as ->
    by (rewrite <- Hr; vm_compute; reflexivity).
  exists st'. split; [reflexivity|].
  pose proof (fetch_and_extract_returns_new_links _ _ _ _ _ _ _ _ Hcall)
    as (_ & Hlog & _).
  exact Hlog.
Defined.

Lemma fetch_and_extract_discovers_every_link_witness :
  ∃ links st',
    fetch_and_extract "https://example.com/a" base_url 1 2 base_url
      (initial_state false)
    = (Returned links, st')
    ∧ (normalize_url "https://example.com/a" "c"
       = Returned "https://example.com/c" →
       "https://example.com/c" ∈ entry_url <$> links).
Proof.
  destruct (fetch_and_extract "https://example.com/a" base_url 1 2 base_url
              (initial_state false)) as [r st'] eqn:Hcall.
  pose proof (f_equal fst Hcall) as Hr. cbn [fst] in Hr.
  assert (r = Returned [("https://example.com/c", 2,
                         "https://example.com/a");
                        ("https://example.com/a", 2,
                         "https://example.com/a")]) as ->
    by (rewrite <- Hr; vm_compute; reflexivity).
  eexists _, st'. split; [reflexivity|]. intros Hnorm.
  assert (1 ≤ 2) as Hdepth by lia.
  assert (200 < 400) as Hstatus by lia.
  pose proof (fetch_and_extract_discovers_every_link
                base_url "https://example.com/a" 1 2 base_url
                (initial_state false) 200 "c https://other.com/y /a#top"
                _ st' (not_elem_of_empty _) Hdepth eq_refl Hstatus Hcall)
    as (Hall & _).
  assert ("c" ∈ find_all_href "c https://other.com/y /a#top") as Htag
    by (vm_compute; apply list_elem_of_here).
  assert (crawlable "https://example.com/c" = true) as Hcrawlable
    by (vm_compute; reflexivity).
  assert (is_internal base_url "https://example.com/c" = Returned true)
    as Hinternal by (vm_compute; reflexivity).
  destruct (Hall "c" "https://example.com/c" Htag Hnorm Hcrawlable Hinternal)
    as [Hold|Hnew]; [|exact Hnew].
  destruct (not_elem_of_empty (C:=gset string) _ Hold).
Defined.

Lemma fetch_and_extract_again_witness :
  1 ≤ 2
  ∧ ∃ r st',
      fetch_and_extract "https://example.com/b" base_url 1 2 base_url
        (initial_state false)
      = (r, st')
      ∧ fetch_and_extract "https://example.com/b" base_url 2 2
          "https://example.com/a" st'
        = (Returned [], st').
Proof.
  split; [lia|].
  destruct (fetch_and_extract "https://example.com/b" base_url 1 2 base_url
              (initial_state false)) as [r st'] eqn:Hcall.
  exists r, st'. split; [reflexivity|].
  refine (proj2 (fetch_and_extract_again _ _ _ _ _ _ _ _ _ _ _ Hcall)). lia.
Defined.

Lemma crawl_only_adds_witness :
  rtc (step base_url 2 10) (crawl 3 base_url 2 10 (start 10))
      (crawl 200 base_url 2 10 (crawl 3 base_url 2 10 (start 10)))
  ∧ grows (shared (crawl 3 base_url 2 10 (start 10)))
          (shared (crawl 200 base_url 2 10 (crawl 3 base_url 2 10 (start 10)))).
Proof.
  pose proof (crawl_steps base_url 2 10 200 (crawl 3 base_url 2 10 (start 10)))
    as Hsteps.
  split; [exact Hsteps|].
  exact (crawl_only_adds base_url 2 10 _ _ Hsteps).
Defined.

Lemma frontier_entries_come_from_visited_pages_witness :
  reachable base_url 2 10 true (crawl 200 base_url 2 10 (start 10))
  ∧ ∀ url, url ∈ visited (shared (crawl 200 base_url 2 10 (start 10))) →
           ∃ e, e ∈ frontier_log (shared (crawl 200 base_url 2 10 (start 10)))
                ∧ entry_url e = url ∧ 0 ≤ entry_depth e ≤ 2.
Proof.
  pose proof (crawl_steps base_url 2 10 200 (start 10)) as Hreach.
  split; [exact Hreach|].
  exact (proj2 (frontier_entries_come_from_visited_pages
                  base_url 2 10 true _ Hreach)).
Defined.

Lemma negative_max_depth_fetches_nothing_witness :
  -1 < 0
  ∧ reachable base_url (-1) 10 true (crawl 200 base_url (-1) 10 (start 10))
  ∧ requests_log (shared (crawl 200 base_url (-1) 10 (start 10))) = [].
Proof.
  pose proof (crawl_steps base_url (-1) 10 200 (start 10)) as Hreach.
  split; [lia|]. split; [exact Hreach|].
  refine (proj1 (proj2 (negative_max_depth_fetches_nothing
                          base_url (-1) 10 true _ _ Hreach))).
  lia.
Defined.

Lemma realtime_export_mirrors_broken_witness :
  reachable base_url 2 10 true (crawl 200 base_url 2 10 (start 10))
  ∧ realtime_export_file (shared (crawl 200 base_url 2 10 (start 10)))
    = Some (csv_header
              :: map realtime_row
                   (broken (shared (crawl 200 base_url 2 10 (start 10))))).
Proof.
  pose proof (crawl_steps base_url 2 10 200 (start 10)) as Hreach.
  split; [exact Hreach|].
  exact (realtime_export_mirrors_broken base_url 2 10 true _ Hreach).
Defined.

Lemma visited_are_requested_witness :
  reachable base_url 2 10 true (crawl 200 base_url 2 10 (start 10))
  ∧ at_phase (crawl 200 base_url 2 10 (start 10)) = Done
  ∧ visited (shared (crawl 200 base_url 2 10 (start 10)))
    = list_to_set (requests_log (shared (crawl 200 base_url 2 10 (start 10))))
  ∧ length (requests_log (shared (crawl 200 base_url 2 10 (start 10))))
    = size (visited (shared (crawl 200 base_url 2 10 (start 10)))).
Proof.
  pose proof (crawl_steps base_url 2 10 200 (start 10)) as Hreach.
  assert (at_phase (crawl 200 base_url 2 10 (start 10)) = Done) as Hdone
    by (vm_compute; reflexivity).
  split; [exact Hreach|]. split; [exact Hdone|].
  exact (proj2 (visited_are_requested base_url 2 10 true _ Hreach)
               (or_introl Hdone)).
Defined.

End more_examples.

Section faulty_examples.
#[local] Existing Instance Example_faulty_site.ipaddress.
#[local] Existing Instance Example_faulty_site.web.
Import Example_faulty_site.

(** The crawl of the faulty site: the link that cannot be parsed makes its
    task raise, which [future.result()] raises again in the main thread. *)
Example crawl_faulty_example :
  let c := crawl 200 base_url 2 2 (start 2) in
  at_phase c = Failed (ValueError "Invalid IPv6 URL")
  ∧ broken (shared c)
    = [("https://example.com/forbidden", Int 403, "https://example.com");
       ("https://example.com/gone", Str "timed out", "https://example.com")]
  ∧ requests_log (shared c)
    = ["https://example.com"; "https://example.com/forbidden";
       "https://example.com/gone"; "https://example.com/bad"].
Proof. cbv zeta. split_and!; vm_compute; reflexivity. Qed.

Lemma fetch_and_extract_raises_two_ways_witness :
  ∃ st',
    fetch_and_extract "https://example.com/bad" base_url 1 2 base_url
      (initial_state false)
    = (Raised (ValueError "Invalid IPv6 URL"), st')
    ∧ visited st' = {[ "https://example.com/bad" ]} ∪ ∅
    ∧ broken st' = [].
Proof.
  destruct (fetch_and_extract "https://example.com/bad" base_url 1 2 base_url
              (initial_state false)) as [r st'] eqn:Hcall.
  pose proof (f_equal fst Hcall) as Hr. cbn [fst] in Hr.
  assert (r = Raised (ValueError "Invalid IPv6 URL")) as ->
    by (rewrite <- Hr; vm_compute; reflexivity).
  exists st'. split; [reflexivity|].
  pose proof (fetch_and_extract_raises_two_ways _ _ _ _ _ _ _ _ Hcall)
    as (_ & _ & Hvisited & Hbroken & _).
  split; [exact Hvisited|exact Hbroken].
Defined.

Lemma broken_reported_once_witness :
  reachable base_url 2 2 true (crawl 200 base_url 2 2 (start 2))
  ∧ NoDup (broken_url <$> broken (shared (crawl 200 base_url 2 2 (start 2)))).
Proof.
  pose proof (crawl_steps base_url 2 2 200 (start 2)) as Hreach.
  split; [exact Hreach|].
  exact (proj1 (broken_reported_once base_url 2 2 true _ Hreach)).
Defined.

Lemma histogram_counts_broken_witness :
  reachable base_url 2 2 true (crawl 200 base_url 2 2 (start 2))
  ∧ at_phase (crawl 200 base_url 2 2 (start 2))
    = Failed (ValueError "Invalid IPv6 URL")
  ∧ stats_get (Int 403) (stats (shared (crawl 200 base_url 2 2 (start 2))))
    = count_status 403 (broken (shared (crawl 200 base_url 2 2 (start 2)))).
Proof.
  pose proof (crawl_steps base_url 2 2 200 (start 2)) as Hreach.
  assert (at_phase (crawl 200 base_url 2 2 (start 2))
          = Failed (ValueError "Invalid IPv6 URL")) as Hfailed
    by (vm_compute; reflexivity).
  split; [exact Hreach|]. split; [exact Hfailed|].
  refine (proj2 (proj2 (histogram_counts_broken base_url 2 2 true _ Hreach))
                (or_intror (ex_intro _ _ Hfailed)) 403 _).
  lia.
Defined.

Lemma final_export_filters_realtime_witness :
  reachable base_url 2 2 true (crawl 200 base_url 2 2 (start 2))
  ∧ realtime_export_file (shared (crawl 200 base_url 2 2 (start 2)))
    = Some [csv_header;
            [Int 403; Str "https://example.com/forbidden";
             Str "https://example.com"];
            [Str "ERROR"; Str "https://example.com/gone";
             Str "https://example.com"]]
  ∧ export_errors_to_csv (broken (shared (crawl 200 base_url 2 2 (start 2))))
    = [csv_header;
       [Str "ERROR"; Str "https://example.com/gone";
        Str "https://example.com"]].
Proof.
  pose proof (crawl_steps base_url 2 2 200 (start 2)) as Hreach.
  assert (realtime_export_file (shared (crawl 200 base_url 2 2 (start 2)))
          = Some [csv_header;
                  [Int 403; Str "https://example.com/forbidden";
                   Str "https://example.com"];
                  [Str "ERROR"; Str "https://example.com/gone";
                   Str "https://example.com"]]) as Hrows
    by (vm_compute; reflexivity).
  split; [exact Hreach|]. split; [exact Hrows|].
  exact (final_export_filters_realtime base_url 2 2 true _ _ Hreach Hrows).
Defined.

End faulty_examples.

(** ** The crashing site *)

Section crashing_examples.
#[local] Existing Instance Example_crashing_site.ipaddress.
#[local] Existing Instance Example_crashing_site.web.
Import Example_crashing_site.

(** C10 fails as stated: [requests.get] raises an exception that the
    [except] clause does not catch. The start URL is visited and nothing is
    counted; the crawl has raised and no task is running, yet the histogram
    counts add up to 0 and the visited set has one URL. *)
Lemma histogram_misses_uncaught_request :
  reachable base_url 2 10 true (crawl 200 base_url 2 10 (start 10))
  ∧ at_phase (crawl 200 base_url 2 10 (start 10))
    = Failed (Exception "LocationParseError" "Failed to parse: a..b")
  ∧ Forall (λ f, is_running (fut_pc f) = false)
           (futures (crawl 200 base_url 2 10 (start 10)))
  ∧ visited (shared (crawl 200 base_url 2 10 (start 10))) = {[ base_url ]}
  ∧ size (visited (shared (crawl 200 base_url 2 10 (start 10)))) = 1%nat
  ∧ stats_total (stats (shared (crawl 200 base_url 2 10 (start 10)))) = 0%nat
  ∧ stats_total (stats (shared (crawl 200 base_url 2 10 (start 10))))
    ≠ size (visited (shared (crawl 200 base_url 2 10 (start 10)))).
Proof.
  assert (visited (shared (crawl 200 base_url 2 10 (start 10)))
          = {[ base_url ]}) as Hvisited by (vm_compute; reflexivity).
  assert (stats_total (stats (shared (crawl 200 base_url 2 10 (start 10))))
          = 0%nat) as Htotal by (vm_compute; reflexivity).
  split_and!.
  - apply crawl_steps.
  - vm_compute. reflexivity.
  - vm_compute. repeat constructor.
  - exact Hvisited.
  - rewrite Hvisited. apply size_singleton.
  - exact Htotal.
  - rewrite Htotal, Hvisited, size_singleton. lia.
Qed.

End crashing_examples.
